(** * Lightnet glue code: weight export, batch sampling, datasets,
      transform dispatch and the hyper-parameter container

    A shallow embedding of the Python sources

      - [lightnet/network/module/_lightnet.py]   ([Lightnet.save], [Lightnet.load],
                                                  [layer_loop], [named_layer_loop])
      - [lightnet/data/_dataloading.py]          ([Dataset], [DataLoader], [BatchSampler])
      - [lightnet/data/transform/util.py]        ([Compose.__call__],
                                                  [BaseMultiTransform.__call__])
      - [lightnet/engine/_parameter.py]          ([HyperParameters])

    Python dictionaries keep insertion order and the code iterates over them,
    so they are association lists here ([odict]).  Exceptions are explicit
    results, log calls are appended to an event trace.  Library code ([re],
    the hooks of the objects, torch's constructors, [torch.save] and
    [torch.load]) comes in as parameters.

    The file has two parts: the embedding (definitions only), then the
    lemmas and theorems about it. *)

From Stdlib Require Import String List ZArith Bool Lia Ascii.
Import ListNotations.
Open Scope string_scope.
Open Scope list_scope.

Set Implicit Arguments.
Set Warnings "-register-all".

(* ===================================================================== *)
(** * Part I: the embedding *)
(* ===================================================================== *)

(** ** Python exceptions raised or caught by the modelled code *)

Inductive exn : Type :=
| TypeError
| AttributeError
| IndexError
| RuntimeError.

(** ** Insertion-ordered dictionaries *)

Module OD.

Definition odict (V : Type) := list (string * V).

Fixpoint get {V} (k : string) (d : odict V) : option V :=
  match d with
  | [] => None
  | (k', v) :: tl => if String.eqb k k' then Some v else get k tl
  end.

(** [d[k] = v]: an existing key keeps its position, a new key goes last. *)
Fixpoint set {V} (k : string) (v : V) (d : odict V) : odict V :=
  match d with
  | [] => [(k, v)]
  | (k', v') :: tl =>
      if String.eqb k k' then (k', v) :: tl else (k', v') :: set k v tl
  end.

(** [k in d] *)
Definition mem {V} (k : string) (d : odict V) : bool :=
  match get k d with Some _ => true | None => false end.

Definition keys {V} (d : odict V) : list string := map fst d.

Definition in_keys (k : string) (ks : list string) : bool :=
  existsb (String.eqb k) ks.

(** Comparison of two [dict.keys()] views: they compare as sets. *)
Definition same_keys (ks1 ks2 : list string) : bool :=
  forallb (fun k => in_keys k ks2) ks1 && forallb (fun k => in_keys k ks1) ks2.

End OD.

(* --------------------------------------------------------------------- *)
(** ** [Lightnet.save] and [Lightnet.load] *)
(* --------------------------------------------------------------------- *)

Module Remap.
Import OD.

Section Save.

(** The regular-expression engine is Python's [re] module; the export
    loop only uses [re.match(p, k) is not None] and [re.sub(p, r, k)]. *)
Variables pattern repl tensor : Type.
Variable re_match : pattern -> string -> bool.
Variable re_sub : pattern -> repl -> string -> string.

Definition rule : Type := (pattern * repl)%type.

(** The inner loop
    [for r in remap: if re.match(r[0], k) is not None: weights[re.sub(...)] = v; break]. *)
Fixpoint remap_key (remap : list rule) (k : string) (v : tensor)
         (weights : odict tensor) : odict tensor :=
  match remap with
  | [] => weights
  | r :: rest =>
      if re_match (fst r) k
      then set (re_sub (fst r) (snd r) k) v weights
      else remap_key rest k v weights
  end.

(** The outer loop [for k, v in orig_weights.items()]. *)
Fixpoint remap_items (items : odict tensor) (remap : list rule)
         (weights : odict tensor) : odict tensor :=
  match items with
  | [] => weights
  | (k, v) :: tl => remap_items tl remap (remap_key remap k v weights)
  end.

(** [save]: the mapping handed to [torch.save] and the word put in the
    log line [Saved{remap} weights as ...]. *)
Definition save (state_dict : odict tensor) (remap : option (list rule))
  : odict tensor * string :=
  match remap with
  | Some rules => (remap_items state_dict rules [], " remapped")
  | None => (state_dict, "")
  end.

Definition saved_weights (state_dict : odict tensor) (rules : list rule)
  : odict tensor :=
  fst (save state_dict (Some rules)).

(** The first rule of the list whose pattern matches [k]. *)
Definition first_rule (rules : list rule) (k : string) : option rule :=
  find (fun r => re_match (fst r) k) rules.

End Save.

(** A small engine for patterns of the form [^literal]: [re.match]
    tests the prefix, [re.sub] rewrites it. *)
Definition lit_match (p k : string) : bool := String.prefix p k.

Definition lit_sub (p r k : string) : string :=
  if String.prefix p k
  then (r ++ substring (String.length p) (String.length k - String.length p) k)%string
  else k.

End Remap.

Module Net.
Import OD.

Inductive log_record : Type :=
| LogInfo (msg : string)
| LogWarning (msg : string).

Section Load.

Variable tensor : Type.

(** The network as [Lightnet.load] sees it: its [state_dict()]. *)
Definition model : Type := odict tensor.

(** [torch.nn.Module.load_state_dict(state, strict=...)], inherited from
    PyTorch: the updated module and the exception it raised, if any. *)
Variable load_state_dict : model -> odict tensor -> bool -> model * option exn.

Definition load (weights : string) (state : odict tensor) (strict : bool)
           (self : model) : model * list log_record * option exn :=
  let ks := keys self in
  let log1 := [LogInfo ("Loading weights from file [" ++ weights ++ "]")%string] in
  let log2 :=
    if negb strict && negb (same_keys (keys state) ks)
    then log1 ++ [LogWarning "Modules not matching, performing partial update"]
    else log1 in
  let '(self', e) := load_state_dict self state strict in
  (self', log2, e).

End Load.

(** PyTorch's documented behaviour on the key sets: the parameters the
    checkpoint has are copied; under [strict] a missing or unexpected key is
    then reported with a [RuntimeError]. *)
Fixpoint copy_present {tensor} (self state : odict tensor) : odict tensor :=
  match self with
  | [] => []
  | (k, v) :: tl =>
      (k, match get k state with Some v' => v' | None => v end)
        :: copy_present tl state
  end.

Definition torch_load_state_dict {tensor} (self state : odict tensor)
           (strict : bool) : odict tensor * option exn :=
  (copy_present self state,
   if strict && negb (same_keys (keys state) (keys self))
   then Some RuntimeError else None).

End Net.

(* --------------------------------------------------------------------- *)
(** ** [BatchSampler] and [DataLoader.change_input_dim] *)
(* --------------------------------------------------------------------- *)

Module Sampler.

(** A dimension is a tuple of integers, [(width, height)] when well formed. *)
Definition dim : Type := list Z.

(** [log.info(f'Resizing network {self.new_input_dim[:2]}')] *)
Inductive log_record : Type :=
| Resizing (d : dim).

Record state : Type := mkState {
  input_dim : dim;
  new_input_dim : option dim;
  log : list log_record
}.

(** [BatchSampler.__init__]: [input_dim = input_dimension], nothing pending. *)
Definition init (input_dimension : dim) : state :=
  mkState input_dimension None [].

(** [BatchSampler.__set_input_dim]: the state afterwards and the exception
    raised when the pending tuple has fewer than two entries. *)
Definition set_input_dim (s : state) : state * option exn :=
  match new_input_dim s with
  | None => (s, None)
  | Some nd =>
      let lg := log s ++ [Resizing (firstn 2 nd)] in
      match nd with
      | w :: h :: _ => (mkState [w; h] None lg, None)
      | _ => (mkState (input_dim s) (Some nd) lg, Some IndexError)
      end
  end.

(** An assignment to [new_input_dim] from outside the sampler. *)
Definition request (s : state) (d : dim) : state :=
  mkState (input_dim s) (Some d) (log s).

Definition requests (ds : list dim) (s : state) : state :=
  fold_left request ds s.

(** [[(self.input_dim, idx) for idx in batch]].  Every index comes with the
    assignments to [new_input_dim] made by other code just before it is
    paired, so that a request can arrive at any point of the comprehension. *)
Fixpoint comprehension (batch : list (list dim * nat)) (s : state)
  : list (dim * nat) * state :=
  match batch with
  | [] => ([], s)
  | (reqs, idx) :: tl =>
      let s1 := requests reqs s in
      let '(rest, s2) := comprehension tl s1 in
      ((input_dim s1, idx) :: rest, s2)
  end.

(** One round of the generator: what the consumer requested while the
    generator was suspended (or before it was started), then the batch
    delivered by [super().__iter__()]. *)
Record turn : Type := mkTurn {
  before : list dim;
  batch : list (list dim * nat)
}.

(** [BatchSampler.__iter__]: the mini-batches yielded, the state at the end,
    and the exception that ended the generator, if any.  [after] are the
    requests made while the generator is suspended at its last [yield]. *)
Fixpoint iter (turns : list turn) (after : list dim) (s : state)
  : list (list (dim * nat)) * state * option exn :=
  match turns with
  | [] =>
      let '(s1, e) := set_input_dim (requests after s) in
      ([], s1, e)
  | t :: rest =>
      match set_input_dim (requests (before t) s) with
      | (s1, Some e) => ([], s1, Some e)
      | (s1, None) =>
          let '(b, s2) := comprehension (batch t) s1 in
          let '(out, s3, e) := iter rest after s2 in
          (b :: out, s3, e)
      end
  end.

(** [torch.utils.data.sampler.BatchSampler.__iter__], the parent class:
    indices are grouped by [batch_size], a short last group is kept unless
    [drop_last]. *)
Fixpoint torch_batches (sampler : list nat) (batch_size : nat)
         (drop_last : bool) (acc : list nat) : list (list nat) :=
  match sampler with
  | [] =>
      if (0 <? length acc)%nat && negb drop_last then [acc] else []
  | idx :: tl =>
      let acc' := acc ++ [idx] in
      if (length acc' =? batch_size)%nat
      then acc' :: torch_batches tl batch_size drop_last []
      else torch_batches tl batch_size drop_last acc'
  end.

(** A consumer that makes no request while a batch is being built. *)
Definition quiet_turn (reqs : list dim) (b : list nat) : turn :=
  mkTurn reqs (map (fun idx => ([], idx)) b).

(** The [multiple] argument of [change_input_dim]: an int or a tuple. *)
Inductive multiple_arg : Type :=
| MInt (m : Z)
| MTuple (m : list Z).

(** [DataLoader.change_input_dim]; [draw] is what [random.randint] returned
    ([random_range] is [None] for an exact size).  The result is the new
    size, or the exception of [multiple[0]], [multiple[1]]. *)
Definition change_input_dim (multiple : multiple_arg)
           (random_range : option (Z * Z)) (draw : Z) (s : state)
  : state * (dim + exn) :=
  let size := match random_range with None => 1%Z | Some _ => draw end in
  match multiple with
  | MInt m =>
      let sz := [size * m; size * m]%Z in (request s sz, inl sz)
  | MTuple (m0 :: m1 :: _) =>
      let sz := [size * m0; size * m1]%Z in (request s sz, inl sz)
  | MTuple _ => (s, inr IndexError)
  end.

(** All assignments to [new_input_dim] made during a turn. *)
Definition turn_requests (t : turn) : list dim :=
  before t ++ flat_map fst (batch t).

Definition pending (s : state) : list dim :=
  match new_input_dim s with Some d => [d] | None => [] end.

Definition or_else {A} (a b : option A) : option A :=
  match a with Some _ => a | None => b end.

Fixpoint last_opt {A} (l : list A) : option A :=
  match l with
  | [] => None
  | x :: tl => match tl with [] => Some x | _ => last_opt tl end
  end.

(** The resolution in force after the requests [reqs], starting from [cur]:
    the last request, cut to (width, height). *)
Definition effective (cur : dim) (reqs : list dim) : dim :=
  match last_opt reqs with
  | Some d => firstn 2 d
  | None => cur
  end.

(** The record written when a pending request is taken up. *)
Definition resize_of (req : option dim) : list log_record :=
  match req with
  | Some d => [Resizing (firstn 2 d)]
  | None => []
  end.

(** The requests that reach each call of [__set_input_dim]: those carried
    over from before, then those made since the previous call. *)
Fixpoint boundaries (carry : list dim) (turns : list turn) (after : list dim)
  : list (list dim) :=
  match turns with
  | [] => [carry ++ after]
  | t :: rest =>
      (carry ++ before t) :: boundaries (flat_map fst (batch t)) rest after
  end.

Definition resize_records (groups : list (list dim)) : list log_record :=
  flat_map (fun g => resize_of (last_opt g)) groups.

Definition well_formed (d : dim) : bool := (2 <=? length d)%nat.

Definition turn_well_formed (t : turn) : bool :=
  forallb well_formed (turn_requests t).

End Sampler.

(* --------------------------------------------------------------------- *)
(** ** [Dataset]: the [input_dim] property and [resize_getitem] *)
(* --------------------------------------------------------------------- *)

Module Dataset.

Definition dim : Type := list Z.

Section Wrapped.

(** [U]: the attributes a subclass adds; [R]: what [__getitem__] returns. *)
Variables U R : Type.

Record dataset : Type := mkDataset {
  default_dim : dim;          (* self.__input_dim *)
  override : option dim;      (* self._input_dim, when the attribute exists *)
  user : U
}.

(** [Dataset.__init__]: [self.__input_dim = input_dimension[:2]]. *)
Definition init (input_dimension : dim) (u : U) : dataset :=
  mkDataset (firstn 2 input_dimension) None u.

(** The [input_dim] property. *)
Definition input_dim (self : dataset) : dim :=
  match override self with
  | Some d => d
  | None => default_dim self
  end.

(** An index is an int or a [(dim, i)] pair. *)
Inductive index : Type :=
| IInt (i : Z)
| IPair (d : dim) (i : Z).

Definition set_override (d : dim) (self : dataset) : dataset :=
  mkDataset (default_dim self) (Some d) (user self).

Definition del_override (self : dataset) : dataset :=
  mkDataset (default_dim self) None (user self).

(** The wrapped [__getitem__]: it may change the object and may raise. *)
Variable getitem_fn : dataset -> Z -> dataset * (R + exn).

(** [wrapper] of [resize_getitem]. *)
Definition wrapper (self : dataset) (idx : index) : dataset * (R + exn) :=
  let '(has_dim, self1, i) :=
    match idx with
    | IPair d i => (true, set_override d self, i)
    | IInt i => (false, self, i)
    end in
  match getitem_fn self1 i with
  | (self2, inr e) => (self2, inr e)
  | (self2, inl ret_val) =>
      if has_dim then
        match override self2 with
        | Some _ => (del_override self2, inl ret_val)
        | None => (self2, inr AttributeError)
        end
      else (self2, inl ret_val)
  end.

End Wrapped.

(** The [CustomSet] of the docstring: [__getitem__] returns [self.input_dim]. *)
Definition custom_getitem (self : dataset unit) (i : Z)
  : dataset unit * (dim + exn) :=
  (self, inl (input_dim self)).

End Dataset.

(* --------------------------------------------------------------------- *)
(** ** [BaseMultiTransform.__call__] *)
(* --------------------------------------------------------------------- *)

Module Transform.

Section Dispatch.

(** Payloads of the three supported representations and of anything else. *)
Variables anno pil cv other : Type.

Inductive data : Type :=
| PyNone
| DataFrame (a : anno)
| PILImage (i : pil)
| NdArray (c : cv)
| Other (o : other).

(** Calls of the overrides and of [log.error], in order. *)
Inductive event : Type :=
| CallAnno (d : data)
| CallPil (d : data)
| CallCv (d : data)
| LogError (d : data).

Definition is_dataframe (d : data) : bool :=
  match d with DataFrame _ => true | _ => false end.
Definition is_pil (d : data) : bool :=
  match d with PILImage _ => true | _ => false end.
Definition is_ndarray (d : data) : bool :=
  match d with NdArray _ => true | _ => false end.
Definition is_none (d : data) : bool :=
  match d with PyNone => true | _ => false end.

(** The three abstract methods a subclass provides. *)
Variables _tf_anno _tf_pil _tf_cv : data -> data.

(** [pd_available]: whether [import pandas] succeeded ([pd is not None]). *)
Definition call (pd_available : bool) (d : data) : data * list event :=
  if is_none d then (PyNone, [])
  else if pd_available && is_dataframe d then (_tf_anno d, [CallAnno d])
  else if is_pil d then (_tf_pil d, [CallPil d])
  else if is_ndarray d then (_tf_cv d, [CallCv d])
  else (d, [LogError d]).

Definition is_log (e : event) : bool :=
  match e with LogError _ => true | _ => false end.

Definition is_override_call (e : event) : bool :=
  match e with LogError _ => false | _ => true end.

End Dispatch.

(** A transform that flips images ([bool]), negates arrays ([Z]) and empties
    annotation tables ([list nat]); strings stand for everything else. *)
Definition flip_anno (d : data (list nat) bool Z string) : data (list nat) bool Z string :=
  match d with DataFrame _ _ _ _ => DataFrame _ _ _ [] | _ => d end.

Definition flip_pil (d : data (list nat) bool Z string) : data (list nat) bool Z string :=
  match d with PILImage _ _ _ b => PILImage _ _ _ (negb b) | _ => d end.

Definition flip_cv (d : data (list nat) bool Z string) : data (list nat) bool Z string :=
  match d with NdArray _ _ _ z => NdArray _ _ _ (- z)%Z | _ => d end.

End Transform.

(* --------------------------------------------------------------------- *)
(** ** [HyperParameters] *)
(* --------------------------------------------------------------------- *)

Module Params.
Import OD.

(** Python values as the container sees them.  Objects that may carry the
    [state_dict] / [load_state_dict] hooks live on a heap and are held by
    reference, so that two attributes can share one object; they are
    instances, no value is a class.  A [VDict] is a dictionary with string
    keys. *)
Inductive value : Type :=
| VNone
| VBool (b : bool)
| VInt (z : Z)
| VStr (s : string)
| VList (l : list value)
| VDict (d : list (string * value))
| VFunc (name : string)
| VRef (l : nat).

Inductive level : Type := INFO | WARNING | ERROR.

(** What the code does to the outside: log records and calls of an
    object's [load_state_dict] (with the [strict] keyword, or without). *)
Inductive event : Type :=
| Log (lv : level) (msg : string)
| CallLoadStateDict (l : nat) (v : value) (strict : option bool).


Definition NO_SERIALIZE : string := "_HyperParameters__no_serialize".
Definition INIT_DONE : string := "_HyperParameters__init_done".

(** Names [hasattr] finds on the class: those of the class body and those
    every Python object inherits. *)
Definition class_attrs : list string :=
  [INIT_DONE; "__init__"; "__setattr__"; "__repr__"; "from_file"; "save";
   "load"; "to"; "__module__"; "__doc__"; "__dict__"; "__weakref__";
   "__class__"; "__delattr__"; "__dir__"; "__eq__"; "__format__"; "__ge__";
   "__getattribute__"; "__gt__"; "__hash__"; "__init_subclass__"; "__le__";
   "__lt__"; "__ne__"; "__new__"; "__reduce__"; "__reduce_ex__";
   "__sizeof__"; "__str__"; "__subclasshook__"].

Definition class_value (k : string) : value :=
  if String.eqb k INIT_DONE then VBool false else VFunc k.

(** [hasattr(self, k)] and [getattr(self, k)]: the instance dictionary
    first, then the class. *)
Definition hasattr_self (k : string) (d : odict value) : bool :=
  mem k d || in_keys k class_attrs.

Definition getattr_self (k : string) (d : odict value) : option value :=
  match get k d with
  | Some v => Some v
  | None => if in_keys k class_attrs then Some (class_value k) else None
  end.

Definition truthy (v : value) : bool :=
  match v with
  | VNone => false
  | VBool b => b
  | VInt z => negb (z =? 0)%Z
  | VStr s => negb (String.eqb s "")
  | VList l => match l with [] => false | _ => true end
  | VDict d => match d with [] => false | _ => true end
  | VFunc _ => true
  | VRef _ => true
  end.

(** [self.__init_done] *)
Definition init_done (d : odict value) : value :=
  match getattr_self INIT_DONE d with
  | Some v => v
  | None => VBool false
  end.

(** [key.startswith('_')] and [key[1:]] *)
Definition startswith_underscore (key : string) : bool :=
  match key with
  | String c _ => Ascii.eqb c "_"
  | EmptyString => false
  end.

Definition tail (key : string) : string :=
  match key with
  | String _ rest => rest
  | EmptyString => EmptyString
  end.

(** [k in ns] for the values that support it here: a list compares its
    elements with [==], a string is searched for the substring, a
    dictionary for the key. *)
Definition contains (k : string) (ns : value) : bool + exn :=
  match ns with
  | VList l =>
      inl (existsb (fun e => match e with
                             | VStr s => String.eqb s k
                             | _ => false
                             end) l)
  | VStr s => inl (match index 0 k s with Some _ => true | None => false end)
  | VDict d => inl (existsb (fun e => String.eqb (fst e) k) d)
  | _ => inr TypeError
  end.

(** The data descriptors of the class: [object.__setattr__] hands an
    assignment to one of these names to the descriptor and does not look at
    the instance dictionary. *)
Definition descriptors : list string := ["__class__"; "__dict__"; "__weakref__"].

(** A name [object.__setattr__] stores in the instance dictionary. *)
Definition storable (k : string) : bool := negb (in_keys k descriptors).

(** A name [__setattr__] stores as it is, also on a finished object: not
    empty and without the leading underscore. *)
Definition plain_name (k : string) : bool :=
  match k with
  | EmptyString => false
  | String c _ => negb (Ascii.eqb c "_")
  end.

(** The attribute name a keyword argument of [__init__] ends up under. *)
Definition effective_name (key : string) : string :=
  if startswith_underscore key then tail key else key.

(** The attributes after the first three assignments of [__init__]. *)
Definition fresh_attrs : odict value :=
  [("batch", VInt 0); ("epoch", VInt 0); (NO_SERIALIZE, VList [])].

(** What holds of the attributes all along the loop over [kwargs]. *)
Definition building (d : odict value) : Prop :=
  get INIT_DONE d = None /\
  (exists ns, get NO_SERIALIZE d = Some (VList ns)) /\
  NoDup (keys d).

Section Hooks.

(** Heap objects and their hooks; [load_state_dict o v strict] gives the
    object after the call ([strict = None]: called without the keyword) and
    the exception the call raised, if any. *)
Variable obj : Type.
Variable has_state_dict : obj -> bool.
Variable state_dict : obj -> value.
Variable has_load_state_dict : obj -> bool.
Variable load_state_dict : obj -> value -> option bool -> obj * option exn.

Record world : Type := mkWorld {
  attrs : odict value;        (* self.__dict__ *)
  heap : list obj;
  trace : list event
}.

(** State and exceptions. *)
Definition M (A : Type) : Type := world -> world * (A + exn).

Definition ret {A} (a : A) : M A := fun w => (w, inl a).

Definition raise {A} (e : exn) : M A := fun w => (w, inr e).

Definition bind {A B} (m : M A) (f : A -> M B) : M B :=
  fun w =>
    match m w with
    | (w', inl a) => f a w'
    | (w', inr e) => (w', inr e)
    end.

Notation "x <- c1 ;; c2" := (bind c1 (fun x => c2))
  (at level 61, c1 at next level, right associativity).
Notation "c1 ;; c2" := (bind c1 (fun _ => c2))
  (at level 61, right associativity).

Fixpoint for_each {A} (l : list A) (body : A -> M unit) : M unit :=
  match l with
  | [] => ret tt
  | a :: tl => body a ;; for_each tl body
  end.

Definition get_attrs : M (odict value) := fun w => (w, inl (attrs w)).

Definition put_attrs (d : odict value) : M unit :=
  fun w => (mkWorld d (heap w) (trace w), inl tt).

Definition get_heap : M (list obj) := fun w => (w, inl (heap w)).

Fixpoint update {A} (l : nat) (a : A) (h : list A) : list A :=
  match h, l with
  | [], _ => []
  | _ :: tl, O => a :: tl
  | x :: tl, S l' => x :: update l' a tl
  end.

Definition put_obj (l : nat) (o : obj) : M unit :=
  fun w => (mkWorld (attrs w) (update l o (heap w)) (trace w), inl tt).

Definition emit (e : event) : M unit :=
  fun w => (mkWorld (attrs w) (heap w) (trace w ++ [e]), inl tt).

(** [super().__setattr__(item, value)], that is [object.__setattr__].  The
    three data descriptors come before the instance dictionary: [__class__]
    takes a class only and [__dict__] a dictionary only ([TypeError]
    otherwise), [__weakref__] is not writable ([AttributeError]); a
    dictionary assigned to [__dict__] becomes the instance dictionary.  Any
    other name is stored in the instance dictionary. *)
Definition object_setattr (item : string) (v : value) : M unit :=
  if String.eqb item "__class__" then raise TypeError
  else if String.eqb item "__dict__" then
    match v with
    | VDict d => put_attrs d
    | _ => raise TypeError
    end
  else if String.eqb item "__weakref__" then raise AttributeError
  else d <- get_attrs ;; put_attrs (set item v d).

(** [self.__no_serialize.append(x)] *)
Definition no_serialize_append (x : string) : M unit :=
  d <- get_attrs ;;
  match get NO_SERIALIZE d with
  | Some (VList l) => put_attrs (set NO_SERIALIZE (VList (l ++ [VStr x])) d)
  | _ => raise AttributeError
  end.

(** [HyperParameters.__setattr__] *)
Definition setattr (item : string) (v : value) : M unit :=
  d <- get_attrs ;;
  if mem item d || negb (truthy (init_done d)) then object_setattr item v
  else
    match item with
    | EmptyString => raise IndexError
    | String c rest =>
        if Ascii.eqb c "_" then
          if mem rest d then raise AttributeError
          else no_serialize_append rest ;; object_setattr rest v
        else object_setattr item v
    end.

(** The body of the loop [for key in kwargs] of [__init__]. *)
Definition init_kwarg (kv : string * value) : M unit :=
  let '(key0, val) := kv in
  let '(serialize, key) :=
    if startswith_underscore key0 then (false, tail key0) else (true, key0) in
  d <- get_attrs ;;
  if negb (hasattr_self key d) then
    setattr key val ;;
    if serialize then ret tt else no_serialize_append key
  else
    emit (Log ERROR (key ++ " attribute already exists as a HyperParameter and will not be overwritten.")%string).

(** [HyperParameters.__init__] *)
Definition init (kwargs : odict value) : M unit :=
  setattr "batch" (VInt 0) ;;
  setattr "epoch" (VInt 0) ;;
  setattr NO_SERIALIZE (VList []) ;;
  for_each kwargs init_kwarg ;;
  setattr INIT_DONE (VBool true).

(** Construction of a [HyperParameters] from keyword arguments, with the
    objects of [h] around. *)
Definition new (h : list obj) (kwargs : odict value) : world * (unit + exn) :=
  init kwargs (mkWorld [] h []).

(** [hasattr(v, 'state_dict')] and the value [save] stores for [v]. *)
Definition has_sd (h : list obj) (v : value) : bool :=
  match v with
  | VRef l => match nth_error h l with
              | Some o => has_state_dict o
              | None => false
              end
  | _ => false
  end.

Definition serialized (h : list obj) (v : value) : value :=
  match v with
  | VRef l => match nth_error h l with
              | Some o => if has_state_dict o then state_dict o else v
              | None => v
              end
  | _ => v
  end.

(** The loop of [save] over [vars(self).items()]. *)
Fixpoint save_items (items : odict value) (state : odict value)
  : M (odict value) :=
  match items with
  | [] => ret state
  | (k, v) :: tl =>
      d <- get_attrs ;;
      match get NO_SERIALIZE d with
      | None => raise AttributeError
      | Some ns =>
          match contains k ns with
          | inr e => raise e
          | inl true => save_items tl state
          | inl false =>
              h <- get_heap ;;
              save_items tl (set k (serialized h v) state)
          end
      end
  end.

(** [HyperParameters.save]: the [state] handed to [torch.save]. *)
Definition save : M (odict value) :=
  d <- get_attrs ;; save_items d [].

(** [hasattr(current, 'load_state_dict')], with the object found. *)
Definition hooked (h : list obj) (current : value) : option (nat * obj) :=
  match current with
  | VRef l => match nth_error h l with
              | Some o => if has_load_state_dict o then Some (l, o) else None
              | None => None
              end
  | _ => None
  end.

(** [try: current.load_state_dict(v, strict=strict)
     except TypeError: current.load_state_dict(v)] *)
Definition call_load (l : nat) (o : obj) (v : value) (strict : bool) : M unit :=
  emit (CallLoadStateDict l v (Some strict)) ;;
  let '(o1, e1) := load_state_dict o v (Some strict) in
  put_obj l o1 ;;
  match e1 with
  | None => ret tt
  | Some TypeError =>
      emit (CallLoadStateDict l v None) ;;
      let '(o2, e2) := load_state_dict o1 v None in
      put_obj l o2 ;;
      match e2 with
      | None => ret tt
      | Some e => raise e
      end
  | Some e => raise e
  end.

(** The body of the loop of [load] over [state.items()]. *)
Definition load_item (strict : bool) (kv : string * value) : M unit :=
  let '(k, v) := kv in
  d <- get_attrs ;;
  if hasattr_self k d then
    match getattr_self k d with
    | Some current =>
        h <- get_heap ;;
        match hooked h current with
        | Some (l, o) => call_load l o v strict
        | None => setattr k v
        end
    | None => setattr k v
    end
  else setattr k v.

(** [HyperParameters.load]; [state] is what [torch.load] returned. *)
Definition load (filename : string) (state : odict value) (strict : bool)
  : M unit :=
  emit (Log INFO ("Loading state from file [" ++ filename ++ "]")%string) ;;
  for_each state (load_item strict).

(** The names on the no-serialize list. *)
Definition no_serialize (d : odict value) : list value :=
  match get NO_SERIALIZE d with
  | Some (VList l) => l
  | _ => []
  end.

Definition listed (k : string) (d : odict value) : bool :=
  existsb (fun e => match e with
                    | VStr s => String.eqb s k
                    | _ => false
                    end) (no_serialize d).

(** The [try]/[except TypeError] of [load] on the object alone: the object
    after the call(s) and the exception that leaves the [try], if any. *)
Definition protocol (o : obj) (v : value) (strict : bool) : obj * option exn :=
  let '(o1, e1) := load_state_dict o v (Some strict) in
  match e1 with
  | None => (o1, None)
  | Some TypeError => load_state_dict o1 v None
  | Some e => (o1, Some e)
  end.

(** The records of the calls [call_load] makes. *)
Definition calls (l : nat) (o : obj) (v : value) (strict : bool) : list event :=
  CallLoadStateDict l v (Some strict)
  :: match snd (load_state_dict o v (Some strict)) with
     | Some TypeError => [CallLoadStateDict l v None]
     | _ => []
     end.

(** The object [load] hands the saved value of key [k] to, with its heap
    location, when the attribute [k] holds an object with a
    [load_state_dict] method. *)
Definition receiver (d : odict value) (h : list obj) (k : string)
  : option (nat * obj) :=
  match get k d with
  | Some cur => hooked h cur
  | None => None
  end.

Definition target (d : odict value) (h : list obj) (k : string) : option nat :=
  match receiver d h k with
  | Some (l, _) => Some l
  | None => None
  end.

Definition targets (d : odict value) (h : list obj) (state : odict value)
  : list nat :=
  flat_map (fun kv => match target d h (fst kv) with
                      | Some l => [l]
                      | None => []
                      end) state.

(** An entry of a checkpoint the object can take: the hook of the
    attribute accepts the saved value, or the key is an attribute held in
    the instance dictionary (which excludes the three descriptor names,
    unless the dictionary was written to directly) or a name that can be
    stored as it is. *)
Definition accepts (d : odict value) (h : list obj) (strict : bool)
           (kv : string * value) : Prop :=
  match receiver d h (fst kv) with
  | Some (_, o) => snd (protocol o (snd kv) strict) = None
  | None =>
      (mem (fst kv) d = true /\ storable (fst kv) = true) \/
      plain_name (fst kv) = true
  end.

(** An entry of a checkpoint as [load] leaves it: handed to the hook of
    the object the attribute holds, or assigned to the attribute. *)
Definition restored (d : odict value) (h : list obj) (strict : bool)
           (d' : odict value) (h' : list obj) (kv : string * value) : Prop :=
  match receiver d h (fst kv) with
  | Some (l, o) =>
      get (fst kv) d' = get (fst kv) d /\
      nth_error h' l = Some (fst (protocol o (snd kv) strict))
  | None => get (fst kv) d' = Some (snd kv)
  end.

(** *** The passage through the file

    [torch.save(state, filename)] pickles the state, following its
    references into the heap of the writing process, and may raise;
    [torch.load(filename, 'cpu')] builds the state again in the reading
    process, where the objects of the file are new objects.  Both are
    library code and are taken as they are; [file] is what a written file
    holds. *)
Variable file : Type.
Variable torch_save : list obj -> odict value -> file + exn.
Variable torch_load : file -> list obj -> (list obj * odict value) + exn.

Definition put_heap (h : list obj) : M unit :=
  fun w => (mkWorld (attrs w) h (trace w), inl tt).

(** [HyperParameters.save] to its last line: the state is built, then
    written; the outcome of [torch.save] is the outcome of [save]. *)
Definition save_to : M file :=
  state <- save ;;
  h <- get_heap ;;
  fun w => (w, torch_save h state).

(** [HyperParameters.load] from the first line: the INFO record, then
    [torch.load], whose exception ends [load], then the loop over the state
    it returned. *)
Definition load_from (filename : string) (f : file) (strict : bool) : M unit :=
  emit (Log INFO ("Loading state from file [" ++ filename ++ "]")%string) ;;
  h <- get_heap ;;
  match torch_load f h with
  | inr e => raise e
  | inl (h', state) => put_heap h' ;; for_each state (load_item strict)
  end.

(** A value without references to objects: pickling copies it as it is. *)
Fixpoint refs_free (v : value) : bool :=
  match v with
  | VList l =>
      (fix all (l : list value) : bool :=
         match l with
         | [] => true
         | x :: tl => refs_free x && all tl
         end) l
  | VDict d =>
      (fix all (d : list (string * value)) : bool :=
         match d with
         | [] => true
         | (_, x) :: tl => refs_free x && all tl
         end) d
  | VRef _ => false
  | _ => true
  end.

(** [v'], in a process whose heap is [hl], is a copy of [v], in a process
    whose heap is [hs]: the same data, and where [v] refers to an object,
    [v'] refers to an equal object, at a location from [base] on. *)
Fixpoint copied (hs hl : list obj) (base : nat) (v v' : value) {struct v}
  : Prop :=
  match v, v' with
  | VNone, VNone => True
  | VBool b, VBool b' => b = b'
  | VInt z, VInt z' => z = z'
  | VStr s, VStr s' => s = s'
  | VList l, VList l' =>
      (fix all (l l' : list value) : Prop :=
         match l, l' with
         | [], [] => True
         | x :: tl, x' :: tl' => copied hs hl base x x' /\ all tl tl'
         | _, _ => False
         end) l l'
  | VDict d, VDict d' =>
      (fix all (d d' : list (string * value)) : Prop :=
         match d, d' with
         | [], [] => True
         | (k, x) :: tl, (k', x') :: tl' =>
             k = k' /\ copied hs hl base x x' /\ all tl tl'
         | _, _ => False
         end) d d'
  | VFunc n, VFunc n' => n = n'
  | VRef l, VRef l' =>
      base <= l' /\
      exists o, nth_error hs l = Some o /\ nth_error hl l' = Some o
  | _, _ => False
  end.

(** What pickling promises of a state written from the heap [hs] and read
    back into a process whose heap was [hl]: the objects of the reader are
    still there, the new ones come after them, and the state read has the
    keys of the state written, each with a copy of its value. *)
Definition unpickled (hs : list obj) (state : odict value)
           (hl hl' : list obj) (state' : odict value) : Prop :=
  (exists new, hl' = hl ++ new) /\
  keys state' = keys state /\
  forall k v,
    get k state = Some v ->
    exists v', get k state' = Some v' /\ copied hs hl' (length hl) v v'.

End Hooks.

(** Induction on values, the elements of lists and dictionaries being
    covered. *)
Section ValueInduction.

Variable P : value -> Prop.
Hypothesis HNone : P VNone.
Hypothesis HBool : forall b, P (VBool b).
Hypothesis HInt : forall z, P (VInt z).
Hypothesis HStr : forall s, P (VStr s).
Hypothesis HList : forall l, Forall P l -> P (VList l).
Hypothesis HDict : forall d, Forall (fun kv => P (snd kv)) d -> P (VDict d).
Hypothesis HFunc : forall n, P (VFunc n).
Hypothesis HRef : forall l, P (VRef l).

Fixpoint value_ind_nested (v : value) : P v :=
  match v with
  | VNone => HNone
  | VBool b => HBool b
  | VInt z => HInt z
  | VStr s => HStr s
  | VList l =>
      HList
        ((fix all (l : list value) : Forall P l :=
            match l with
            | [] => Forall_nil _
            | x :: tl => Forall_cons x (value_ind_nested x) (all tl)
            end) l)
  | VDict d =>
      HDict
        ((fix all (d : list (string * value))
          : Forall (fun kv => P (snd kv)) d :=
            match d with
            | [] => Forall_nil _
            | kv :: tl =>
                Forall_cons kv
                  (match kv as p return P (snd p) with
                   | (_, x) => value_ind_nested x
                   end)
                  (all tl)
            end) d)
  | VFunc n => HFunc n
  | VRef l => HRef l
  end.

End ValueInduction.

(** *** A concrete family of objects

    An object keeps a state; [state_dict] returns it and [load_state_dict]
    replaces it.  [accepts_strict] tells whether [load_state_dict] takes
    the [strict] keyword (PyTorch modules do, optimizers do not). *)
Record pyobject : Type := mkObj {
  with_state_dict : bool;
  with_load_state_dict : bool;
  accepts_strict : bool;
  content : value
}.

Definition py_load_state_dict (o : pyobject) (v : value) (strict : option bool)
  : pyobject * option exn :=
  match strict with
  | Some _ =>
      if accepts_strict o
      then (mkObj (with_state_dict o) (with_load_state_dict o) true v, None)
      else (o, Some TypeError)
  | None =>
      (mkObj (with_state_dict o) (with_load_state_dict o) (accepts_strict o) v,
       None)
  end.

Definition py_new := new (obj := pyobject).
Definition py_setattr := setattr (obj := pyobject).
Definition py_save := save with_state_dict content.
Definition py_load := load with_load_state_dict py_load_state_dict.


(** A stand-in for the file passage, for states that hold no reference to
    an object: the file holds the state and reading gives it back. *)
Definition py_torch_save (h : list pyobject) (state : odict value)
  : odict value + exn :=
  if forallb (fun kv => refs_free (snd kv)) state then inl state
  else inr TypeError.

Definition py_torch_load (f : odict value) (h : list pyobject)
  : (list pyobject * odict value) + exn :=
  inl (h, f).

Definition py_save_to := save_to with_state_dict content py_torch_save.
Definition py_load_from :=
  load_from with_load_state_dict py_load_state_dict py_torch_load.

(** A training script's objects: a network, whose [load_state_dict] takes
    [strict], and an optimizer, whose [load_state_dict] does not. *)
Definition network (c : value) : pyobject := mkObj true true true c.
Definition optimizer (c : value) : pyobject := mkObj true true false c.

Definition training_kwargs (lr : Z) : odict value :=
  [("network", VRef 0); ("optimizer", VRef 1); ("lr", VInt lr);
   ("_device", VStr "cuda")].

Definition heap_at_save : list pyobject := [network (VInt 7); optimizer (VInt 9)].
Definition heap_at_load : list pyobject := [network (VInt 0); optimizer (VInt 0)].

(** The container when the checkpoint is written, and a new one in the
    session that resumes. *)
Definition at_save : world pyobject := fst (py_new heap_at_save (training_kwargs 3)).
Definition at_load : world pyobject := fst (py_new heap_at_load (training_kwargs 1)).

Definition checkpoint : odict value :=
  [("batch", VInt 0); ("epoch", VInt 0);
   (NO_SERIALIZE, VList [VStr "device"]);
   ("network", VInt 7); ("optimizer", VInt 9); ("lr", VInt 3);
   (INIT_DONE, VBool true)].


(** A container built with the keyword arguments [__y] and [y]. *)
Definition both_names : world pyobject :=
  fst (py_new [] [("__y", VInt 1); ("y", VInt 2)]).



End Params.

(* --------------------------------------------------------------------- *)
(** ** More of [Lightnet]: what [save] writes, the layer loops *)
(* --------------------------------------------------------------------- *)

Module RemapMore.
Import OD Remap.

Section Renamings.

Variables pattern repl tensor : Type.
Variable re_match : pattern -> string -> bool.
Variable re_sub : pattern -> repl -> string -> string.

(** The assignments [weights[re.sub(r[0], r[1], k)] = v] the two loops of
    [save] perform, in order. *)
Definition renamings (state_dict : odict tensor) (rules : list (rule pattern repl))
  : list (string * tensor) :=
  flat_map (fun kv =>
              match first_rule re_match rules (fst kv) with
              | Some r => [(re_sub (fst r) (snd r) (fst kv), snd kv)]
              | None => []
              end) state_dict.

(** One assignment [weights[name] = v]. *)
Definition assign (a : odict tensor) (kv : string * tensor) : odict tensor :=
  set (fst kv) (snd kv) a.

End Renamings.

End RemapMore.

Module Layers.

(** A module tree as [named_children()] shows it.  [Sequential] and
    [ModuleList] are the two containers the loops look into; [Layer] is any
    other [nn.Module], whatever children it has.  [id] tells modules apart. *)
Inductive kind : Type := Sequential | ModuleList | Layer.

Inductive module : Type :=
| Node (k : kind) (id : nat) (children : list (string * module)).

Definition kind_of (m : module) : kind :=
  match m with Node k _ _ => k end.

Definition named_children (m : module) : list (string * module) :=
  match m with Node _ _ cs => cs end.

(** [isinstance(module, (nn.ModuleList, nn.Sequential))] *)
Definition is_container (m : module) : bool :=
  match kind_of m with
  | Sequential | ModuleList => true
  | Layer => false
  end.

(** [Lightnet.layer_loop(mod)]: the layers in the order they are yielded. *)
Fixpoint layer_loop (mod_ : module) : list module :=
  match mod_ with
  | Node _ _ cs =>
      (fix loop (l : list (string * module)) : list module :=
         match l with
         | [] => []
         | (_, c) :: tl =>
             (if is_container c then layer_loop c else [c]) ++ loop tl
         end) cs
  end.

(** [Lightnet.named_layer_loop(mod)] *)
Fixpoint named_layer_loop (mod_ : module) : list (string * module) :=
  match mod_ with
  | Node _ _ cs =>
      (fix loop (l : list (string * module)) : list (string * module) :=
         match l with
         | [] => []
         | (name, c) :: tl =>
             (if is_container c then named_layer_loop c else [(name, c)])
               ++ loop tl
         end) cs
  end.

(** Induction on module trees, the children being covered. *)
Fixpoint module_tree_ind (P : module -> Prop)
         (step : forall k id cs,
             Forall (fun nc => P (snd nc)) cs -> P (Node k id cs))
         (m : module) : P m :=
  match m with
  | Node k id cs =>
      step k id cs
        ((fix all (l : list (string * module))
          : Forall (fun nc => P (snd nc)) l :=
            match l with
            | [] => Forall_nil _
            | nc :: tl =>
                Forall_cons nc
                  (match nc as p return P (snd p) with
                   | (_, c) => module_tree_ind P step c
                   end)
                  (all tl)
            end) cs)
  end.

(** A network in the style of [Yolt]: [layers] is a [ModuleList] of two
    [Sequential]s; a [Layer] with a [Sequential] inside stands for
    [Conv2dBatchReLU]. *)
Definition conv_batch (id : nat) : module :=
  Node Layer id [("layers", Node Sequential (100 + id) [("0", Node Layer (200 + id) [])])].

Definition small_net : module :=
  Node Layer 0
    [("layers",
      Node ModuleList 1
        [("0", Node Sequential 2 [("1_convbatch", conv_batch 3);
                                  ("2_max", Node Layer 4 [])]);
         ("1", Node Sequential 5 [("1_convbatch", conv_batch 6)])])].

End Layers.

(* --------------------------------------------------------------------- *)
(** ** [Compose.__call__] and pipelines of multi-transforms *)
(* --------------------------------------------------------------------- *)

Module Pipeline.

Section Call.

(** A transform takes the data and returns new data or raises; [E] are the
    records of what it did meanwhile. *)
Variables A E : Type.

Definition callable : Type := A -> list E * (A + exn).

(** [Compose.__call__]: [for tf in self: data = tf(data)]. *)
Fixpoint call (self : list callable) (data : A) : list E * (A + exn) :=
  match self with
  | [] => ([], inl data)
  | tf :: rest =>
      match tf data with
      | (ev, inl data') =>
          let '(ev', r) := call rest data' in (ev ++ ev', r)
      | (ev, inr e) => (ev, inr e)
      end
  end.

End Call.

Section Multi.

Variables anno pil cv other : Type.

(** The three overrides of one [BaseMultiTransform] subclass instance. *)
Record multi_transform : Type := mkMulti {
  tf_anno : Transform.data anno pil cv other -> Transform.data anno pil cv other;
  tf_pil : Transform.data anno pil cv other -> Transform.data anno pil cv other;
  tf_cv : Transform.data anno pil cv other -> Transform.data anno pil cv other
}.

(** An instance used as an entry of a [Compose]. *)
Definition as_callable (pd_available : bool) (t : multi_transform)
  : callable (Transform.data anno pil cv other) (Transform.event anno pil cv other) :=
  fun d =>
    let '(r, ev) := Transform.call (tf_anno t) (tf_pil t) (tf_cv t) pd_available d in
    (ev, inl r).

End Multi.

(** The transforms of the docstring of [Compose]. *)
Definition plus_one : callable Z unit := fun n => ([], inl (n + 1)%Z).
Definition times_two : callable Z unit := fun n => ([], inl (n * 2)%Z).
Definition halve : callable Z unit := fun n => ([], inl (n / 2)%Z).
Definition failing : callable Z unit := fun n => ([tt], inr RuntimeError).

End Pipeline.

(* --------------------------------------------------------------------- *)
(** ** [DataLoader.__init__] and the fetching of a mini-batch *)
(* --------------------------------------------------------------------- *)

Module Loader.
Import OD.

Section Init.

(** Python values passed to the constructor. *)
Variable object : Type.

Inductive pv : Type :=
| PNone
| PBool (b : bool)
| PObj (o : object).

(** The truth value of an object ([__bool__] / [__len__]). *)
Variable object_truth : object -> bool.

Definition truthy (v : pv) : bool :=
  match v with
  | PNone => false
  | PBool b => b
  | PObj o => object_truth o
  end.

Definition is_none (v : pv) : bool :=
  match v with PNone => true | _ => false end.

(** [args[i]] (only used below the length) and
    [kwargs[name] if name in kwargs else default]. *)
Definition arg (args : list pv) (i : nat) : pv := nth i args PNone.

Definition kwarg (name : string) (kwargs : odict pv) (default : pv) : pv :=
  match get name kwargs with
  | Some v => v
  | None => default
  end.

(** The [shuffle], [sampler] and [batch_sampler] the constructor picks from
    its arguments. *)
Definition recognised (args : list pv) (kwargs : odict pv) : pv * pv * pv :=
  if (5 <? length args)%nat then
    (arg args 2, arg args 3, arg args 4)
  else if (4 <? length args)%nat then
    (arg args 2, arg args 3, kwarg "batch_sampler" kwargs PNone)
  else if (3 <? length args)%nat then
    (arg args 2, kwarg "sampler" kwargs PNone,
     kwarg "batch_sampler" kwargs PNone)
  else
    (kwarg "shuffle" kwargs (PBool false), kwarg "sampler" kwargs PNone,
     kwarg "batch_sampler" kwargs PNone).

Inductive sampler_value : Type :=
| GivenSampler (v : pv)
| RandomSampler
| SequentialSampler.

(** [super().__init__], the constructor of torch's [DataLoader], called
    with the arguments of the call: the exception it raises, or what it
    leaves in [self.dataset], [self.batch_size] and [self.drop_last] (not
    always the values passed: with a batch sampler among the arguments
    torch resets the last two).  Library code, taken as it is. *)
Variable torch_init : list pv -> odict pv -> (pv * pv * pv) + exn.

(** [dataset.input_dim]: the property of a lightnet [Dataset], or the
    exception of the attribute access on anything else. *)
Variable dataset_input_dim : pv -> Sampler.dim + exn.

(** [RandomSampler(self.dataset)] ([random] true) and
    [SequentialSampler(self.dataset)] of torch: the exception raised, if
    any. *)
Variable torch_sampler_init : bool -> option exn.

(** [super().__init__(sampler, batch_size, drop_last)] in the constructor
    of [BatchSampler], torch's own check of the three arguments: the
    exception raised, if any. *)
Variable torch_batch_sampler_init : sampler_value -> pv -> pv -> option exn.

(** [BatchSampler(sampler, self.batch_size, self.drop_last,
    input_dimension=self.dataset.input_dim)], or the one that was passed. *)
Inductive batch_sampler_value : Type :=
| GivenBatchSampler (v : pv)
| LightnetBatchSampler (sampler : sampler_value) (batch_size drop_last : pv)
                       (state : Sampler.state).

(** [DataLoader.__init__]: the exception that ends it, or the [sampler] and
    the [batch_sampler] it installs.  ([self.__initialized] is switched off
    before the two assignments, so that torch's [__setattr__] lets them
    through.)  The arguments of [BatchSampler(...)] are evaluated before
    the call, [self.dataset.input_dim] last. *)
Definition init (args : list pv) (kwargs : odict pv)
  : (sampler_value * batch_sampler_value) + exn :=
  match torch_init args kwargs with
  | inr e => inr e
  | inl (dataset, batch_size, drop_last) =>
      let '(shuffle, sampler, batch_sampler) := recognised args kwargs in
      if is_none batch_sampler then
        let made :=
          if is_none sampler then
            match torch_sampler_init (truthy shuffle) with
            | Some e => inr e
            | None =>
                inl (if truthy shuffle then RandomSampler
                     else SequentialSampler)
            end
          else inl (GivenSampler sampler) in
        match made with
        | inr e => inr e
        | inl sampler' =>
            match dataset_input_dim dataset with
            | inr e => inr e
            | inl input_dimension =>
                match torch_batch_sampler_init sampler' batch_size drop_last with
                | Some e => inr e
                | None =>
                    inl (sampler',
                         LightnetBatchSampler sampler' batch_size drop_last
                                              (Sampler.init input_dimension))
                end
            end
        end
      else inl (GivenSampler sampler, GivenBatchSampler batch_sampler)
  end.

End Init.

Section Fetch.

Variables U R : Type.
Variable getitem_fn : Dataset.dataset U -> Z -> Dataset.dataset U * (R + exn).

(** The data loader's [[self.dataset[idx] for idx in batch]] over the
    wrapped [__getitem__]. *)
Fixpoint fetch (self : Dataset.dataset U) (batch : list Dataset.index)
  : Dataset.dataset U * (list R + exn) :=
  match batch with
  | [] => (self, inl [])
  | idx :: tl =>
      match Dataset.wrapper getitem_fn self idx with
      | (self1, inr e) => (self1, inr e)
      | (self1, inl r) =>
          match fetch self1 tl with
          | (self2, inl rs) => (self2, inl (r :: rs))
          | (self2, inr e) => (self2, inr e)
          end
      end
  end.

End Fetch.

(** A [(dim, idx)] pair of the batch sampler as an index of the dataset. *)
Definition to_index (p : Sampler.dim * nat) : Dataset.index :=
  Dataset.IPair (fst p) (Z.of_nat (snd p)).

(** The resolution an index asks for ([default] for an int) and the
    position it names. *)
Definition asked_dim (default : Dataset.dim) (idx : Dataset.index)
  : Dataset.dim :=
  match idx with
  | Dataset.IPair d _ => d
  | Dataset.IInt _ => default
  end.

Definition position (idx : Dataset.index) : Z :=
  match idx with
  | Dataset.IPair _ i => i
  | Dataset.IInt i => i
  end.

(** Stand-ins for torch's constructors, for calls whose arguments torch
    accepts and that pass no batch sampler: [self.dataset] and
    [self.batch_size] are the first two positional arguments,
    [self.drop_last] is false, nothing raises; the dataset has been built
    with (200, 200). *)
Definition accepting_torch_init (args : list (pv nat)) (kwargs : odict (pv nat))
  : (pv nat * pv nat * pv nat) + exn :=
  inl (arg args 0, arg args 1, PBool nat false).

Definition built_with_200 (dataset : pv nat) : Sampler.dim + exn :=
  match dataset with
  | PObj _ => inl (Dataset.input_dim (Dataset.init [200; 200; 3]%Z tt))
  | _ => inr AttributeError
  end.

Definition accepting_sampler_init (random : bool) : option exn := None.

Definition accepting_batch_sampler_init (sampler : sampler_value nat)
           (batch_size drop_last : pv nat) : option exn := None.

(** A [__getitem__] that fails on negative indices and returns
    [self.input_dim] otherwise. *)
Definition checked_getitem (self : Dataset.dataset unit) (i : Z)
  : Dataset.dataset unit * (Dataset.dim + exn) :=
  if (i <? 0)%Z then (self, inr IndexError)
  else (self, inl (Dataset.input_dim self)).

End Loader.

(* --------------------------------------------------------------------- *)
(** ** More of [HyperParameters]: [__repr__] *)
(* --------------------------------------------------------------------- *)

Module ParamsMore.
Import OD Params.

(** A finished container: [__init__] is over, the attribute dictionary is
    a dictionary and the no-serialize list is a list. *)
Definition finished (d : odict value) : Prop :=
  truthy (init_done d) = true /\
  NoDup (keys d) /\
  exists ns, get NO_SERIALIZE d = Some (VList ns).

Definition PRIVATE : string := "_HyperParameters__".

(** [sorted(...)] on strings: insertion by code points. *)
Fixpoint insert_sorted (k : string) (l : list string) : list string :=
  match l with
  | [] => [k]
  | x :: tl => if String.leb k x then k :: l else x :: insert_sorted k tl
  end.

Definition sorted (l : list string) : list string :=
  fold_right insert_sorted [] l.

Definition newline : string := String (ascii_of_nat 10) EmptyString.

Section Repr.

(** [str(val)] and [val.__class__.__name__] *)
Variable str_of : value -> string.
Variable class_name : value -> string.

(** One entry of the listing: the name shown (with its asterisk) and the
    text after the equals sign. *)
Definition shown (k : string) (starred : bool) : string :=
  if starred then (k ++ "*")%string else k.

Definition valrepr (val : value) : string :=
  match index 0 newline (str_of val) with
  | Some _ => class_name val
  | None => str_of val
  end.

(** The loop of [__repr__] over [sorted(self.__dict__.keys())]: the entries
    listed, or the exception of [k in self.__no_serialize].  The names come
    from the dictionary itself, so the lookup [self.__dict__[k]] finds them;
    its failing branch is only there to make the function total. *)
Fixpoint repr_entries (d : odict value) (ks : list string)
  : list (string * bool * string) + exn :=
  match ks with
  | [] => inl []
  | k :: tl =>
      if String.prefix PRIVATE k then repr_entries d tl
      else
        match get k d with
        | None => inr AttributeError
        | Some val =>
            match get NO_SERIALIZE d with
            | None => inr AttributeError
            | Some ns =>
                match contains k ns with
                | inr e => inr e
                | inl starred =>
                    match repr_entries d tl with
                    | inl rest => inl ((k, starred, valrepr val) :: rest)
                    | inr e => inr e
                    end
                end
            end
        end
  end.

Definition render (cls : string) (entries : list (string * bool * string))
  : string :=
  ((cls ++ "(")
   ++ String.concat "" (map (fun e =>
                        newline ++ "  " ++ shown (fst (fst e)) (snd (fst e))
                        ++ " = " ++ snd e) entries)
   ++ newline ++ ")")%string.

(** [HyperParameters.__repr__] *)
Definition repr (cls : string) (d : odict value) : string + exn :=
  match repr_entries d (sorted (keys d)) with
  | inl entries => inl (render cls entries)
  | inr e => inr e
  end.

End Repr.

(** [str] and the class name for the values of the examples. *)
Definition show (v : value) : string :=
  match v with
  | VNone => "None"
  | VBool true => "True"
  | VBool false => "False"
  | VInt z => if (z =? 3)%Z then "3" else if (z =? 0)%Z then "0" else "int"
  | VStr s => s
  | VList _ => "[...]"
  | VDict _ => "{...}"
  | VFunc n => n
  | VRef _ => ("Module(" ++ newline ++ ")")%string
  end.

Definition show_class (v : value) : string :=
  match v with
  | VRef _ => "Module"
  | _ => "object"
  end.

(** A checkpoint with a key the object cannot store: [_lr] while [lr]
    exists. *)
Definition clashing_checkpoint : odict value :=
  [("epoch", VInt 4); ("_lr", VInt 1); ("batch", VInt 99)].


End ParamsMore.

(* ===================================================================== *)
(** * Part II: properties *)
(* ===================================================================== *)

(** ** Dictionaries *)

Module ODFacts.
Import OD.

Lemma eqb_sym_false (a b : string) : String.eqb a b = false -> String.eqb b a = false.
Proof. rewrite (String.eqb_sym b a). auto. Qed.

Lemma get_set_same {V} k (v : V) d : get k (set k v d) = Some v.
Proof.
  induction d as [|[k' v'] tl IH]; simpl.
  - now rewrite String.eqb_refl.
  - destruct (String.eqb k k') eqn:E; simpl; rewrite E; auto.
Qed.

Lemma get_set_other {V} k k' (v : V) d :
  k <> k' -> get k' (set k v d) = get k' d.
Proof.
  intros Hne. induction d as [|[k0 v0] tl IH]; simpl.
  - destruct (String.eqb k' k) eqn:E; auto.
    apply String.eqb_eq in E. congruence.
  - destruct (String.eqb k k0) eqn:E; simpl.
    + apply String.eqb_eq in E; subst k0.
      destruct (String.eqb k' k) eqn:E'; auto.
      apply String.eqb_eq in E'. congruence.
    + now rewrite IH.
Qed.

Lemma get_set {V} k k' (v : V) d :
  get k' (set k v d) = if String.eqb k k' then Some v else get k' d.
Proof.
  destruct (String.eqb k k') eqn:E.
  - apply String.eqb_eq in E; subst. apply get_set_same.
  - apply String.eqb_neq in E. now apply get_set_other.
Qed.

Lemma mem_set {V} k k' (v : V) d :
  mem k' (set k v d) = String.eqb k k' || mem k' d.
Proof. unfold mem. rewrite get_set. destruct (String.eqb k k'); auto. Qed.

Lemma in_set_inv {V} k (v : V) d k' v' :
  In (k', v') (set k v d) -> (k' = k /\ v' = v) \/ In (k', v') d.
Proof.
  induction d as [|[k0 v0] tl IH]; simpl.
  - intros [H|[]]. inversion H; auto.
  - destruct (String.eqb k k0) eqn:E; simpl.
    + apply String.eqb_eq in E; subst k0.
      intros [H|H]; [inversion H; auto | auto].
    + intros [H|H]; auto. destruct (IH H); auto.
Qed.

Lemma get_in {V} k (v : V) d : get k d = Some v -> In (k, v) d.
Proof.
  induction d as [|[k0 v0] tl IH]; simpl; [discriminate|].
  destruct (String.eqb k k0) eqn:E.
  - apply String.eqb_eq in E; subst. intros H; inversion H; auto.
  - auto.
Qed.

Lemma in_keys_spec k ks : in_keys k ks = true <-> In k ks.
Proof.
  unfold in_keys. rewrite existsb_exists. split.
  - intros (x & Hin & E). apply String.eqb_eq in E. now subst.
  - intros H. exists k. split; auto. apply String.eqb_refl.
Qed.

Lemma mem_in_keys {V} k (d : odict V) : mem k d = true <-> In k (keys d).
Proof.
  unfold mem, keys. induction d as [|[k0 v0] tl IH]; simpl.
  - split; [discriminate | tauto].
  - destruct (String.eqb k k0) eqn:E.
    + apply String.eqb_eq in E; subst. tauto.
    + apply String.eqb_neq in E. rewrite IH. split; auto.
      intros [H|H]; [congruence | auto].
Qed.

Lemma get_none_not_in {V} k (d : odict V) : get k d = None <-> ~ In k (keys d).
Proof.
  rewrite <- mem_in_keys. unfold mem.
  destruct (get k d); split; intros H; congruence.
Qed.

Lemma keys_set {V} k (v : V) d :
  keys (set k v d) = if mem k d then keys d else keys d ++ [k].
Proof.
  unfold mem, keys. induction d as [|[k0 v0] tl IH]; simpl; [reflexivity|].
  destruct (String.eqb k k0) eqn:E; simpl; [reflexivity|].
  rewrite IH. destruct (get k tl); reflexivity.
Qed.

Lemma set_nodup {V} k (v : V) d : NoDup (keys d) -> NoDup (keys (set k v d)).
Proof.
  intros H. rewrite keys_set. destruct (mem k d) eqn:E; [exact H|].
  apply NoDup_app; [exact H | repeat constructor; intros [] |].
  intros a Ha [<-|[]].
  apply mem_in_keys in Ha. congruence.
Qed.

Lemma in_get {V} k (v : V) d : NoDup (keys d) -> In (k, v) d -> get k d = Some v.
Proof.
  induction d as [|[k0 v0] tl IH]; simpl; [intros _ []|].
  intros Hnd [H|H].
  - inversion H; subst. now rewrite String.eqb_refl.
  - inversion Hnd as [|? ? Hk0 Htl]; subst.
    destruct (String.eqb k k0) eqn:E.
    + apply String.eqb_eq in E; subst. exfalso. apply Hk0.
      change k0 with (fst (k0, v)). now apply in_map.
    + now apply IH.
Qed.

Lemma mem_keys_false {V} k (d : odict V) : mem k d = false <-> ~ In k (keys d).
Proof.
  rewrite <- mem_in_keys. destruct (mem k d); split; congruence.
Qed.

End ODFacts.

(* --------------------------------------------------------------------- *)
(** ** Weight export *)
(* --------------------------------------------------------------------- *)

Module RemapFacts.
Import OD ODFacts Remap.

Section SaveFacts.

Variables pattern repl tensor : Type.
Variable re_match : pattern -> string -> bool.
Variable re_sub : pattern -> repl -> string -> string.

Lemma remap_key_first (rules : list (rule pattern repl)) k (v : tensor) w :
  remap_key re_match re_sub rules k v w =
  match first_rule re_match rules k with
  | Some r => set (re_sub (fst r) (snd r) k) v w
  | None => w
  end.
Proof.
  unfold first_rule.
  induction rules as [|r rest IH]; simpl; auto.
  destruct (re_match (fst r) k); auto.
Qed.

Lemma first_rule_split (pre post : list (rule pattern repl)) p r k :
  forallb (fun q => negb (re_match (fst q) k)) pre = true ->
  re_match p k = true ->
  first_rule re_match (pre ++ (p, r) :: post) k = Some (p, r).
Proof.
  unfold first_rule.
  induction pre as [|q pre IH]; simpl; intros Hpre Hp.
  - now rewrite Hp.
  - apply andb_true_iff in Hpre as [Hq Hpre].
    apply negb_true_iff in Hq. rewrite Hq. auto.
Qed.

Lemma remap_items_app (s1 s2 : odict tensor) (rules : list (rule pattern repl)) w :
  remap_items re_match re_sub (s1 ++ s2) rules w = remap_items re_match re_sub s2 rules (remap_items re_match re_sub s1 rules w).
Proof.
  revert w. induction s1 as [|[k v] tl IH]; simpl; auto.
Qed.

Lemma remap_items_mem_mono (items : odict tensor) (rules : list (rule pattern repl)) w k :
  mem k w = true -> mem k (remap_items re_match re_sub items rules w) = true.
Proof.
  revert w. induction items as [|[k0 v0] tl IH]; simpl; auto.
  intros w H. apply IH. rewrite remap_key_first.
  destruct (first_rule re_match rules k0); auto.
  rewrite mem_set, H. apply orb_true_r.
Qed.

Lemma remap_items_origin (items : odict tensor) (rules : list (rule pattern repl)) w k' v' :
  In (k', v') (remap_items re_match re_sub items rules w) ->
  In (k', v') w \/
  exists k r, In (k, v') items /\ first_rule re_match rules k = Some r /\ k' = re_sub (fst r) (snd r) k.
Proof.
  revert w. induction items as [|[k0 v0] tl IH]; simpl; auto.
  intros w H. apply IH in H as [H|(k & r & Hin & Hr & Hk)].
  - rewrite remap_key_first in H.
    destruct (first_rule re_match rules k0) as [r|] eqn:Hr; auto.
    apply in_set_inv in H as [[-> ->]|H]; auto.
    right. exists k0, r. auto.
  - right. exists k, r. auto.
Qed.

(** Entries renamed to other names leave the value under [k'] alone. *)
Lemma remap_items_get_frame (items : odict tensor) (rules : list (rule pattern repl)) w k' :
  (forall k2 v2 r2, In (k2, v2) items -> first_rule re_match rules k2 = Some r2 ->
                    re_sub (fst r2) (snd r2) k2 <> k') ->
  get k' (remap_items re_match re_sub items rules w) = get k' w.
Proof.
  revert w. induction items as [|[k0 v0] tl IH]; simpl; auto.
  intros w Hfr. rewrite IH by (intros; eapply Hfr; eauto).
  rewrite remap_key_first.
  destruct (first_rule re_match rules k0) as [r|] eqn:Hr; auto.
  apply get_set_other. eapply Hfr; eauto.
Qed.

(** C1. [Lightnet.save] with a remap list: a key is renamed by the first
    rule of the list whose pattern matches it, whatever rules follow
    ([remap_key] stops there); the renamed key is in the saved weights, with
    the key's tensor unless a later key is renamed to the same name; a key no
    rule matches contributes nothing; and every saved entry is the renaming
    of an entry of the state dictionary by its first matching rule. *)
Theorem save_remap_first_match_wins (state_dict : odict tensor) (rules : list (rule pattern repl)) :
  (forall k (v : tensor) pre p r post w,
      rules = pre ++ (p, r) :: post ->
      forallb (fun q => negb (re_match (fst q) k)) pre = true ->
      re_match p k = true ->
      first_rule re_match rules k = Some (p, r) /\
      remap_key re_match re_sub rules k v w = set (re_sub p r k) v w) /\
  (forall s1 k v s2 r,
      state_dict = s1 ++ (k, v) :: s2 ->
      first_rule re_match rules k = Some r ->
      mem (re_sub (fst r) (snd r) k) (saved_weights re_match re_sub state_dict rules) = true /\
      ((forall k2 v2 r2, In (k2, v2) s2 -> first_rule re_match rules k2 = Some r2 ->
                         re_sub (fst r2) (snd r2) k2 <> re_sub (fst r) (snd r) k) ->
       get (re_sub (fst r) (snd r) k) (saved_weights re_match re_sub state_dict rules) = Some v)) /\
  (forall s1 k v s2,
      state_dict = s1 ++ (k, v) :: s2 ->
      first_rule re_match rules k = None ->
      saved_weights re_match re_sub state_dict rules = saved_weights re_match re_sub (s1 ++ s2) rules) /\
  (forall k' v',
      In (k', v') (saved_weights re_match re_sub state_dict rules) ->
      exists k r, In (k, v') state_dict /\ first_rule re_match rules k = Some r /\
                  k' = re_sub (fst r) (snd r) k).
Proof.
  unfold saved_weights, save; cbn [fst].
  split; [|split; [|split]].
  - intros k v pre p r post w -> Hpre Hp.
    pose proof (@first_rule_split pre post p r k Hpre Hp) as Hf.
    split; [exact Hf|]. rewrite remap_key_first. unfold rule in *. rewrite Hf. reflexivity.
  - intros s1 k v s2 r -> Hr.
    rewrite remap_items_app. cbn [remap_items].
    rewrite remap_key_first, Hr. split.
    + apply remap_items_mem_mono. rewrite mem_set, String.eqb_refl. reflexivity.
    + intros Hfr. rewrite remap_items_get_frame by exact Hfr.
      apply get_set_same.
  - intros s1 k v s2 -> Hnone.
    rewrite !remap_items_app. cbn [remap_items].
    rewrite remap_key_first, Hnone. reflexivity.
  - intros k' v' Hin.
    apply remap_items_origin in Hin as [[]|H]. exact H.
Qed.

End SaveFacts.

Example save_first_match :
  saved_weights lit_match lit_sub
    [("layers.0.weight", 1%Z); ("layers.1.weight", 2%Z); ("head.bias", 3%Z)]
    [("layers.0", "backbone.0"); ("layers", "extra"); ("", "")]
  = [("backbone.0.weight", 1%Z); ("extra.1.weight", 2%Z); ("head.bias", 3%Z)].
Proof. reflexivity. Qed.

Example save_drops_unmatched :
  saved_weights lit_match lit_sub
    [("layers.0.weight", 1%Z); ("head.bias", 3%Z)] [("layers", "l")]
  = [("l.0.weight", 1%Z)].
Proof. reflexivity. Qed.

Example save_without_remap :
  save lit_match lit_sub [("a", 1%Z)] None = ([("a", 1%Z)], "").
Proof. reflexivity. Qed.

(** Two keys renamed to one name: the later tensor is the one saved. *)
Example save_collision :
  saved_weights lit_match lit_sub
    [("a.w", 1%Z); ("b.w", 2%Z)] [("a", "c"); ("b", "c")]
  = [("c.w", 2%Z)].
Proof. reflexivity. Qed.

(** The theorem at the state dictionary and rules of [save_first_match]. *)
Lemma save_remap_first_match_wins_witness :
  first_rule lit_match
    [("layers.0", "backbone.0"); ("layers", "extra"); ("", "")] "layers.1.weight"
  = Some ("layers", "extra") /\
  get "extra.1.weight"
    (saved_weights lit_match lit_sub
       [("layers.0.weight", 1%Z); ("layers.1.weight", 2%Z); ("head.bias", 3%Z)]
       [("layers.0", "backbone.0"); ("layers", "extra"); ("", "")])
  = Some 2%Z /\
  saved_weights lit_match lit_sub
    [("layers.0.weight", 1%Z); ("head.bias", 3%Z)] [("layers", "l")]
  = saved_weights lit_match lit_sub [("layers.0.weight", 1%Z)] [("layers", "l")].
Proof.
  destruct (save_remap_first_match_wins lit_match lit_sub
              [("layers.0.weight", 1%Z); ("layers.1.weight", 2%Z); ("head.bias", 3%Z)]
              [("layers.0", "backbone.0"); ("layers", "extra"); ("", "")])
    as [Hfirst [Hsaved _]].
  destruct (save_remap_first_match_wins lit_match lit_sub
              [("layers.0.weight", 1%Z); ("head.bias", 3%Z)] [("layers", "l")])
    as [_ [_ [Hdrop _]]].
  split; [|split].
  - apply (Hfirst "layers.1.weight" 2%Z [("layers.0", "backbone.0")]
             "layers" "extra" [("", "")] []); reflexivity.
  - apply (Hsaved [("layers.0.weight", 1%Z)] "layers.1.weight" 2%Z
             [("head.bias", 3%Z)] ("layers", "extra") eq_refl eq_refl).
    intros k2 v2 r2 [H|[]] Hr. inversion H; subst.
    vm_compute in Hr. inversion Hr; subst. vm_compute. discriminate.
  - apply (Hdrop [("layers.0.weight", 1%Z)] "head.bias" 3%Z [] eq_refl eq_refl).
Defined.

End RemapFacts.

(* --------------------------------------------------------------------- *)
(** ** Transform dispatch *)
(* --------------------------------------------------------------------- *)

Module TransformFacts.
Import Transform.

Section DispatchFacts.

Variables anno pil cv other : Type.
Variables _tf_anno _tf_pil _tf_cv :
  data anno pil cv other -> data anno pil cv other.

(** The four tests of [__call__] exclude each other. *)
Lemma kinds_exclusive (d : data anno pil cv other) :
  is_none d = true ->
  is_dataframe d = false /\ is_pil d = false /\ is_ndarray d = false.
Proof. destruct d; simpl; intros H; try discriminate H; auto. Qed.

Lemma unsupported_is_other (d : data anno pil cv other) :
  is_none d = false -> is_dataframe d = false ->
  is_pil d = false -> is_ndarray d = false ->
  exists o, d = Other _ _ _ o.
Proof. destruct d; simpl; intros; try discriminate; eauto. Qed.

(** C8. An input that is not [None] and is none of the three supported
    representations is logged as an error and returned as it is, no override
    being called; a DataFrame (pandas being importable), a PIL image and a
    numpy array go to [_tf_anno], [_tf_pil] and [_tf_cv]. *)
Theorem call_dispatch (pd_available : bool) (d : data anno pil cv other) :
  (is_none d = false -> is_dataframe d = false ->
   is_pil d = false -> is_ndarray d = false ->
   call _tf_anno _tf_pil _tf_cv pd_available d = (d, [LogError d])) /\
  (pd_available = true -> is_dataframe d = true ->
   call _tf_anno _tf_pil _tf_cv pd_available d = (_tf_anno d, [CallAnno d])) /\
  (is_pil d = true ->
   call _tf_anno _tf_pil _tf_cv pd_available d = (_tf_pil d, [CallPil d])) /\
  (is_ndarray d = true ->
   call _tf_anno _tf_pil _tf_cv pd_available d = (_tf_cv d, [CallCv d])).
Proof.
  unfold call. repeat split.
  - intros Hn Hd Hp Ha. rewrite Hn, Hd, Hp, Ha, andb_false_r. reflexivity.
  - intros -> Hd. destruct d; try discriminate Hd. reflexivity.
  - intros Hp. destruct d; try discriminate Hp.
    simpl. rewrite andb_false_r. reflexivity.
  - intros Ha. destruct d; try discriminate Ha.
    simpl. rewrite andb_false_r. reflexivity.
Qed.

(** C9. [None] comes back as [None]: nothing is logged and no override is
    called, whether pandas is there or not. *)
Theorem call_none (pd_available : bool) :
  fst (call _tf_anno _tf_pil _tf_cv pd_available (PyNone anno pil cv other))
  = PyNone anno pil cv other /\
  snd (call _tf_anno _tf_pil _tf_cv pd_available (PyNone anno pil cv other))
  = [] /\
  existsb (@is_log anno pil cv other)
    (snd (call _tf_anno _tf_pil _tf_cv pd_available (PyNone anno pil cv other)))
  = false /\
  existsb (@is_override_call anno pil cv other)
    (snd (call _tf_anno _tf_pil _tf_cv pd_available (PyNone anno pil cv other)))
  = false.
Proof.
  assert (E : call _tf_anno _tf_pil _tf_cv pd_available (PyNone anno pil cv other)
              = (PyNone anno pil cv other, [])).
  { unfold call. cbn [is_none]. reflexivity. }
  rewrite E. cbn [fst snd existsb]. auto.
Qed.

(** The unsupported path is not the [None] path: it writes a log record. *)
Lemma call_other_logs (pd_available : bool) (o : other) :
  existsb (@is_log anno pil cv other)
    (snd (call _tf_anno _tf_pil _tf_cv pd_available (Other anno pil cv o)))
  = true.
Proof. unfold call. simpl. rewrite andb_false_r. reflexivity. Qed.

(** Without pandas a table is not recognised. *)
Lemma call_dataframe_without_pandas (a : anno) :
  call _tf_anno _tf_pil _tf_cv false (DataFrame pil cv other a)
  = (DataFrame pil cv other a, [LogError (DataFrame pil cv other a)]).
Proof. reflexivity. Qed.

End DispatchFacts.

Lemma call_dispatch_witness :
  call flip_anno flip_pil flip_cv true (Other (list nat) bool Z "a path")
  = (Other _ _ _ "a path", [LogError (Other _ _ _ "a path")]) /\
  call flip_anno flip_pil flip_cv true (DataFrame bool Z string [1; 2])
  = (DataFrame _ _ _ [], [CallAnno (DataFrame _ _ _ [1; 2])]) /\
  call flip_anno flip_pil flip_cv false (PILImage (list nat) Z string true)
  = (PILImage _ _ _ false, [CallPil (PILImage _ _ _ true)]) /\
  call flip_anno flip_pil flip_cv false (NdArray (list nat) bool string 5%Z)
  = (NdArray _ _ _ (-5)%Z, [CallCv (NdArray _ _ _ 5%Z)]).
Proof.
  split; [|split; [|split]].
  - apply (call_dispatch flip_anno flip_pil flip_cv true
             (Other (list nat) bool Z "a path")); reflexivity.
  - apply (call_dispatch flip_anno flip_pil flip_cv true
             (DataFrame bool Z string [1; 2])); reflexivity.
  - apply (call_dispatch flip_anno flip_pil flip_cv false
             (PILImage (list nat) Z string true)); reflexivity.
  - apply (call_dispatch flip_anno flip_pil flip_cv false
             (NdArray (list nat) bool string 5%Z)); reflexivity.
Defined.

End TransformFacts.

(* --------------------------------------------------------------------- *)
(** ** Dataset: the temporary override of [input_dim] *)
(* --------------------------------------------------------------------- *)

Module DatasetFacts.
Import Dataset.

Section WrappedFacts.

Variables U R : Type.
Variable getitem_fn : dataset U -> Z -> dataset U * (R + exn).

Lemma input_dim_set_override (d : dim) (self : dataset U) :
  input_dim (set_override d self) = d.
Proof. reflexivity. Qed.

Lemma input_dim_del_override (self : dataset U) :
  input_dim (del_override self) = default_dim self.
Proof. reflexivity. Qed.

Lemma input_dim_no_override (self : dataset U) :
  override self = None -> input_dim self = default_dim self.
Proof. unfold input_dim. now intros ->. Qed.

Lemma firstn_2_pair (d : dim) : length d = 2%nat -> firstn 2 d = d.
Proof.
  destruct d as [|w [|h [|x tl]]]; simpl; intros H; try discriminate H; reflexivity.
Qed.

(** What the wrapper does with a pair index, step by step. *)
Lemma wrapper_pair (self : dataset U) (d : dim) (i : Z) :
  wrapper getitem_fn self (IPair d i) =
  match getitem_fn (set_override d self) i with
  | (self2, inr e) => (self2, inr e)
  | (self2, inl r) =>
      match override self2 with
      | Some _ => (del_override self2, inl r)
      | None => (self2, inr AttributeError)
      end
  end.
Proof. reflexivity. Qed.

Lemma wrapper_int (self : dataset U) (i : Z) :
  wrapper getitem_fn self (IInt i) = getitem_fn self i.
Proof.
  unfold wrapper. destruct (getitem_fn self i) as [self2 [r|e]]; reflexivity.
Qed.

(** The paths of the wrapper that return, for a dataset built with
    [input_dimension] and a wrapped [__getitem__] that leaves the two
    dimension attributes alone:
    with an index [(d, i)] the wrapped function runs on an object whose
    [input_dim] is [d], still so when it returns, and after the wrapper has
    returned the override is gone and [input_dim] is the default stored at
    construction (the first two entries of [input_dimension], which is
    [input_dimension] itself for a (width, height) pair); with an int index
    the wrapped function runs on the object as it is, [input_dim] being the
    default before and after. *)
Theorem resize_getitem_override (input_dimension : dim) (u : U) :
  (forall d i self2 r,
      getitem_fn (set_override d (init input_dimension u)) i = (self2, inl r) ->
      default_dim self2 = default_dim (init input_dimension u) ->
      override self2 = Some d ->
      input_dim (set_override d (init input_dimension u)) = d /\
      input_dim self2 = d /\
      wrapper getitem_fn (init input_dimension u) (IPair d i)
      = (del_override self2, inl r) /\
      override (del_override self2) = None /\
      input_dim (del_override self2) = firstn 2 input_dimension) /\
  (forall i self2 res,
      getitem_fn (init input_dimension u) i = (self2, res) ->
      default_dim self2 = default_dim (init input_dimension u) ->
      override self2 = None ->
      input_dim (init input_dimension u) = firstn 2 input_dimension /\
      wrapper getitem_fn (init input_dimension u) (IInt i) = (self2, res) /\
      input_dim self2 = firstn 2 input_dimension) /\
  (length input_dimension = 2%nat -> firstn 2 input_dimension = input_dimension).
Proof.
  split; [|split].
  - intros d i self2 r Hcall Hdef Hov.
    rewrite wrapper_pair, Hcall, Hov.
    repeat split.
    + unfold input_dim. now rewrite Hov.
    + rewrite input_dim_del_override. exact Hdef.
  - intros i self2 res Hcall Hdef Hov.
    rewrite wrapper_int, Hcall. repeat split.
    rewrite input_dim_no_override by exact Hov. exact Hdef.
  - apply firstn_2_pair.
Qed.

(** No cleanup on the exceptional path: when the wrapped function raises,
    the override stays in place. *)
Lemma wrapper_raise_keeps_override (self self2 : dataset U) d i e :
  getitem_fn (set_override d self) i = (self2, inr e) ->
  wrapper getitem_fn self (IPair d i) = (self2, inr e).
Proof. intros H. now rewrite wrapper_pair, H. Qed.

End WrappedFacts.

(** The docstring of [resize_getitem]: [data = CustomSet((200,200))],
    [data[0]] is [(200, 200)] and [data[(480,320), 0]] is [(480, 320)]. *)
Example custom_set_int :
  wrapper custom_getitem (init [200; 200]%Z tt) (IInt 0)
  = (init [200; 200]%Z tt, inl [200; 200]%Z).
Proof. reflexivity. Qed.

Example custom_set_pair :
  wrapper custom_getitem (init [200; 200]%Z tt) (IPair [480; 320]%Z 0)
  = (init [200; 200]%Z tt, inl [480; 320]%Z).
Proof. reflexivity. Qed.

(** C7. The override outlives a wrapped call that raises.  On a dataset
    built with (200, 200) whose [__getitem__] raises [IndexError] for a
    negative index, [data[(480, 320), -1]] raises and the override is still
    there: [input_dim] is (480, 320), not the default, and the plain access
    [data[0]] that follows runs, and returns, with [input_dim] at
    (480, 320).  On the path that returns, [data[(480, 320), 0]], the
    override is removed. *)
Lemma override_outlives_failed_access :
  wrapper Loader.checked_getitem (init [200; 200]%Z tt)
          (IPair [480; 320]%Z (-1))
  = (set_override [480; 320]%Z (init [200; 200]%Z tt), inr IndexError) /\
  input_dim (set_override [480; 320]%Z (init [200; 200]%Z tt))
  = [480; 320]%Z /\
  default_dim (set_override [480; 320]%Z (init [200; 200]%Z tt))
  = [200; 200]%Z /\
  wrapper Loader.checked_getitem
          (set_override [480; 320]%Z (init [200; 200]%Z tt)) (IInt 0)
  = (set_override [480; 320]%Z (init [200; 200]%Z tt), inl [480; 320]%Z) /\
  wrapper Loader.checked_getitem (init [200; 200]%Z tt)
          (IPair [480; 320]%Z 0)
  = (init [200; 200]%Z tt, inl [480; 320]%Z).
Proof. repeat split. Qed.

Lemma resize_getitem_override_witness :
  wrapper custom_getitem (init [200; 200]%Z tt) (IPair [480; 320]%Z 0)
  = (del_override (set_override [480; 320]%Z (init [200; 200]%Z tt)),
     inl [480; 320]%Z) /\
  input_dim (del_override (set_override [480; 320]%Z (init [200; 200]%Z tt)))
  = [200; 200]%Z /\
  wrapper custom_getitem (init [200; 200]%Z tt) (IInt 3)
  = (init [200; 200]%Z tt, inl [200; 200]%Z).
Proof.
  destruct (resize_getitem_override custom_getitem [200; 200]%Z tt)
    as [Hpair [Hint Hdim]].
  destruct (Hpair [480; 320]%Z 0%Z
              (set_override [480; 320]%Z (init [200; 200]%Z tt))
              [480; 320]%Z eq_refl eq_refl eq_refl)
    as (_ & _ & Hw & _ & Hafter).
  destruct (Hint 3%Z (init [200; 200]%Z tt) (inl [200; 200]%Z)
              eq_refl eq_refl eq_refl) as (_ & Hw' & _).
  split; [|split].
  - exact Hw.
  - rewrite Hafter. reflexivity.
  - exact Hw'.
Defined.

End DatasetFacts.

(* --------------------------------------------------------------------- *)
(** ** Batch sampler: one resolution per mini-batch *)
(* --------------------------------------------------------------------- *)

Module SamplerFacts.
Import Sampler.

Lemma last_opt_cons {A} (x : A) l : exists y, last_opt (x :: l) = Some y.
Proof.
  revert x. induction l as [|z tl IH]; intros x.
  - now exists x.
  - destruct (IH z) as [y Hy]. exists y. exact Hy.
Qed.

Lemma last_opt_app {A} (l1 l2 : list A) :
  last_opt (l1 ++ l2) = or_else (last_opt l2) (last_opt l1).
Proof.
  induction l1 as [|x tl IH].
  - simpl. destruct (last_opt l2); reflexivity.
  - destruct tl as [|y tl'].
    + destruct l2 as [|a l2']; [reflexivity|].
      destruct (last_opt_cons a l2') as [z Hz].
      change (last_opt ([x] ++ a :: l2')) with (last_opt (a :: l2')).
      now rewrite Hz.
    + change (last_opt ((x :: y :: tl') ++ l2))
        with (last_opt ((y :: tl') ++ l2)).
      rewrite IH. reflexivity.
Qed.

Lemma last_opt_in {A} (l : list A) x : last_opt l = Some x -> In x l.
Proof.
  induction l as [|y tl IH]; simpl; [discriminate|].
  destruct tl as [|z tl'].
  - intros H; inversion H; auto.
  - intros H. right. apply IH. exact H.
Qed.

Lemma last_opt_pending s : last_opt (pending s) = new_input_dim s.
Proof. unfold pending. destruct (new_input_dim s); reflexivity. Qed.

Lemma effective_app cur l1 l2 :
  effective cur (l1 ++ l2) = effective (effective cur l1) l2.
Proof.
  unfold effective. rewrite last_opt_app.
  destruct (last_opt l2); reflexivity.
Qed.

Lemma effective_same_last cur l1 l2 :
  last_opt l1 = last_opt l2 -> effective cur l1 = effective cur l2.
Proof. unfold effective. now intros ->. Qed.

(** *** Requests only touch the pending field *)

Lemma requests_input_dim ds s : input_dim (requests ds s) = input_dim s.
Proof.
  unfold requests. revert s.
  induction ds as [|d tl IH]; intros s; simpl; [reflexivity|].
  now rewrite IH.
Qed.

Lemma requests_log ds s : log (requests ds s) = log s.
Proof.
  unfold requests. revert s.
  induction ds as [|d tl IH]; intros s; simpl; [reflexivity|].
  now rewrite IH.
Qed.

Lemma requests_new ds s :
  new_input_dim (requests ds s) = or_else (last_opt ds) (new_input_dim s).
Proof.
  unfold requests. revert s.
  induction ds as [|d tl IH]; intros s; [reflexivity|].
  cbn [fold_left]. rewrite IH. cbn [request new_input_dim].
  destruct tl as [|d0 tl']; [reflexivity|].
  destruct (last_opt_cons d0 tl') as [z Hz].
  change (last_opt (d :: d0 :: tl')) with (last_opt (d0 :: tl')).
  now rewrite Hz.
Qed.

(** *** The comprehension reads [input_dim] and nothing changes it *)

Lemma comprehension_spec b s :
  map snd (fst (comprehension b s)) = map snd b /\
  Forall (fun p => fst p = input_dim s) (fst (comprehension b s)) /\
  input_dim (snd (comprehension b s)) = input_dim s /\
  log (snd (comprehension b s)) = log s /\
  new_input_dim (snd (comprehension b s))
  = or_else (last_opt (flat_map fst b)) (new_input_dim s).
Proof.
  revert s. induction b as [|[reqs idx] tl IH]; intros s.
  - simpl. repeat split. constructor.
  - cbn [comprehension flat_map fst].
    specialize (IH (requests reqs s)).
    destruct (comprehension tl (requests reqs s)) as [rest s2].
    cbn [fst snd] in *.
    destruct IH as (Hidx & Hdims & Hdim & Hlog & Hnew).
    rewrite requests_input_dim in *. rewrite requests_log in Hlog.
    rewrite requests_new in Hnew.
    split; [cbn [map snd]; now rewrite Hidx|].
    split; [constructor; [reflexivity | exact Hdims]|].
    split; [exact Hdim|]. split; [exact Hlog|].
    rewrite Hnew, last_opt_app.
    destruct (last_opt (flat_map fst tl)); reflexivity.
Qed.

(** *** One call of [__set_input_dim] *)

Lemma set_input_dim_none s :
  new_input_dim s = None -> set_input_dim s = (s, None).
Proof. unfold set_input_dim. now intros ->. Qed.

Lemma set_input_dim_takes_up s d :
  new_input_dim s = Some d -> well_formed d = true ->
  set_input_dim s
  = (mkState (firstn 2 d) None (log s ++ [Resizing (firstn 2 d)]), None).
Proof.
  unfold set_input_dim, well_formed. intros -> Hwf.
  destruct d as [|w [|h tl]]; simpl in Hwf; try discriminate Hwf.
  reflexivity.
Qed.

Lemma set_input_dim_ok s :
  forallb well_formed (pending s) = true ->
  set_input_dim s
  = (mkState (effective (input_dim s) (pending s)) None
             (log s ++ resize_of (new_input_dim s)), None).
Proof.
  unfold pending, effective. destruct (new_input_dim s) as [d|] eqn:E; simpl.
  - rewrite andb_true_r. intros Hwf.
    now rewrite (set_input_dim_takes_up s E Hwf).
  - intros _. rewrite (set_input_dim_none s E), app_nil_r.
    destruct s; simpl in *; now subst.
Qed.

(** Whatever is pending, [input_dim] afterwards is the old one or one for
    which a record was just written; the log only grows. *)
Lemma set_input_dim_logged s :
  (input_dim (fst (set_input_dim s)) = input_dim s \/
   In (Resizing (input_dim (fst (set_input_dim s)))) (log (fst (set_input_dim s))))
  /\ exists l, log (fst (set_input_dim s)) = log s ++ l.
Proof.
  unfold set_input_dim. destruct (new_input_dim s) as [d|] eqn:E.
  - destruct d as [|w [|h tl]]; cbn [fst snd input_dim log new_input_dim firstn].
    + split; [now left | eauto].
    + split; [now left | eauto].
    + split; [| eauto].
      right. apply in_or_app. right. now left.
  - cbn [fst]. split; [now left|]. exists []. now rewrite app_nil_r.
Qed.

Lemma or_else_none {A} (a : option A) : or_else a None = a.
Proof. destruct a; reflexivity. Qed.

Lemma new_requests_last ds s :
  new_input_dim (requests ds s) = last_opt (pending s ++ ds).
Proof. now rewrite requests_new, last_opt_app, last_opt_pending. Qed.

Lemma pending_well_formed s l :
  new_input_dim s = last_opt l ->
  forallb well_formed l = true ->
  forallb well_formed (pending s) = true.
Proof.
  unfold pending. intros -> Hl.
  destruct (last_opt l) as [d|] eqn:E; [|reflexivity].
  simpl. rewrite andb_true_r.
  rewrite forallb_forall in Hl. apply Hl. now apply last_opt_in.
Qed.

Lemma effective_requests ds s :
  effective (input_dim (requests ds s)) (pending (requests ds s))
  = effective (input_dim s) (pending s ++ ds).
Proof.
  rewrite requests_input_dim. apply effective_same_last.
  now rewrite last_opt_pending, new_requests_last.
Qed.

Lemma effective_step s t s2 X :
  input_dim s2 = effective (input_dim s) (pending s ++ before t) ->
  new_input_dim s2 = last_opt (flat_map fst (batch t)) ->
  effective (input_dim s2) (pending s2 ++ X)
  = effective (input_dim s) (pending s ++ turn_requests t ++ X).
Proof.
  intros Hdim Hnew. unfold turn_requests.
  rewrite <- app_assoc, (app_assoc (pending s)).
  rewrite (effective_app _ (pending s ++ before t)), <- Hdim.
  rewrite !effective_app. f_equal.
  apply effective_same_last. now rewrite last_opt_pending.
Qed.

Lemma resize_records_carry c1 c2 turns after :
  last_opt c1 = last_opt c2 ->
  resize_records (boundaries c1 turns after)
  = resize_records (boundaries c2 turns after).
Proof.
  intros H. unfold resize_records.
  destruct turns as [|t rest]; cbn [boundaries flat_map];
    now rewrite !last_opt_app, H.
Qed.

(** *** The generator: one resolution per batch, every change logged *)

Lemma iter_uniform_logged turns : forall after s,
  Forall (fun b => exists d, Forall (fun p => fst p = d) b)
         (fst (fst (iter turns after s))) /\
  (forall b p, In b (fst (fst (iter turns after s))) -> In p b ->
               fst p = input_dim s \/
               In (Resizing (fst p)) (log (snd (fst (iter turns after s))))) /\
  exists l, log (snd (fst (iter turns after s))) = log s ++ l.
Proof.
  induction turns as [|t rest IH]; intros after s.
  - cbn [iter].
    destruct (set_input_dim_logged (requests after s)) as [_ [l Hl]].
    destruct (set_input_dim (requests after s)) as [s1 e].
    cbn [fst snd] in *. rewrite requests_log in Hl.
    split; [constructor|]. split; [intros b p []|]. eauto.
  - cbn [iter].
    destruct (set_input_dim_logged (requests (before t) s)) as [Hd [l Hl]].
    destruct (set_input_dim (requests (before t) s)) as [s1 [e|]].
    + cbn [fst snd] in *. rewrite requests_log in Hl.
      split; [constructor|]. split; [intros b p []|]. eauto.
    + cbn [fst snd] in Hd, Hl.
      rewrite requests_input_dim in Hd. rewrite requests_log in Hl.
      destruct (comprehension_spec (batch t) s1) as (_ & Hb & Hdim2 & Hlog2 & _).
      destruct (comprehension (batch t) s1) as [b s2]. cbn [fst snd] in *.
      destruct (IH after s2) as (Hu & Hlg & l' & Hl').
      destruct (iter rest after s2) as [[out s3] e']. cbn [fst snd] in *.
      assert (Hin1 : forall r, In r (log s1) -> In r (log s3)).
      { intros r Hr. rewrite Hl', Hlog2. apply in_or_app. now left. }
      assert (Hcur : forall p : dim * nat, fst p = input_dim s1 ->
                fst p = input_dim s \/ In (Resizing (fst p)) (log s3)).
      { intros p Hp. destruct Hd as [Hd|Hd].
        - left. congruence.
        - right. apply Hin1. now rewrite Hp. }
      split; [constructor; [exists (input_dim s1); exact Hb | exact Hu]|].
      split.
      * intros b0 p [<-|Hin] Hp.
        -- rewrite Forall_forall in Hb. apply Hcur. now apply Hb.
        -- destruct (Hlg b0 p Hin Hp) as [H|H]; [|now right].
           apply Hcur. congruence.
      * exists (l ++ l'). now rewrite Hl', Hlog2, Hl, app_assoc.
Qed.

Lemma iter_ok turns : forall after s,
  forallb turn_well_formed turns = true ->
  forallb well_formed after = true ->
  forallb well_formed (pending s) = true ->
  snd (iter turns after s) = None /\
  map (map snd) (fst (fst (iter turns after s)))
  = map (fun t => map snd (batch t)) turns /\
  (forall i t b,
      nth_error turns i = Some t ->
      nth_error (fst (fst (iter turns after s))) i = Some b ->
      Forall (fun p => fst p =
                effective (input_dim s)
                  (pending s ++ flat_map turn_requests (firstn i turns) ++ before t)) b) /\
  log (snd (fst (iter turns after s)))
  = log s ++ resize_records (boundaries (pending s) turns after) /\
  new_input_dim (snd (fst (iter turns after s))) = None /\
  input_dim (snd (fst (iter turns after s)))
  = effective (input_dim s) (pending s ++ flat_map turn_requests turns ++ after).
Proof.
  induction turns as [|t rest IH]; intros after s Hts Ha Hp.
  - cbn [iter].
    assert (Hwf : forallb well_formed (pending (requests after s)) = true).
    { apply pending_well_formed with (l := pending s ++ after).
      - apply new_requests_last.
      - rewrite forallb_app. now rewrite Hp, Ha. }
    rewrite (set_input_dim_ok _ Hwf). cbn [fst snd log new_input_dim input_dim].
    rewrite effective_requests, requests_log, new_requests_last.
    repeat split.
    + intros [|i] t b Ht; discriminate Ht.
    + unfold resize_records. cbn [boundaries flat_map]. now rewrite app_nil_r.
  - cbn [iter forallb] in *. apply andb_true_iff in Hts as [Ht Hrest].
    unfold turn_well_formed, turn_requests in Ht.
    rewrite forallb_app in Ht. apply andb_true_iff in Ht as [Hbef Hinb].
    assert (Hwf : forallb well_formed (pending (requests (before t) s)) = true).
    { apply pending_well_formed with (l := pending s ++ before t).
      - apply new_requests_last.
      - rewrite forallb_app. now rewrite Hp, Hbef. }
    rewrite (set_input_dim_ok _ Hwf).
    rewrite effective_requests, requests_log, new_requests_last.
    set (s1 := mkState _ None _).
    destruct (comprehension_spec (batch t) s1) as (Hidx & Hb & Hdim2 & Hlog2 & Hnew2).
    destruct (comprehension (batch t) s1) as [b s2]. cbn [fst snd] in *.
    subst s1. cbn [input_dim log new_input_dim] in *.
    rewrite or_else_none in Hnew2.
    assert (Hwf2 : forallb well_formed (pending s2) = true)
      by (eapply pending_well_formed; eauto).
    destruct (IH after s2 Hrest Ha Hwf2) as (He & Hmap & Hres & Hlog & Hnone & Hfin).
    destruct (iter rest after s2) as [[out s3] e']. cbn [fst snd] in *.
    split; [exact He|].
    split; [cbn [map]; now rewrite Hidx, Hmap|].
    split; [|split; [|split; [exact Hnone|]]].
    + intros [|i] t0 b0 Ht0 Hb0; cbn [nth_error firstn flat_map] in *.
      * inversion Ht0; inversion Hb0; subst. cbn [app]. exact Hb.
      * specialize (Hres i t0 b0 Ht0 Hb0).
        rewrite (@effective_step s t s2 _ Hdim2 Hnew2) in Hres.
        now rewrite <- app_assoc.
    + rewrite Hlog, Hlog2, <- app_assoc. f_equal.
      unfold resize_records at 2. cbn [boundaries flat_map]. f_equal.
      apply resize_records_carry. now rewrite last_opt_pending.
    + rewrite Hfin. cbn [flat_map]. rewrite <- app_assoc.
      apply (@effective_step s t s2 _ Hdim2 Hnew2).
Qed.

(** [change_input_dim] only leaves a request: a (width, height) pair. *)
Lemma change_input_dim_requests multiple random_range draw s s' sz :
  change_input_dim multiple random_range draw s = (s', inl sz) ->
  s' = request s sz /\ well_formed sz = true /\ input_dim s' = input_dim s.
Proof.
  unfold change_input_dim. destruct multiple as [m|[|m0 [|m1 tl]]];
    intros H; inversion H; subst; repeat split.
Qed.

(** C2. In every run of the generator, whatever is assigned to
    [new_input_dim] and whenever (between two batches or while a batch is
    being built), all pairs of a yielded mini-batch carry one resolution; a
    resolution other than the initial one is carried only after its
    [Resizing] record was logged; [change_input_dim] only leaves a request
    and does not touch [input_dim]; and when every request is a
    (width, height) tuple the generator yields every batch of the parent
    sampler, the pairs of the batch of turn [i] carrying the last request
    made before that batch was started (the initial resolution if there is
    none) and the log receiving one record per call of [__set_input_dim]
    that found a request. *)
Theorem batch_sampler_resolution (turns : list turn) (after : list dim) (s : state) :
  Forall (fun b => exists d, Forall (fun p => fst p = d) b)
         (fst (fst (iter turns after s))) /\
  (forall b p, In b (fst (fst (iter turns after s))) -> In p b ->
               fst p = input_dim s \/
               In (Resizing (fst p)) (log (snd (fst (iter turns after s))))) /\
  (forall multiple random_range draw s' sz,
      change_input_dim multiple random_range draw s = (s', inl sz) ->
      s' = request s sz /\ well_formed sz = true /\ input_dim s' = input_dim s) /\
  (forallb turn_well_formed turns = true ->
   forallb well_formed after = true ->
   forallb well_formed (pending s) = true ->
   snd (iter turns after s) = None /\
   map (map snd) (fst (fst (iter turns after s)))
   = map (fun t => map snd (batch t)) turns /\
   (forall i t b,
       nth_error turns i = Some t ->
       nth_error (fst (fst (iter turns after s))) i = Some b ->
       Forall (fun p => fst p =
                 effective (input_dim s)
                   (pending s ++ flat_map turn_requests (firstn i turns) ++ before t)) b) /\
   log (snd (fst (iter turns after s)))
   = log s ++ resize_records (boundaries (pending s) turns after)).
Proof.
  destruct (iter_uniform_logged turns after s) as (Hu & Hl & _).
  split; [exact Hu|]. split; [exact Hl|].
  split; [intros; eapply change_input_dim_requests; eauto|].
  intros Hts Ha Hp.
  destruct (iter_ok turns after s Hts Ha Hp) as (He & Hm & Hr & Hlog & _).
  auto.
Qed.

(** The docstring of [DataLoader]: four samples in batches of two at the
    default size, then at (320, 320) after [change_input_dim(320, None)]. *)
Example dataloader_default :
  iter (map (quiet_turn []) (torch_batches [0; 1; 2; 3]%nat 2 false [])) []
       (init [200; 200]%Z)
  = ([[([200; 200]%Z, 0%nat); ([200; 200]%Z, 1%nat)];
      [([200; 200]%Z, 2%nat); ([200; 200]%Z, 3%nat)]],
     init [200; 200]%Z, None).
Proof. reflexivity. Qed.

Example dataloader_changed :
  iter (map (quiet_turn []) (torch_batches [0; 1; 2; 3]%nat 2 false [])) []
       (fst (change_input_dim (MInt 320) None 0 (init [200; 200]%Z)))
  = ([[([320; 320]%Z, 0%nat); ([320; 320]%Z, 1%nat)];
      [([320; 320]%Z, 2%nat); ([320; 320]%Z, 3%nat)]],
     mkState [320; 320]%Z None [Resizing [320; 320]%Z], None).
Proof. reflexivity. Qed.

(** A request that arrives while the second batch is being built shows in
    the third batch only. *)
Example request_inside_batch :
  fst (fst (iter [quiet_turn [] [0; 1]%nat;
                  mkTurn [[320; 320]%Z] [([], 2%nat); ([[480; 320]%Z], 3%nat)];
                  quiet_turn [] [4; 5]%nat] [] (init [200; 200]%Z)))
  = [[([200; 200]%Z, 0%nat); ([200; 200]%Z, 1%nat)];
     [([320; 320]%Z, 2%nat); ([320; 320]%Z, 3%nat)];
     [([480; 320]%Z, 4%nat); ([480; 320]%Z, 5%nat)]].
Proof. reflexivity. Qed.

Lemma batch_sampler_resolution_witness :
  snd (iter [quiet_turn [] [0; 1]%nat;
             mkTurn [[320; 320]%Z] [([], 2%nat); ([[480; 320]%Z], 3%nat)];
             quiet_turn [] [4; 5]%nat] [] (init [200; 200]%Z)) = None /\
  map (map snd)
      (fst (fst (iter [quiet_turn [] [0; 1]%nat;
                       mkTurn [[320; 320]%Z] [([], 2%nat); ([[480; 320]%Z], 3%nat)];
                       quiet_turn [] [4; 5]%nat] [] (init [200; 200]%Z))))
  = [[0; 1]; [2; 3]; [4; 5]]%nat /\
  Forall (fun p => fst p = [320; 320]%Z)
         [([320; 320]%Z, 2%nat); ([320; 320]%Z, 3%nat)] /\
  log (snd (fst (iter [quiet_turn [] [0; 1]%nat;
                       mkTurn [[320; 320]%Z] [([], 2%nat); ([[480; 320]%Z], 3%nat)];
                       quiet_turn [] [4; 5]%nat] [] (init [200; 200]%Z))))
  = [Resizing [320; 320]%Z; Resizing [480; 320]%Z].
Proof.
  destruct (batch_sampler_resolution
              [quiet_turn [] [0; 1]%nat;
               mkTurn [[320; 320]%Z] [([], 2%nat); ([[480; 320]%Z], 3%nat)];
               quiet_turn [] [4; 5]%nat] [] (init [200; 200]%Z))
    as (_ & _ & _ & Hok).
  destruct (Hok eq_refl eq_refl eq_refl) as (He & Hm & Hr & Hlog).
  split; [exact He|]. split; [exact Hm|]. split; [|exact Hlog].
  exact (Hr 1%nat
            (mkTurn [[320; 320]%Z] [([], 2%nat); ([[480; 320]%Z], 3%nat)])
            [([320; 320]%Z, 2%nat); ([320; 320]%Z, 3%nat)] eq_refl eq_refl).
Defined.

End SamplerFacts.

(* --------------------------------------------------------------------- *)
(** ** Hyper-parameter container *)
(* --------------------------------------------------------------------- *)

Module ParamsFacts.
Import OD ODFacts Params.

(** Unfolding of the state-and-exception plumbing. *)
Ltac run :=
  cbv [bind ret raise get_attrs put_attrs get_heap put_obj emit];
  cbn [attrs heap trace fst snd].

Section SetattrFacts.

Variable obj : Type.

Lemma world_eta (w : world obj) : mkWorld (attrs w) (heap w) (trace w) = w.
Proof. destruct w; reflexivity. Qed.

(** [object.__setattr__] on a name that is none of the descriptors. *)
Lemma object_setattr_storable item v (w : world obj) :
  storable item = true ->
  object_setattr item v w
  = (mkWorld (set item v (attrs w)) (heap w) (trace w), inl tt).
Proof.
  unfold storable, descriptors, in_keys, object_setattr. cbn [existsb].
  destruct (String.eqb item "__class__"); [discriminate|].
  destruct (String.eqb item "__dict__"); [discriminate|].
  destruct (String.eqb item "__weakref__"); [discriminate|].
  intros _. reflexivity.
Qed.


Lemma plain_storable (k : string) : plain_name k = true -> storable k = true.
Proof.
  destruct k as [|c rest]; [discriminate|].
  unfold plain_name, storable, descriptors, in_keys. cbn [existsb String.eqb].
  intros H. apply negb_true_iff in H. now rewrite H.
Qed.

(** [item in self.__dict__]: the value is replaced in place. *)
Lemma setattr_existing item v (w : world obj) :
  storable item = true ->
  mem item (attrs w) = true ->
  setattr item v w = (mkWorld (set item v (attrs w)) (heap w) (trace w), inl tt).
Proof.
  intros Hs Hm. unfold setattr. run. rewrite Hm. cbn [orb].
  now apply object_setattr_storable.
Qed.

(** Before [__init__] has finished everything is stored as it is. *)
Lemma setattr_during_init item v (w : world obj) :
  storable item = true ->
  truthy (init_done (attrs w)) = false ->
  setattr item v w = (mkWorld (set item v (attrs w)) (heap w) (trace w), inl tt).
Proof.
  intros Hs Hd. unfold setattr. run. rewrite Hd, orb_true_r.
  now apply object_setattr_storable.
Qed.

Lemma setattr_plain item v (w : world obj) :
  plain_name item = true ->
  setattr item v w = (mkWorld (set item v (attrs w)) (heap w) (trace w), inl tt).
Proof.
  intros Hp. pose proof (plain_storable item Hp) as Hs.
  unfold setattr, plain_name in *. run.
  destruct (mem item (attrs w) || negb (truthy (init_done (attrs w))));
    [now apply object_setattr_storable|].
  destruct item as [|c rest]; [discriminate Hp|].
  apply negb_true_iff in Hp. rewrite Hp.
  now apply object_setattr_storable.
Qed.

(** A new name with the leading underscore goes on the no-serialize list
    and is stored without the underscore. *)
Lemma setattr_underscore_new x v (w : world obj) ns :
  storable x = true ->
  truthy (init_done (attrs w)) = true ->
  mem (String "_" x) (attrs w) = false ->
  mem x (attrs w) = false ->
  get NO_SERIALIZE (attrs w) = Some (VList ns) ->
  setattr (String "_" x) v w
  = (mkWorld (set x v (set NO_SERIALIZE (VList (ns ++ [VStr x])) (attrs w)))
             (heap w) (trace w), inl tt).
Proof.
  intros Hs Hdone Hnew Hx Hns.
  unfold setattr, no_serialize_append. run.
  rewrite Hnew, Hdone. cbn. run. rewrite Hx, Hns.
  now rewrite object_setattr_storable.
Qed.

(** C10. On a finished object, assigning [_x] when [x] is in the instance
    dictionary and [_x] itself is not raises [AttributeError] and leaves the
    object (its attributes, the no-serialize list among them) as it was. *)
Theorem setattr_underscore_existing (x : string) (v : value) (w : world obj) :
  truthy (init_done (attrs w)) = true ->
  mem (String "_" x) (attrs w) = false ->
  mem x (attrs w) = true ->
  setattr (String "_" x) v w = (w, inr AttributeError) /\
  attrs (fst (setattr (String "_" x) v w)) = attrs w /\
  no_serialize (attrs (fst (setattr (String "_" x) v w))) = no_serialize (attrs w).
Proof.
  intros Hdone Hnew Hold.
  assert (E : setattr (String "_" x) v w = (w, inr AttributeError)).
  { unfold setattr. run. rewrite Hnew, Hdone. cbn. now rewrite Hold. }
  rewrite E. auto.
Qed.

End SetattrFacts.

Section SaveFacts.

Variable obj : Type.
Variable has_state_dict : obj -> bool.
Variable state_dict : obj -> value.

Lemma listed_contains k (d : odict value) ns :
  get NO_SERIALIZE d = Some (VList ns) ->
  contains k (VList ns) = inl (listed k d).
Proof. unfold listed, no_serialize. now intros ->. Qed.

(** What [save] stores for a value: its [state_dict()] when it has one. *)
Lemma serialized_hooked (h : list obj) l o :
  nth_error h l = Some o -> has_state_dict o = true ->
  serialized has_state_dict state_dict h (VRef l) = state_dict o.
Proof. unfold serialized. now intros -> ->. Qed.

Lemma serialized_raw (h : list obj) v :
  has_sd has_state_dict h v = false ->
  serialized has_state_dict state_dict h v = v.
Proof.
  unfold has_sd, serialized. destruct v; auto.
  destruct (nth_error h l); auto. now intros ->.
Qed.

(** The loop of [save]: the object is only read. *)
Lemma save_items_spec (w : world obj) ns :
  get NO_SERIALIZE (attrs w) = Some (VList ns) ->
  forall items state0,
    NoDup (keys items) ->
    exists state,
      save_items has_state_dict state_dict items state0 w = (w, inl state) /\
      (NoDup (keys state0) -> NoDup (keys state)) /\
      forall k,
        get k state =
        if listed k (attrs w) then get k state0
        else match get k items with
             | Some v => Some (serialized has_state_dict state_dict (heap w) v)
             | None => get k state0
             end.
Proof.
  intros Hns. induction items as [|[k0 v0] tl IH]; intros state0 Hnd.
  - exists state0. cbn [save_items]. run. repeat split; auto.
    intros k. cbn [get]. destruct (listed k (attrs w)); reflexivity.
  - inversion Hnd as [|? ? Hk0 Htl]; subst.
    cbn [save_items]. run. rewrite Hns, (listed_contains k0 _ Hns).
    destruct (listed k0 (attrs w)) eqn:El.
    + destruct (IH state0 Htl) as (state & Hrun & Hndk & Hget).
      exists state. split; [exact Hrun|]. split; [exact Hndk|].
      intros k. rewrite Hget. cbn [get].
      destruct (listed k (attrs w)) eqn:Ek; [reflexivity|].
      destruct (String.eqb k k0) eqn:E; [|reflexivity].
      apply String.eqb_eq in E. congruence.
    + destruct (IH (set k0 (serialized has_state_dict state_dict (heap w) v0) state0) Htl)
        as (state & Hrun & Hndk & Hget).
      exists state. split; [exact Hrun|].
      split; [intros H0; apply Hndk; now apply set_nodup|].
      intros k. rewrite Hget, get_set. cbn [get].
      rewrite (String.eqb_sym k k0).
      destruct (String.eqb k0 k) eqn:E.
      * apply String.eqb_eq in E; subst k.
        rewrite El.
        assert (Hnone : get k0 tl = None) by now apply get_none_not_in.
        now rewrite Hnone.
      * reflexivity.
Qed.

(** [save] on an object whose no-serialize list is a list. *)
Lemma save_spec (w : world obj) ns :
  NoDup (keys (attrs w)) ->
  get NO_SERIALIZE (attrs w) = Some (VList ns) ->
  exists state,
    save has_state_dict state_dict w = (w, inl state) /\
    NoDup (keys state) /\
    forall k,
      get k state =
      if listed k (attrs w) then None
      else match get k (attrs w) with
           | Some v => Some (serialized has_state_dict state_dict (heap w) v)
           | None => None
           end.
Proof.
  intros Hnd Hns.
  destruct (save_items_spec w Hns (attrs w) [] Hnd) as (state & Hrun & Hndk & Hget).
  exists state. split.
  - unfold save. run. exact Hrun.
  - split; [apply Hndk; constructor | exact Hget].
Qed.

End SaveFacts.

Section InitFacts.

Variable obj : Type.

Lemma for_each_app {A} (body : A -> M obj unit) l1 l2 (w : world obj) :
  for_each (l1 ++ l2) body w =
  match for_each l1 body w with
  | (w1, inl _) => for_each l2 body w1
  | (w1, inr e) => (w1, inr e)
  end.
Proof.
  revert w. induction l1 as [|a tl IH]; intros w; [reflexivity|].
  cbn [app for_each]. unfold bind.
  destruct (body a w) as [w1 [[]|e]]; [apply IH | reflexivity].
Qed.

(** While [__init__] runs, [__init_done] is still the class attribute. *)
Lemma not_done_yet (d : odict value) :
  get INIT_DONE d = None -> truthy (init_done d) = false.
Proof. unfold init_done, getattr_self. now intros ->. Qed.

Lemma hasattr_false_neq k (d : odict value) k' :
  hasattr_self k d = false -> mem k' d = true -> k' <> k.
Proof.
  unfold hasattr_self. intros H Hm ->.
  apply orb_false_iff in H as [H _]. congruence.
Qed.

Lemma hasattr_false_not_class k (d : odict value) k' :
  hasattr_self k d = false -> in_keys k' class_attrs = true -> k' <> k.
Proof.
  unfold hasattr_self. intros H Hm ->.
  apply orb_false_iff in H as [_ H]. congruence.
Qed.

Lemma hasattr_false_storable k (d : odict value) :
  hasattr_self k d = false -> storable k = true.
Proof.
  unfold hasattr_self, storable. intros H.
  apply orb_false_iff in H as [_ H]. apply negb_true_iff.
  destruct (in_keys k descriptors) eqn:E; [|reflexivity].
  apply in_keys_spec in E.
  assert (Hin : In k class_attrs).
  { unfold descriptors in E. cbn [In] in E.
    destruct E as [<-|[<-|[<-|[]]]]; apply in_keys_spec; reflexivity. }
  apply in_keys_spec in Hin. congruence.
Qed.

(** The attributes after one keyword argument has been handled. *)
Lemma init_kwarg_spec (w : world obj) key0 val ns :
  get INIT_DONE (attrs w) = None ->
  get NO_SERIALIZE (attrs w) = Some (VList ns) ->
  init_kwarg (key0, val) w =
  if hasattr_self (effective_name key0) (attrs w)
  then (mkWorld (attrs w) (heap w)
          (trace w ++ [Log ERROR (effective_name key0 ++ " attribute already exists as a HyperParameter and will not be overwritten.")%string]),
        inl tt)
  else (mkWorld
          (if startswith_underscore key0
           then set NO_SERIALIZE (VList (ns ++ [VStr (effective_name key0)]))
                    (set (effective_name key0) val (attrs w))
           else set (effective_name key0) val (attrs w))
          (heap w) (trace w), inl tt).
Proof.
  intros Hdone Hns. unfold init_kwarg, effective_name.
  destruct (startswith_underscore key0); run;
    destruct (hasattr_self _ (attrs w)) eqn:Hh; cbn [negb]; try reflexivity.
  - rewrite setattr_during_init
      by (first [now apply not_done_yet | eapply hasattr_false_storable; eauto]).
    unfold no_serialize_append. run.
    rewrite get_set_other, Hns; [reflexivity|].
    apply not_eq_sym. eapply hasattr_false_neq; [exact Hh|].
    unfold mem. now rewrite Hns.
  - rewrite setattr_during_init
      by (first [now apply not_done_yet | eapply hasattr_false_storable; eauto]).
    reflexivity.
Qed.

Lemma listed_set_other k x v (d : odict value) :
  x <> NO_SERIALIZE -> listed k (set x v d) = listed k d.
Proof.
  intros H. unfold listed, no_serialize. now rewrite get_set_other.
Qed.

Lemma listed_append k x ns (d : odict value) :
  get NO_SERIALIZE d = Some (VList ns) ->
  listed k (set NO_SERIALIZE (VList (ns ++ [VStr x])) d)
  = listed k d || String.eqb x k.
Proof.
  intros H. unfold listed, no_serialize. rewrite get_set_same, H.
  rewrite existsb_app. cbn [existsb]. now rewrite orb_false_r.
Qed.

Lemma init_kwarg_building (w : world obj) key0 val :
  building (attrs w) ->
  exists w',
    init_kwarg (key0, val) w = (w', inl tt) /\
    building (attrs w') /\
    heap w' = heap w /\
    (forall k v, get k (attrs w) = Some v -> k <> NO_SERIALIZE ->
                 get k (attrs w') = Some v) /\
    (forall k, listed k (attrs w) = true -> listed k (attrs w') = true) /\
    (forall k, mem k (attrs w') = true ->
               mem k (attrs w) = true \/ k = effective_name key0) /\
    (hasattr_self (effective_name key0) (attrs w) = false ->
     get (effective_name key0) (attrs w') = Some val /\
     (startswith_underscore key0 = true ->
      listed (effective_name key0) (attrs w') = true)).
Proof.
  intros (Hdone & [ns Hns] & Hnd).
  rewrite (init_kwarg_spec w key0 val Hdone Hns).
  destruct (hasattr_self (effective_name key0) (attrs w)) eqn:Hh.
  - eexists. split; [reflexivity|]. cbn [attrs heap].
    split; [repeat split; eauto|]. split; [reflexivity|].
    repeat split; auto; congruence.
  - set (key := effective_name key0) in *.
    assert (Hk1 : NO_SERIALIZE <> key).
    { eapply hasattr_false_neq; [exact Hh|]. unfold mem. now rewrite Hns. }
    assert (Hk2 : INIT_DONE <> key).
    { eapply hasattr_false_not_class; [exact Hh | reflexivity]. }
    assert (Hk3 : mem key (attrs w) = false).
    { unfold hasattr_self in Hh. now apply orb_false_iff in Hh. }
    assert (Hmono : forall k v, get k (attrs w) = Some v -> key <> k).
    { intros k v Hg ->. unfold mem in Hk3. now rewrite Hg in Hk3. }
    eexists. split; [reflexivity|]. cbn [attrs heap].
    destruct (startswith_underscore key0).
    + split; [|split; [reflexivity|repeat split]].
      * split; [|split].
        -- rewrite !get_set_other; auto. discriminate.
        -- eexists. apply get_set_same.
        -- now apply set_nodup, set_nodup.
      * intros k v Hg Hne. rewrite !get_set_other; eauto.
      * intros k Hl. rewrite listed_append.
        -- rewrite listed_set_other by auto. now rewrite Hl.
        -- rewrite get_set_other by auto. exact Hns.
      * intros k. rewrite !mem_set. intros Hm.
        apply orb_true_iff in Hm as [Hm|Hm].
        -- apply String.eqb_eq in Hm. subst k. left. unfold mem. now rewrite Hns.
        -- apply orb_true_iff in Hm as [Hm|Hm]; [|now left].
           apply String.eqb_eq in Hm. now right.
      * rewrite get_set_other by auto. apply get_set_same.
      * intros _. rewrite listed_append.
        -- now rewrite String.eqb_refl, orb_true_r.
        -- rewrite get_set_other by auto. exact Hns.
    + split; [|split; [reflexivity|repeat split]].
      * split; [|split].
        -- rewrite get_set_other; auto.
        -- exists ns. rewrite get_set_other; auto.
        -- now apply set_nodup.
      * intros k v Hg Hne. rewrite get_set_other; eauto.
      * intros k Hl. now rewrite listed_set_other by auto.
      * intros k. rewrite mem_set. intros Hm.
        apply orb_true_iff in Hm as [Hm|Hm]; [|now left].
        apply String.eqb_eq in Hm. now right.
      * apply get_set_same.
      * discriminate.
Qed.

Lemma init_loop kwargs : forall (w : world obj),
  building (attrs w) ->
  exists w',
    for_each kwargs (@init_kwarg obj) w = (w', inl tt) /\
    building (attrs w') /\
    heap w' = heap w /\
    (forall k v, get k (attrs w) = Some v -> k <> NO_SERIALIZE ->
                 get k (attrs w') = Some v) /\
    (forall k, listed k (attrs w) = true -> listed k (attrs w') = true) /\
    (forall k, mem k (attrs w') = true ->
               mem k (attrs w) = true \/
               In k (map (fun kv => effective_name (fst kv)) kwargs)).
Proof.
  induction kwargs as [|[key0 val] tl IH]; intros w Hb.
  - exists w. cbn [for_each]. run. split; [reflexivity|].
    split; [exact Hb|]. repeat split; auto.
  - destruct (init_kwarg_building w key0 val Hb)
      as (w1 & Hrun & Hb1 & Hh1 & Hg1 & Hl1 & Hm1 & _).
    destruct (IH w1 Hb1) as (w2 & Hrun2 & Hb2 & Hh2 & Hg2 & Hl2 & Hm2).
    exists w2. cbn [for_each]. unfold bind. rewrite Hrun.
    split; [exact Hrun2|]. split; [exact Hb2|].
    split; [congruence|]. split; [|split].
    + intros k v Hg Hne. eauto.
    + intros k Hl. eauto.
    + intros k Hm. cbn [map fst In].
      destruct (Hm2 k Hm) as [H|H]; [|now right; right].
      destruct (Hm1 k H) as [H'|H']; [now left | right; left; congruence].
Qed.

Lemma init_unfold (h : list obj) kwargs :
  new h kwargs =
  (bind (for_each kwargs (@init_kwarg obj))
        (fun _ => setattr INIT_DONE (VBool true))) (mkWorld fresh_attrs h []).
Proof. reflexivity. Qed.

Lemma fresh_building : building fresh_attrs.
Proof.
  split; [reflexivity|]. split; [now exists []|].
  repeat constructor; cbn; intuition discriminate.
Qed.

End InitFacts.

Section ConstructionFacts.

Variable obj : Type.
Variable has_state_dict : obj -> bool.
Variable state_dict : obj -> value.


Lemma finished_attrs (d : odict value) :
  building d ->
  truthy (init_done (set INIT_DONE (VBool true) d)) = true /\
  NoDup (keys (set INIT_DONE (VBool true) d)) /\
  (forall k, k <> INIT_DONE ->
             get k (set INIT_DONE (VBool true) d) = get k d) /\
  (forall k, listed k (set INIT_DONE (VBool true) d) = listed k d).
Proof.
  intros (Hdone & _ & Hnd). repeat split.
  - unfold init_done, getattr_self. now rewrite get_set_same.
  - now apply set_nodup.
  - intros k Hk. apply get_set_other. auto.
  - intros k. apply listed_set_other. discriminate.
Qed.



End ConstructionFacts.

Section LoadFacts.

Variable obj : Type.
Variable has_load_state_dict : obj -> bool.
Variable load_state_dict : obj -> value -> option bool -> obj * option exn.

Lemma update_update {A} l (a b : A) h : update l b (update l a h) = update l b h.
Proof.
  revert l. induction h as [|x tl IH]; intros [|l]; simpl; auto.
  now rewrite IH.
Qed.

Lemma nth_error_update_same {A} l (a : A) h x :
  nth_error h l = Some x -> nth_error (update l a h) l = Some a.
Proof.
  revert l. induction h as [|y tl IH]; intros [|l]; simpl; try discriminate; auto.
Qed.

Lemma nth_error_update_other {A} l l' (a : A) h :
  l <> l' -> nth_error (update l a h) l' = nth_error h l'.
Proof.
  revert l l'. induction h as [|y tl IH]; intros [|l] [|l'] H; simpl; auto.
  congruence.
Qed.

(** The [try]/[except] on the heap object is [protocol]; the exception that
    leaves it is the one [load] ends with. *)
Lemma call_load_spec l o v strict (w : world obj) :
  call_load load_state_dict l o v strict w =
  (mkWorld (attrs w)
           (update l (fst (protocol load_state_dict o v strict)) (heap w))
           (trace w ++ calls load_state_dict l o v strict),
   match snd (protocol load_state_dict o v strict) with
   | None => inl tt
   | Some e => inr e
   end).
Proof.
  unfold call_load, protocol, calls. run.
  destruct (load_state_dict o v (Some strict)) as [o1 [e1|]]; cbn [fst snd].
  - destruct e1; cbn [fst snd attrs heap trace]; try reflexivity.
    destruct (load_state_dict o1 v None) as [o2 [e2|]];
      cbn [fst snd attrs heap trace];
      now rewrite update_update, <- app_assoc.
  - reflexivity.
Qed.

Lemma receiver_get (d : odict value) (h : list obj) k l o :
  receiver has_load_state_dict d h k = Some (l, o) ->
  get k d = Some (VRef l) /\ nth_error h l = Some o /\
  has_load_state_dict o = true.
Proof.
  unfold receiver, hooked. destruct (get k d) as [cur|]; [|discriminate].
  destruct cur; try discriminate.
  destruct (nth_error h l0) as [o'|] eqn:E; [|discriminate].
  destruct (has_load_state_dict o') eqn:Eh; [|discriminate].
  intros H; inversion H; subst. auto.
Qed.

Lemma receiver_hooked (d : odict value) (h : list obj) k l o :
  get k d = Some (VRef l) -> nth_error h l = Some o ->
  has_load_state_dict o = true ->
  receiver has_load_state_dict d h k = Some (l, o).
Proof. unfold receiver, hooked. now intros -> -> ->. Qed.

Lemma hooked_class_value (h : list obj) k :
  hooked has_load_state_dict h (class_value k) = None.
Proof. unfold class_value. destruct (String.eqb k INIT_DONE); reflexivity. Qed.

(** An attribute whose value has the hook: the hook is called, nothing is
    assigned. *)
Lemma load_item_hooked strict k v (w : world obj) l o :
  receiver has_load_state_dict (attrs w) (heap w) k = Some (l, o) ->
  load_item has_load_state_dict load_state_dict strict (k, v) w
  = call_load load_state_dict l o v strict w.
Proof.
  intros Hr. unfold load_item. run.
  unfold receiver in Hr. unfold hasattr_self, getattr_self, mem.
  destruct (get k (attrs w)) as [cur|]; [|discriminate].
  cbn [orb]. now rewrite Hr.
Qed.

(** Anything else goes through [__setattr__]. *)
Lemma load_item_assign strict k v (w : world obj) :
  receiver has_load_state_dict (attrs w) (heap w) k = None ->
  load_item has_load_state_dict load_state_dict strict (k, v) w
  = setattr k v w.
Proof.
  intros Hr. unfold load_item. run.
  unfold receiver in Hr. unfold hasattr_self, getattr_self, mem.
  destruct (get k (attrs w)) as [cur|].
  - cbn [orb]. now rewrite Hr.
  - cbn [orb]. destruct (in_keys k class_attrs); [|reflexivity].
    now rewrite hooked_class_value.
Qed.


(** *** The log of [load] *)






(** *** The loop of [load] on a checkpoint the object can take *)

Lemma receiver_update_other (d : odict value) (h : list obj) l o o' k :
  nth_error h l = Some o -> has_load_state_dict o = true ->
  target has_load_state_dict d h k <> Some l ->
  receiver has_load_state_dict d (update l o' h) k
  = receiver has_load_state_dict d h k.
Proof.
  intros Ho Hh Ht. unfold target, receiver in *.
  destruct (get k d) as [cur|]; [|reflexivity].
  destruct cur; try reflexivity. unfold hooked in *.
  destruct (Nat.eq_dec l l0) as [<-|Hne].
  - exfalso. apply Ht. now rewrite Ho, Hh.
  - now rewrite nth_error_update_other.
Qed.

Lemma receiver_set_other (d : odict value) (h : list obj) k v k' :
  k <> k' ->
  receiver has_load_state_dict (set k v d) h k'
  = receiver has_load_state_dict d h k'.
Proof. intros H. unfold receiver. now rewrite get_set_other. Qed.

Lemma in_targets (d : odict value) (h : list obj) items kv l :
  In kv items -> target has_load_state_dict d h (fst kv) = Some l ->
  In l (targets has_load_state_dict d h items).
Proof.
  intros Hin Ht. unfold targets. apply in_flat_map.
  exists kv. split; [exact Hin|]. rewrite Ht. now left.
Qed.

Lemma targets_transfer (d d1 : odict value) (h h1 : list obj) items :
  (forall kv, In kv items ->
              receiver has_load_state_dict d1 h1 (fst kv)
              = receiver has_load_state_dict d h (fst kv)) ->
  targets has_load_state_dict d1 h1 items = targets has_load_state_dict d h items.
Proof.
  intros H. unfold targets. induction items as [|kv tl IH]; [reflexivity|].
  cbn [flat_map]. unfold target at 1 3. rewrite H by now left.
  rewrite IH; [reflexivity|]. intros; apply H; now right.
Qed.

Lemma accepts_transfer (d d1 : odict value) (h h1 : list obj) strict items :
  (forall kv, In kv items ->
              receiver has_load_state_dict d1 h1 (fst kv)
              = receiver has_load_state_dict d h (fst kv)) ->
  (forall k, mem k d = true -> mem k d1 = true) ->
  Forall (accepts has_load_state_dict load_state_dict d h strict) items ->
  Forall (accepts has_load_state_dict load_state_dict d1 h1 strict) items.
Proof.
  intros Hr Hm Ha. rewrite Forall_forall in *. intros kv Hin.
  specialize (Ha kv Hin). unfold accepts in *. rewrite (Hr kv Hin).
  destruct (receiver has_load_state_dict d h (fst kv)) as [[l o]|]; auto.
  destruct Ha as [[Hmem Hs]|Hp]; auto.
Qed.

Lemma restored_transfer (d d1 d' : odict value) (h h1 h' : list obj) strict items :
  (forall kv, In kv items ->
              receiver has_load_state_dict d1 h1 (fst kv)
              = receiver has_load_state_dict d h (fst kv)) ->
  (forall kv, In kv items -> get (fst kv) d1 = get (fst kv) d) ->
  Forall (restored has_load_state_dict load_state_dict d1 h1 strict d' h') items ->
  Forall (restored has_load_state_dict load_state_dict d h strict d' h') items.
Proof.
  intros Hr Hg Ha. rewrite Forall_forall in *. intros kv Hin.
  specialize (Ha kv Hin). unfold restored in *.
  rewrite (Hr kv Hin), (Hg kv Hin) in Ha. exact Ha.
Qed.

Lemma key_of_tail {V} (tl : odict V) kv k :
  In kv tl -> ~ In k (keys tl) -> k <> fst kv.
Proof. intros Hin Hk ->. apply Hk. now apply in_map. Qed.

Lemma load_items_spec strict items : forall (w : world obj),
  NoDup (keys items) ->
  NoDup (targets has_load_state_dict (attrs w) (heap w) items) ->
  Forall (accepts has_load_state_dict load_state_dict (attrs w) (heap w) strict) items ->
  exists w',
    for_each items (load_item has_load_state_dict load_state_dict strict) w
    = (w', inl tt) /\
    Forall (restored has_load_state_dict load_state_dict
              (attrs w) (heap w) strict (attrs w') (heap w')) items /\
    (forall k, ~ In k (keys items) -> get k (attrs w') = get k (attrs w)) /\
    (forall l, ~ In l (targets has_load_state_dict (attrs w) (heap w) items) ->
               nth_error (heap w') l = nth_error (heap w) l).
Proof.
  induction items as [|[k v] tl IH]; intros w Hnd Hnt Hacc.
  - exists w. cbn [for_each]. run. repeat split; auto.
  - inversion Hnd as [|? ? Hk Hndtl]; subst.
    inversion Hacc as [|? ? Hak Hatl]; subst.
    unfold targets in Hnt. cbn [flat_map fst] in Hnt.
    fold (targets has_load_state_dict (attrs w) (heap w) tl) in Hnt.
    unfold accepts in Hak. cbn [fst snd] in Hak.
    cbn [for_each]. unfold bind.
    destruct (receiver has_load_state_dict (attrs w) (heap w) k)
      as [[l o]|] eqn:Hr.
    + (* the hook takes the saved value *)
      assert (Ht : target has_load_state_dict (attrs w) (heap w) k = Some l)
        by (unfold target; now rewrite Hr).
      rewrite Ht in Hnt. cbn [app] in Hnt.
      inversion Hnt as [|? ? Hl Hnttl]; subst.
      destruct (receiver_get _ _ _ Hr) as (Hgk & Ho & Hh).
      rewrite (@load_item_hooked strict k v w l o Hr), call_load_spec, Hak.
      set (o' := fst (protocol load_state_dict o v strict)).
      set (w1 := mkWorld _ _ _).
      assert (Hrec : forall kv, In kv tl ->
                receiver has_load_state_dict (attrs w1) (heap w1) (fst kv)
                = receiver has_load_state_dict (attrs w) (heap w) (fst kv)).
      { intros kv Hin. cbn [attrs heap w1].
        apply receiver_update_other with (o := o); auto.
        intros Hc. apply Hl. eapply in_targets; eauto. }
      assert (Htg : targets has_load_state_dict (attrs w1) (heap w1) tl
                    = targets has_load_state_dict (attrs w) (heap w) tl)
        by now apply targets_transfer.
      destruct (IH w1 Hndtl) as (w' & Hrun & Hres & Hfa & Hfh).
      { now rewrite Htg. }
      { eapply accepts_transfer; eauto. }
      exists w'. split; [exact Hrun|]. split; [|split].
      * constructor.
        -- unfold restored. cbn [fst snd]. rewrite Hr. split.
           ++ now rewrite (Hfa k Hk).
           ++ rewrite Hfh by now rewrite Htg.
              cbn [heap w1]. eapply nth_error_update_same; eauto.
        -- eapply restored_transfer; eauto.
      * intros k0 Hk0. rewrite Hfa; [reflexivity|].
        intros Hc. apply Hk0. now right.
      * intros l0 Hl0. unfold targets in Hl0. cbn [flat_map fst] in Hl0.
        fold (targets has_load_state_dict (attrs w) (heap w) tl) in Hl0.
        rewrite Ht in Hl0. cbn [app] in Hl0.
        rewrite Hfh.
        -- cbn [heap w1]. apply nth_error_update_other.
           intros ->. apply Hl0. now left.
        -- rewrite Htg. intros Hc. apply Hl0. now right.
    + (* the saved value is assigned *)
      assert (Ht : target has_load_state_dict (attrs w) (heap w) k = None)
        by (unfold target; now rewrite Hr).
      rewrite Ht in Hnt. cbn [app] in Hnt.
      rewrite (@load_item_assign strict k v w Hr).
      assert (Hset : setattr k v w
                     = (mkWorld (set k v (attrs w)) (heap w) (trace w), inl tt)).
      { destruct Hak as [Hm|Hp];
          [now apply setattr_existing | now apply setattr_plain]. }
      rewrite Hset. set (w1 := mkWorld _ _ _).
      assert (Hrec : forall kv, In kv tl ->
                receiver has_load_state_dict (attrs w1) (heap w1) (fst kv)
                = receiver has_load_state_dict (attrs w) (heap w) (fst kv)).
      { intros kv Hin. cbn [attrs heap w1].
        apply receiver_set_other. eapply key_of_tail; eauto. }
      assert (Htg : targets has_load_state_dict (attrs w1) (heap w1) tl
                    = targets has_load_state_dict (attrs w) (heap w) tl)
        by now apply targets_transfer.
      destruct (IH w1 Hndtl) as (w' & Hrun & Hres & Hfa & Hfh).
      { now rewrite Htg. }
      { eapply accepts_transfer; eauto.
        intros k0 Hm. cbn [attrs w1]. rewrite mem_set, Hm. apply orb_true_r. }
      exists w'. split; [exact Hrun|]. split; [|split].
      * constructor.
        -- unfold restored. cbn [fst snd]. rewrite Hr.
           rewrite (Hfa k Hk). cbn [attrs w1]. apply get_set_same.
        -- eapply restored_transfer; eauto.
           intros kv Hin. cbn [attrs w1]. apply get_set_other.
           eapply key_of_tail; eauto.
      * intros k0 Hk0. rewrite Hfa.
        -- cbn [attrs w1]. apply get_set_other.
           intros ->. apply Hk0. now left.
        -- intros Hc. apply Hk0. now right.
      * intros l0 Hl0. unfold targets in Hl0. cbn [flat_map fst] in Hl0.
        fold (targets has_load_state_dict (attrs w) (heap w) tl) in Hl0.
        rewrite Ht in Hl0. cbn [app] in Hl0.
        rewrite Hfh; [reflexivity|]. now rewrite Htg.
Qed.

End LoadFacts.

Section RoundTripFacts.

Variable obj : Type.
Variable has_state_dict : obj -> bool.
Variable state_dict : obj -> value.
Variable has_load_state_dict : obj -> bool.
Variable load_state_dict : obj -> value -> option bool -> obj * option exn.

(** [load] is the INFO record followed by the loop. *)
Lemma load_unfold filename state strict (w : world obj) :
  load has_load_state_dict load_state_dict filename state strict w
  = for_each state (load_item has_load_state_dict load_state_dict strict)
      (mkWorld (attrs w) (heap w)
         (trace w ++ [Log INFO ("Loading state from file [" ++ filename ++ "]")%string])).
Proof. reflexivity. Qed.

Variable file : Type.
Variable torch_save : list obj -> odict value -> file + exn.
Variable torch_load : file -> list obj -> (list obj * odict value) + exn.

(** [save] is the loop followed by [torch.save]. *)
Lemma save_to_unfold (w : world obj) (state : odict value) :
  save has_state_dict state_dict w = (w, inl state) ->
  save_to has_state_dict state_dict torch_save w
  = (w, torch_save (heap w) state).
Proof. intros H. unfold save_to, bind. rewrite H. reflexivity. Qed.

(** [load] from a file is [torch.load] followed by the loop of [load], in
    the heap [torch.load] has put the objects of the file in. *)
Lemma load_from_unfold filename (f : file) strict (w : world obj) h' state' :
  torch_load f (heap w) = inl (h', state') ->
  load_from has_load_state_dict load_state_dict torch_load filename f strict w
  = for_each state' (load_item has_load_state_dict load_state_dict strict)
      (mkWorld (attrs w) h'
         (trace w ++ [Log INFO ("Loading state from file [" ++ filename ++ "]")%string])).
Proof.
  intros H. unfold load_from. unfold bind at 1. unfold emit at 1.
  unfold bind at 1. unfold get_heap at 1. cbn [heap]. rewrite H.
  reflexivity.
Qed.

(** The objects of the reader are where they were after [torch.load]. *)
Lemma receiver_extend (d : odict value) (h new : list obj) k :
  (forall l, get k d = Some (VRef l) -> l < length h) ->
  receiver has_load_state_dict d (h ++ new) k
  = receiver has_load_state_dict d h k.
Proof.
  intros Hv. unfold receiver. destruct (get k d) as [cur|]; [|reflexivity].
  destruct cur; try reflexivity. unfold hooked.
  rewrite nth_error_app1 by now apply Hv. reflexivity.
Qed.

(** The objects [load] hands a state to are objects of the heap. *)
Lemma targets_in_heap (d : odict value) (h : list obj) items l :
  In l (targets has_load_state_dict d h items) -> l < length h.
Proof.
  unfold targets. intros Hin. apply in_flat_map in Hin as (kv & _ & Hl).
  unfold target in Hl.
  destruct (receiver has_load_state_dict d h (fst kv)) as [[l' o]|] eqn:Hr;
    [|contradiction].
  destruct Hl as [<-|[]].
  destruct (@receiver_get obj has_load_state_dict _ _ _ _ _ Hr)
    as (_ & Ho & _).
  apply nth_error_Some. congruence.
Qed.

(** Pickling copies a value without references as it is. *)
Lemma copied_refs_free (hs hl : list obj) (base : nat) (v : value) :
  forall v', refs_free v = true -> copied hs hl base v v' -> v' = v.
Proof.
  induction v as [| b | z | s | l IH | d IH | n | l] using value_ind_nested;
    intros v' Hf Hc; destruct v'; cbn [copied] in Hc;
    try contradiction; try congruence.
  - f_equal. cbn [refs_free] in Hf. revert l0 Hf Hc.
    induction IH as [|x tl Hx Htl IHl]; intros l' Hf Hc;
      destruct l' as [|x' tl']; try contradiction; [reflexivity|].
    apply andb_true_iff in Hf as [Hfx Hft]. destruct Hc as [Hcx Hct].
    f_equal; [now apply Hx | now apply IHl].
  - f_equal. cbn [refs_free] in Hf. revert d0 Hf Hc.
    induction IH as [|[k x] tl Hx Htl IHl]; intros d' Hf Hc;
      destruct d' as [|[k' x'] tl']; try contradiction; [reflexivity|].
    apply andb_true_iff in Hf as [Hfx Hft]. destruct Hc as (-> & Hcx & Hct).
    cbn [snd] in Hx. f_equal; [f_equal; now apply Hx | now apply IHl].
  - discriminate Hf.
Qed.

(** C3. [save] on one object, the state going through the file ([torch.save]
    returns, [torch.load] gives back a copy of the state, its objects new
    ones), then [load] on an object that has every saved attribute, whose
    attributes hold distinct objects where they hold objects with a
    [load_state_dict] method, these methods accepting the state read and
    giving it back through [state_dict()]: [load] returns, and for every
    attribute [save] serialized, the state holds [state_dict()] of the value
    when the value has the method and the value itself otherwise, the state
    read holds a copy of that (the same value when it has no reference to an
    object), and this copy is what the object that loads ends with: handed
    to [load_state_dict] of the object its attribute holds when that has the
    method (the object stays in place and its [state_dict()] is the copy),
    assigned to the attribute otherwise; the objects [torch.load] has made
    are in the heap as it made them. *)
Theorem save_load_round_trip (ws wr : world obj) (ns : list value)
        (state state' : odict value) (f : file) (hl' : list obj)
        (filename : string) (strict : bool) :
  NoDup (keys (attrs ws)) ->
  get NO_SERIALIZE (attrs ws) = Some (VList ns) ->
  forallb storable (keys (attrs ws)) = true ->
  save has_state_dict state_dict ws = (ws, inl state) ->
  save_to has_state_dict state_dict torch_save ws = (ws, inl f) ->
  torch_load f (heap wr) = inl (hl', state') ->
  unpickled (heap ws) state (heap wr) hl' state' ->
  (forall k l, get k (attrs wr) = Some (VRef l) -> l < length (heap wr)) ->
  forallb (fun k => mem k (attrs wr)) (keys state) = true ->
  NoDup (targets has_load_state_dict (attrs wr) (heap wr) state') ->
  Forall (fun kv =>
            forall l o,
              receiver has_load_state_dict (attrs wr) (heap wr) (fst kv) = Some (l, o) ->
              snd (protocol load_state_dict o (snd kv) strict) = None /\
              state_dict (fst (protocol load_state_dict o (snd kv) strict)) = snd kv)
         state' ->
  exists w',
    load_from has_load_state_dict load_state_dict torch_load filename f strict wr
    = (w', inl tt) /\
    (forall l, length (heap wr) <= l ->
               nth_error (heap w') l = nth_error hl' l) /\
    forall k v0,
      get k (attrs ws) = Some v0 -> listed k (attrs ws) = false ->
      exists sv v',
        get k state = Some sv /\
        (forall l o,
            v0 = VRef l -> nth_error (heap ws) l = Some o ->
            has_state_dict o = true -> sv = state_dict o) /\
        (has_sd has_state_dict (heap ws) v0 = false -> sv = v0) /\
        get k state' = Some v' /\
        copied (heap ws) hl' (length (heap wr)) sv v' /\
        (refs_free sv = true -> v' = sv) /\
        (forall l o,
            get k (attrs wr) = Some (VRef l) ->
            nth_error (heap wr) l = Some o ->
            has_load_state_dict o = true ->
            get k (attrs w') = Some (VRef l) /\
            nth_error (heap w') l
            = Some (fst (protocol load_state_dict o v' strict)) /\
            state_dict (fst (protocol load_state_dict o v' strict)) = v') /\
        (forall cur,
            get k (attrs wr) = Some cur ->
            hooked has_load_state_dict (heap wr) cur = None ->
            get k (attrs w') = Some v').
Proof.
  intros Hnd Hns Hstor Hsave Hfile Hread (Hext & Hkeys & Hcopy) Hvalid Hsame
         Hdist Hhooks.
  destruct Hext as [new ->].
  destruct (@save_spec obj has_state_dict state_dict ws ns Hnd Hns)
    as (st & Hsave' & Hndk & Hget).
  rewrite Hsave in Hsave'. inversion Hsave'; subst st. clear Hsave'.
  rewrite forallb_forall in Hsame, Hstor.
  assert (Hrecv : forall k,
             receiver has_load_state_dict (attrs wr) (heap wr ++ new) k
             = receiver has_load_state_dict (attrs wr) (heap wr) k).
  { intros k. apply receiver_extend. intros l. apply Hvalid. }
  assert (Hstate_keys : forall k, In k (keys state) -> In k (keys (attrs ws))).
  { intros k Hk. apply mem_in_keys. apply mem_in_keys in Hk.
    unfold mem in *. rewrite Hget in Hk.
    destruct (listed k (attrs ws)); [discriminate|].
    now destruct (get k (attrs ws)). }
  set (wr1 := mkWorld (attrs wr) (heap wr ++ new)
                (trace wr ++ [Log INFO ("Loading state from file [" ++ filename ++ "]")%string])).
  assert (Htg : targets has_load_state_dict (attrs wr) (heap wr ++ new) state'
                = targets has_load_state_dict (attrs wr) (heap wr) state').
  { apply targets_transfer. intros kv _. apply Hrecv. }
  destruct (@load_items_spec obj has_load_state_dict load_state_dict strict state' wr1)
    as (w' & Hrun & Hres & _ & Hframe).
  { now rewrite Hkeys. }
  { cbn [attrs heap wr1]. now rewrite Htg. }
  { rewrite Forall_forall in *. intros [k sv] Hin. unfold accepts.
    cbn [attrs heap wr1 fst snd]. rewrite Hrecv.
    destruct (receiver has_load_state_dict (attrs wr) (heap wr) k)
      as [[l o]|] eqn:Hr.
    - now apply (Hhooks (k, sv) Hin l o).
    - left.
      assert (Hk : In k (keys state))
        by (rewrite <- Hkeys; change k with (fst (k, sv)); now apply in_map).
      split; [now apply Hsame | apply Hstor; now apply Hstate_keys]. }
  exists w'. split; [rewrite (@load_from_unfold filename f strict wr _ _ Hread); exact Hrun|].
  split.
  { intros l Hl. rewrite Hframe; [reflexivity|].
    cbn [attrs heap wr1]. rewrite Htg. intros Hin.
    apply targets_in_heap in Hin. lia. }
  intros k v0 Hk Hl.
  assert (Hsv : get k state
                = Some (serialized has_state_dict state_dict (heap ws) v0))
    by now rewrite Hget, Hl, Hk.
  destruct (Hcopy k _ Hsv) as (v' & Hv' & Hcp).
  exists (serialized has_state_dict state_dict (heap ws) v0), v'.
  split; [exact Hsv|].
  split; [intros l o -> Ho Hsd; now apply serialized_hooked|].
  split; [intros Hraw; now apply serialized_raw|].
  split; [exact Hv'|]. split; [exact Hcp|].
  split; [intros Hfree; eapply copied_refs_free; eauto|].
  apply get_in in Hv'. rewrite Forall_forall in Hres, Hhooks.
  specialize (Hres _ Hv'). specialize (Hhooks _ Hv').
  unfold restored in Hres. cbn [attrs heap wr1 fst snd] in Hres, Hhooks.
  rewrite Hrecv in Hres.
  split.
  - intros l o Hgk Ho Hh.
    rewrite (receiver_hooked has_load_state_dict _ _ _ Hgk Ho Hh) in Hres.
    destruct Hres as [Hg' Hn'].
    split; [now rewrite Hg'|]. split; [exact Hn'|].
    apply (Hhooks l o). now apply receiver_hooked.
  - intros cur Hgk Hh.
    assert (Hr : receiver has_load_state_dict (attrs wr) (heap wr) k = None)
      by (unfold receiver; now rewrite Hgk).
    rewrite Hr in Hres. exact Hres.
Qed.


End RoundTripFacts.

(** *** The container of a training script *)

Ltac distinct := vm_compute; repeat constructor; cbn; intuition discriminate.

Example at_save_attrs :
  attrs at_save
  = [("batch", VInt 0); ("epoch", VInt 0);
     (NO_SERIALIZE, VList [VStr "device"]);
     ("network", VRef 0); ("optimizer", VRef 1); ("lr", VInt 3);
     ("device", VStr "cuda"); (INIT_DONE, VBool true)].
Proof. reflexivity. Qed.

Example save_at_save : py_save at_save = (at_save, inl checkpoint).
Proof. reflexivity. Qed.

(** The docstring of the class: [param._dummy = 666] reads back as
    [param.dummy]. *)
Example dummy_assignment :
  get "dummy" (attrs (fst (py_setattr "_dummy" (VInt 666) (fst (py_new [] [])))))
  = Some (VInt 666).
Proof. reflexivity. Qed.

(** C10, as stated, fails when [_x] is itself an attribute: with [_y] and
    [y] both in the instance dictionary, assigning [_y] raises nothing and
    replaces the value of [_y]. *)
Lemma assign_underscore_both_present :
  truthy (init_done (attrs both_names)) = true /\
  mem "y" (attrs both_names) = true /\
  get "_y" (attrs both_names) = Some (VInt 1) /\
  snd (py_setattr "_y" (VInt 5) both_names) = inl tt /\
  get "_y" (attrs (fst (py_setattr "_y" (VInt 5) both_names))) = Some (VInt 5).
Proof. repeat split. Qed.

(** A name found on the class only ([save] is a method) does not make the
    assignment raise either. *)
Example assign_underscore_method_name :
  hasattr_self "save" (attrs at_save) = true /\
  snd (py_setattr "_save" (VInt 5) at_save) = inl tt /\
  get "save" (attrs (fst (py_setattr "_save" (VInt 5) at_save))) = Some (VInt 5).
Proof. repeat split. Qed.

Lemma setattr_underscore_existing_witness :
  py_setattr "_lr" (VInt 5) at_save = (at_save, inr AttributeError) /\
  attrs (fst (py_setattr "_lr" (VInt 5) at_save)) = attrs at_save /\
  no_serialize (attrs (fst (py_setattr "_lr" (VInt 5) at_save)))
  = no_serialize (attrs at_save).
Proof.
  exact (@setattr_underscore_existing pyobject "lr" (VInt 5) at_save
           eq_refl eq_refl eq_refl).
Defined.





Lemma save_load_round_trip_witness :
  exists w',
    py_save_to at_save = (at_save, inl checkpoint) /\
    py_load_from "checkpoint.pt" checkpoint true at_load = (w', inl tt) /\
    get "network" checkpoint = Some (VInt 7) /\
    get "lr" (attrs w') = Some (VInt 3) /\
    get "network" (attrs w') = Some (VRef 0) /\
    nth_error (heap w') 0 = Some (network (VInt 7)) /\
    nth_error (heap w') 1 = Some (optimizer (VInt 9)).
Proof.
  destruct (@save_load_round_trip pyobject with_state_dict content
              with_load_state_dict py_load_state_dict
              (odict value) py_torch_save py_torch_load
              at_save at_load [VStr "device"] checkpoint checkpoint checkpoint
              (heap at_load) "checkpoint.pt" true)
    as (w' & Hload & _ & Hback).
  - distinct.
  - reflexivity.
  - reflexivity.
  - reflexivity.
  - reflexivity.
  - reflexivity.
  - split; [exists []; reflexivity|]. split; [reflexivity|].
    intros k v Hk. exists v. split; [exact Hk|].
    vm_compute in Hk.
    repeat match type of Hk with
           | (if ?b then _ else _) = _ => destruct b
           end;
      inversion Hk; subst; vm_compute; auto.
  - intros k l Hk. vm_compute in Hk.
    repeat match type of Hk with
           | (if ?b then _ else _) = _ => destruct b
           end;
      inversion Hk; subst; cbn; lia.
  - reflexivity.
  - distinct.
  - unfold checkpoint.
    repeat (apply Forall_cons;
            [intros l o Hr; vm_compute in Hr;
             first [discriminate Hr | inversion Hr; subst; split; reflexivity]|]).
    apply Forall_nil.
  - exists w'. split; [reflexivity|]. split; [exact Hload|].
    split; [reflexivity|].
    destruct (Hback "lr" (VInt 3) eq_refl eq_refl)
      as (sv1 & v1 & Hs1 & _ & _ & Hv1 & _ & _ & _ & Hlr).
    destruct (Hback "network" (VRef 0) eq_refl eq_refl)
      as (sv2 & v2 & Hs2 & _ & _ & Hv2 & _ & _ & Hnet & _).
    destruct (Hback "optimizer" (VRef 1) eq_refl eq_refl)
      as (sv3 & v3 & Hs3 & _ & _ & Hv3 & _ & _ & Hopt & _).
    inversion Hv1; subst v1. inversion Hv2; subst v2. inversion Hv3; subst v3.
    destruct (Hnet 0%nat (network (VInt 0)) eq_refl eq_refl eq_refl)
      as (Hn1 & Hn2 & _).
    destruct (Hopt 1%nat (optimizer (VInt 0)) eq_refl eq_refl eq_refl)
      as (_ & Ho2 & _).
    split; [exact (Hlr (VInt 1) eq_refl eq_refl)|].
    split; [exact Hn1|]. split; [exact Hn2 | exact Ho2].
Defined.


(** With [strict=False] the warning is there and PyTorch updates the keys
    both sides have. *)
Example lightnet_load_partial :
  Net.load (@Net.torch_load_state_dict Z) "weights.pt"
           [("head.bias", 1%Z); ("head.weight", 5%Z)] false
           [("head.weight", 2%Z); ("neck.weight", 3%Z)]
  = ([("head.weight", 5%Z); ("neck.weight", 3%Z)],
     [Net.LogInfo "Loading weights from file [weights.pt]";
      Net.LogWarning "Modules not matching, performing partial update"],
     None).
Proof. reflexivity. Qed.


End ParamsFacts.

(* --------------------------------------------------------------------- *)
(** ** Weight export: which tensor ends under which name *)
(* --------------------------------------------------------------------- *)

Module RemapMoreFacts.
Import OD ODFacts Remap RemapMore RemapFacts.

Lemma get_app {V} k (l1 l2 : odict V) :
  get k (l1 ++ l2) = match get k l1 with Some v => Some v | None => get k l2 end.
Proof.
  induction l1 as [|[k0 v0] tl IH]; simpl; [reflexivity|].
  destruct (String.eqb k k0); auto.
Qed.

Lemma set_fresh {V} k (v : V) d : mem k d = false -> set k v d = d ++ [(k, v)].
Proof.
  unfold mem. induction d as [|[k0 v0] tl IH]; simpl; [reflexivity|].
  destruct (String.eqb k k0); [discriminate|].
  intros H. now rewrite IH.
Qed.

Lemma length_set {V} k (v : V) d : length (set k v d) <= S (length d).
Proof.
  induction d as [|[k0 v0] tl IH]; simpl; [lia|].
  destruct (String.eqb k k0); simpl; lia.
Qed.

Lemma substring_all (k : string) : substring 0 (String.length k) k = k.
Proof. induction k as [|c k IH]; simpl; [reflexivity | now rewrite IH]. Qed.

Lemma lit_match_empty (k : string) : lit_match "" k = true.
Proof. destruct k; reflexivity. Qed.

Lemma lit_sub_empty (k : string) : lit_sub "" "" k = k.
Proof.
  unfold lit_sub. destruct k as [|c k]; [reflexivity|].
  cbn [String.prefix String.length]. rewrite Nat.sub_0_r.
  cbn [append]. apply (substring_all (String c k)).
Qed.

Section Written.

Variables pattern repl tensor : Type.
Variable re_match : pattern -> string -> bool.
Variable re_sub : pattern -> repl -> string -> string.

Lemma remap_items_assignments (items : odict tensor)
      (rules : list (rule pattern repl)) acc :
  remap_items re_match re_sub items rules acc
  = fold_left (@assign tensor) (renamings re_match re_sub items rules) acc.
Proof.
  revert acc. induction items as [|[k v] tl IH]; intros acc; [reflexivity|].
  cbn [remap_items]. rewrite IH, remap_key_first.
  unfold renamings. cbn [flat_map fst snd].
  destruct (first_rule re_match rules k); reflexivity.
Qed.

Lemma get_assignments k' (l : list (string * tensor)) : forall acc,
  get k' (fold_left (@assign tensor) l acc)
  = match get k' (rev l) with Some v => Some v | None => get k' acc end.
Proof.
  induction l as [|[k v] tl IH]; intros acc; [reflexivity|].
  cbn [fold_left rev]. rewrite IH, get_app. unfold assign. cbn [fst snd get].
  destruct (get k' (rev tl)); [reflexivity|].
  rewrite get_set, (String.eqb_sym k k').
  destruct (String.eqb k' k); reflexivity.
Qed.

Lemma nodup_assignments (l : list (string * tensor)) : forall acc,
  NoDup (keys acc) -> NoDup (keys (fold_left (@assign tensor) l acc)).
Proof.
  induction l as [|kv tl IH]; intros acc H; [exact H|].
  cbn [fold_left]. apply IH. now apply set_nodup.
Qed.

Lemma length_assignments (l : list (string * tensor)) : forall acc,
  length (fold_left (@assign tensor) l acc) <= length l + length acc.
Proof.
  induction l as [|kv tl IH]; intros acc; [simpl; lia|].
  cbn [fold_left length]. specialize (IH (assign acc kv)).
  pose proof (length_set (fst kv) (snd kv) acc). unfold assign in *. lia.
Qed.

Lemma length_renamings (sd : odict tensor) (rules : list (rule pattern repl)) :
  length (renamings re_match re_sub sd rules) <= length sd.
Proof.
  unfold renamings. induction sd as [|kv tl IH]; [reflexivity|].
  cbn [flat_map]. rewrite length_app.
  destruct (first_rule re_match rules (fst kv)); simpl; lia.
Qed.

Lemma mem_assignments k' (l : list (string * tensor)) : forall acc,
  mem k' (fold_left (@assign tensor) l acc) = in_keys k' (keys l) || mem k' acc.
Proof.
  induction l as [|[k v] tl IH]; intros acc; [reflexivity|].
  cbn [fold_left]. rewrite IH. unfold assign. cbn [fst snd].
  rewrite mem_set. unfold in_keys, keys. cbn [map fst existsb].
  rewrite (String.eqb_sym k k').
  destruct (String.eqb k' k), (existsb (String.eqb k') (map fst tl));
    reflexivity.
Qed.

Lemma first_rule_last (rules : list (rule pattern repl)) c k :
  first_rule re_match (rules ++ [c]) k
  = match first_rule re_match rules k with
    | Some r => Some r
    | None => if re_match (fst c) k then Some c else None
    end.
Proof.
  unfold first_rule. induction rules as [|r tl IH]; simpl.
  - destruct (re_match (fst c) k); reflexivity.
  - destruct (re_match (fst r) k); auto.
Qed.

Lemma catch_all_identity p0 r0 (sd : odict tensor) : forall acc,
  (forall k, re_match p0 k = true) ->
  (forall k, re_sub p0 r0 k = k) ->
  NoDup (keys acc ++ keys sd) ->
  remap_items re_match re_sub sd [(p0, r0)] acc = acc ++ sd.
Proof.
  induction sd as [|[k v] tl IH]; intros acc Hm Hs Hnd.
  - now rewrite app_nil_r.
  - cbn [remap_items remap_key fst snd]. rewrite Hm, Hs.
    assert (Hk : mem k acc = false).
    { apply mem_keys_false. intros Hin.
      apply NoDup_remove_2 in Hnd. apply Hnd.
      apply in_or_app. now left. }
    rewrite set_fresh by exact Hk.
    rewrite IH; auto.
    + now rewrite <- app_assoc.
    + unfold keys in *. rewrite map_app. cbn [map fst].
      rewrite <- app_assoc. exact Hnd.
Qed.

(** X1. A last rule whose pattern matches every key and whose substitution
    changes none keeps what the rules before it would drop: such a key is
    saved under its own name, every key of the state dictionary is saved
    under some name, and with that rule alone the saved weights are the
    state dictionary itself. *)
Theorem save_catch_all_rule (sd : odict tensor) (rules : list (rule pattern repl))
        (p0 : pattern) (r0 : repl) :
  (forall k, re_match p0 k = true) ->
  (forall k, re_sub p0 r0 k = k) ->
  (forall k v,
      In (k, v) sd -> first_rule re_match rules k = None ->
      first_rule re_match (rules ++ [(p0, r0)]) k = Some (p0, r0) /\
      mem k (saved_weights re_match re_sub sd (rules ++ [(p0, r0)])) = true) /\
  (forall k v,
      In (k, v) sd ->
      exists r,
        first_rule re_match (rules ++ [(p0, r0)]) k = Some r /\
        mem (re_sub (fst r) (snd r) k)
            (saved_weights re_match re_sub sd (rules ++ [(p0, r0)])) = true) /\
  (NoDup (keys sd) -> saved_weights re_match re_sub sd [(p0, r0)] = sd).
Proof.
  intros Hm Hs.
  assert (Hall : forall k v, In (k, v) sd ->
            exists r,
              first_rule re_match (rules ++ [(p0, r0)]) k = Some r /\
              mem (re_sub (fst r) (snd r) k)
                  (saved_weights re_match re_sub sd (rules ++ [(p0, r0)])) = true).
  { intros k v Hin.
    assert (Hr : exists r, first_rule re_match (rules ++ [(p0, r0)]) k = Some r).
    { rewrite first_rule_last. cbn [fst]. rewrite Hm.
      destruct (first_rule re_match rules k); eauto. }
    destruct Hr as [r Hr]. exists r. split; [exact Hr|].
    unfold saved_weights, save. cbn [fst].
    rewrite remap_items_assignments, mem_assignments.
    apply orb_true_iff. left. apply in_keys_spec.
    unfold keys, renamings. apply in_map_iff.
    exists (re_sub (fst r) (snd r) k, v). split; [reflexivity|].
    apply in_flat_map. exists (k, v). split; [exact Hin|].
    cbn [fst snd]. rewrite Hr. now left. }
  split; [|split; [exact Hall|]].
  - intros k v Hin Hnone.
    assert (Hf : first_rule re_match (rules ++ [(p0, r0)]) k = Some (p0, r0)).
    { rewrite first_rule_last, Hnone. cbn [fst]. now rewrite Hm. }
    split; [exact Hf|].
    destruct (Hall k v Hin) as (r & Hr & Hmem).
    rewrite Hf in Hr. inversion Hr; subst r. cbn [fst snd] in Hmem.
    now rewrite Hs in Hmem.
  - intros Hnd. unfold saved_weights, save. cbn [fst].
    now rewrite (@catch_all_identity p0 r0 sd [] Hm Hs Hnd).
Qed.

(** X2. Under a name of the saved weights stands the tensor of the last
    entry of the state dictionary renamed to it: when two keys are renamed
    to one name the later one wins. *)
Theorem save_last_renaming_wins (sd : odict tensor)
        (rules : list (rule pattern repl)) (name : string) :
  get name (saved_weights re_match re_sub sd rules)
  = get name (rev (renamings re_match re_sub sd rules)).
Proof.
  unfold saved_weights, save. cbn [fst].
  rewrite remap_items_assignments, get_assignments.
  now destruct (get name (rev (renamings re_match re_sub sd rules))).
Qed.

(** X3. The saved weights are a dictionary again: no name occurs twice, the
    names are exactly those some key is renamed to, and there are at most as
    many entries as in the state dictionary. *)
Theorem save_names_distinct (sd : odict tensor) (rules : list (rule pattern repl)) :
  NoDup (keys (saved_weights re_match re_sub sd rules)) /\
  length (saved_weights re_match re_sub sd rules) <= length sd /\
  forall name,
    In name (keys (saved_weights re_match re_sub sd rules)) <->
    In name (keys (renamings re_match re_sub sd rules)).
Proof.
  unfold saved_weights, save. cbn [fst].
  rewrite remap_items_assignments. split; [|split].
  - apply nodup_assignments. constructor.
  - pose proof (length_assignments (renamings re_match re_sub sd rules) []).
    pose proof (length_renamings sd rules). simpl in *. lia.
  - intros name. rewrite <- mem_in_keys, mem_assignments.
    rewrite orb_false_r. apply in_keys_spec.
Qed.

End Written.

Lemma save_catch_all_rule_witness :
  first_rule lit_match [("layers", "l"); ("", "")] "head.bias" = Some ("", "") /\
  mem "head.bias"
      (saved_weights lit_match lit_sub
         [("layers.0.weight", 1%Z); ("head.bias", 3%Z)]
         ([("layers", "l")] ++ [("", "")])) = true /\
  saved_weights lit_match lit_sub
    [("layers.0.weight", 1%Z); ("head.bias", 3%Z)] [("", "")]
  = [("layers.0.weight", 1%Z); ("head.bias", 3%Z)].
Proof.
  destruct (@save_catch_all_rule string string Z lit_match lit_sub
              [("layers.0.weight", 1%Z); ("head.bias", 3%Z)]
              [("layers", "l")] "" "" lit_match_empty lit_sub_empty)
    as (Hkeep & _ & _).
  destruct (@save_catch_all_rule string string Z lit_match lit_sub
              [("layers.0.weight", 1%Z); ("head.bias", 3%Z)]
              [] "" "" lit_match_empty lit_sub_empty)
    as (_ & _ & Hid).
  destruct (Hkeep "head.bias" 3%Z) as [Hf Hm].
  - right. now left.
  - reflexivity.
  - split; [exact Hf|]. split; [exact Hm|].
    apply Hid. repeat constructor; cbn; intuition discriminate.
Defined.

End RemapMoreFacts.

(* --------------------------------------------------------------------- *)
(** ** The layer loops *)
(* --------------------------------------------------------------------- *)

Module LayersFacts.
Import Layers.

(** The loops over the children of one module. *)
Lemma layer_loop_children k id cs :
  layer_loop (Node k id cs)
  = flat_map (fun nc => if is_container (snd nc)
                        then layer_loop (snd nc) else [snd nc]) cs.
Proof.
  cbn [layer_loop]. induction cs as [|[n c] tl IH]; [reflexivity|].
  cbn [flat_map snd]. now rewrite IH.
Qed.

Lemma named_layer_loop_children k id cs :
  named_layer_loop (Node k id cs)
  = flat_map (fun nc => if is_container (snd nc)
                        then named_layer_loop (snd nc) else [nc]) cs.
Proof.
  cbn [named_layer_loop]. induction cs as [|[n c] tl IH]; [reflexivity|].
  cbn [flat_map snd]. now rewrite IH.
Qed.

(** X4. [named_layer_loop] yields the layers [layer_loop] yields, in the
    same order, each with a name. *)
Theorem named_layer_loop_same_layers (m : module) :
  map snd (named_layer_loop m) = layer_loop m.
Proof.
  induction m as [k id cs IH] using module_tree_ind.
  rewrite layer_loop_children, named_layer_loop_children.
  induction cs as [|[n c] tl IHl]; [reflexivity|].
  inversion IH as [|? ? Hc Htl]; subst.
  cbn [flat_map snd] in *. rewrite map_app, (IHl Htl).
  destruct (is_container c); [now rewrite Hc | reflexivity].
Qed.

Lemma layer_loop_no_container (m : module) :
  Forall (fun l => is_container l = false) (layer_loop m).
Proof.
  induction m as [k id cs IH] using module_tree_ind.
  rewrite layer_loop_children.
  induction cs as [|[n c] tl IHl]; [constructor|].
  inversion IH as [|? ? Hc Htl]; subst.
  cbn [flat_map snd] in *. apply Forall_app. split; [|now apply IHl].
  destruct (is_container c) eqn:E; [exact Hc|].
  now repeat constructor.
Qed.

(** X5. The loops never yield a [Sequential] or a [ModuleList] and never
    look into anything else.  What a module yields is, child by child and
    in order, the child itself under its own name when it is no container
    (and nothing of what it contains), and what the loop yields for the
    child when it is one; so a module none of whose children is a container
    yields exactly its children. *)
Theorem layer_loop_flattens_containers_only (k : kind) (id : nat)
        (pre post : list (string * module)) (name : string) (c : module) :
  Forall (fun l => is_container l = false)
         (layer_loop (Node k id (pre ++ (name, c) :: post))) /\
  named_layer_loop (Node k id (pre ++ (name, c) :: post))
  = named_layer_loop (Node k id pre)
    ++ (if is_container c then named_layer_loop c else [(name, c)])
    ++ named_layer_loop (Node k id post) /\
  layer_loop (Node k id (pre ++ (name, c) :: post))
  = layer_loop (Node k id pre)
    ++ (if is_container c then layer_loop c else [c])
    ++ layer_loop (Node k id post) /\
  (forall cs,
      forallb (fun nc => negb (is_container (snd nc))) cs = true ->
      named_layer_loop (Node k id cs) = cs /\
      layer_loop (Node k id cs) = map snd cs).
Proof.
  split; [apply layer_loop_no_container|]. split; [|split].
  - rewrite !named_layer_loop_children, flat_map_app. reflexivity.
  - rewrite !layer_loop_children, flat_map_app. reflexivity.
  - intros cs Hcs. rewrite named_layer_loop_children, layer_loop_children.
    induction cs as [|[n c0] tl IH]; [split; reflexivity|].
    cbn [forallb snd] in Hcs. apply andb_true_iff in Hcs as [Hc Htl].
    apply negb_true_iff in Hc. destruct (IH Htl) as [IH1 IH2].
    cbn [flat_map snd map]. rewrite Hc, IH1, IH2. split; reflexivity.
Qed.

(** The names are those of the innermost container: two layers can come
    with one name. *)
Example small_net_layers :
  map fst (named_layer_loop small_net)
  = ["1_convbatch"; "2_max"; "1_convbatch"] /\
  layer_loop small_net = [conv_batch 3; Node Layer 4 []; conv_batch 6].
Proof. split; reflexivity. Qed.

(** [conv_batch] stands for a [Conv2dBatchReLU]: it has a [Sequential]
    inside, which the loop does not open. *)
Lemma layer_loop_flattens_containers_only_witness :
  named_layer_loop
    (Node Sequential 2 [("1_convbatch", conv_batch 3);
                        ("2_max", Node Layer 4 [])])
  = [("1_convbatch", conv_batch 3); ("2_max", Node Layer 4 [])] /\
  layer_loop
    (Node Sequential 2 [("1_convbatch", conv_batch 3);
                        ("2_max", Node Layer 4 [])])
  = [conv_batch 3; Node Layer 4 []].
Proof.
  exact (proj2 (proj2 (proj2
           (layer_loop_flattens_containers_only Sequential 2 [] []
              "1_convbatch" (conv_batch 3))))
           [("1_convbatch", conv_batch 3); ("2_max", Node Layer 4 [])]
           eq_refl).
Defined.

End LayersFacts.

(* --------------------------------------------------------------------- *)
(** ** Pipelines of transforms *)
(* --------------------------------------------------------------------- *)

Module PipelineFacts.
Import Pipeline.

(** The docstring of [Compose]: [tf(10)] is 11; after
    [tf.append(lambda n: n*2)] it is 22; after [tf.insert(0, lambda n: n//2)]
    it is 12; after [del tf[2]] it is 6. *)
Example compose_docstring :
  call [plus_one] 10%Z = ([], inl 11%Z) /\
  call ([plus_one] ++ [times_two]) 10%Z = ([], inl 22%Z) /\
  call (halve :: [plus_one; times_two]) 10%Z = ([], inl 12%Z) /\
  call [halve; plus_one] 10%Z = ([], inl 6%Z).
Proof. repeat split. Qed.

Section CallFacts.

Variables A E : Type.

(** X6. Calling a [Compose] extended by a second list of transforms is
    calling the first list and, when it returns, the second list on its
    result; when a transform raises, the transforms after it are not called
    and the exception is the outcome. *)
Theorem compose_extend (l1 l2 : list (callable A E)) (data : A) :
  call (l1 ++ l2) data =
  match call l1 data with
  | (ev, inl data') => (ev ++ fst (call l2 data'), snd (call l2 data'))
  | (ev, inr e) => (ev, inr e)
  end.
Proof.
  revert data. induction l1 as [|tf rest IH]; intros data.
  - cbn [app call]. now destruct (call l2 data).
  - cbn [app call]. destruct (tf data) as [ev [data'|e]]; [|reflexivity].
    rewrite IH. destruct (call rest data') as [ev1 [data''|e]].
    + destruct (call l2 data'') as [ev2 r]. cbn [fst snd].
      now rewrite app_assoc.
    + reflexivity.
Qed.

End CallFacts.

Example compose_stops_at_exception :
  call [plus_one; failing; times_two] 10%Z = ([tt], inr RuntimeError).
Proof. reflexivity. Qed.

Section MultiFacts.

Variables anno pil cv other : Type.

Lemma multi_none pd (t : multi_transform anno pil cv other) :
  as_callable pd t (Transform.PyNone anno pil cv other)
  = ([], inl (Transform.PyNone anno pil cv other)).
Proof. reflexivity. Qed.

Lemma multi_other pd (t : multi_transform anno pil cv other) (o : other) :
  as_callable pd t (Transform.Other anno pil cv o)
  = ([Transform.LogError (Transform.Other anno pil cv o)],
     inl (Transform.Other anno pil cv o)).
Proof.
  unfold as_callable, Transform.call. cbn. now rewrite andb_false_r.
Qed.

(** X7. [None] goes through a whole pipeline of multi-transforms: the
    result is [None], no override is called and nothing is logged, however
    many transforms there are. *)
Theorem none_through_pipeline (pd_available : bool)
        (tfs : list (multi_transform anno pil cv other)) :
  call (map (as_callable pd_available) tfs) (Transform.PyNone anno pil cv other)
  = ([], inl (Transform.PyNone anno pil cv other)).
Proof.
  induction tfs as [|t tl IH]; [reflexivity|].
  cbn [map call]. rewrite multi_none, IH. reflexivity.
Qed.

(** X8. Data of an unsupported type goes through a whole pipeline of
    multi-transforms unchanged, and every transform of the pipeline logs one
    error for it. *)
Theorem unsupported_through_pipeline (pd_available : bool)
        (tfs : list (multi_transform anno pil cv other)) (o : other) :
  call (map (as_callable pd_available) tfs) (Transform.Other anno pil cv o)
  = (repeat (Transform.LogError (Transform.Other anno pil cv o)) (length tfs),
     inl (Transform.Other anno pil cv o)).
Proof.
  induction tfs as [|t tl IH]; [reflexivity|].
  cbn [map call length repeat]. rewrite multi_other, IH. reflexivity.
Qed.

End MultiFacts.

End PipelineFacts.

(* --------------------------------------------------------------------- *)
(** ** More on the batch sampler *)
(* --------------------------------------------------------------------- *)

Module SamplerMoreFacts.
Import Sampler SamplerFacts.

Lemma quiet_comprehension (b : list nat) (s : state) :
  comprehension (map (fun idx => ([], idx)) b) s
  = (map (fun idx => (input_dim s, idx)) b, s).
Proof.
  induction b as [|idx tl IH]; [reflexivity|].
  cbn [map comprehension requests fold_left]. now rewrite IH.
Qed.

(** Without a pending request the generator pairs every index with the
    current [input_dim] and leaves the sampler as it is. *)
Lemma quiet_iter (batches : list (list nat)) (s : state) :
  new_input_dim s = None ->
  iter (map (quiet_turn []) batches) [] s
  = (map (map (fun idx => (input_dim s, idx))) batches, s, None).
Proof.
  intros Hnone. induction batches as [|b tl IH].
  - cbn [map iter requests fold_left]. now rewrite set_input_dim_none.
  - cbn [map iter quiet_turn before batch requests fold_left].
    rewrite set_input_dim_none by exact Hnone.
    rewrite quiet_comprehension, IH. reflexivity.
Qed.

Lemma firstn_2_two (w h : Z) : firstn 2 [w; h] = [w; h].
Proof. reflexivity. Qed.

(** X9. When the last assignment to [new_input_dim] before a batch is a
    tuple with fewer than two entries, the generator writes its log record
    and ends with [IndexError] without yielding that batch; [input_dim] is
    not changed and the request stays, so that a new run of the generator
    ends the same way before its first batch. *)
Theorem malformed_request_ends_generator (t : turn) (rest : list turn)
        (after : list dim) (s : state) (nd : dim) :
  last_opt (pending s ++ before t) = Some nd ->
  well_formed nd = false ->
  iter (t :: rest) after s
  = ([], mkState (input_dim s) (Some nd) (log s ++ [Resizing (firstn 2 nd)]),
     Some IndexError) /\
  forall b rest' after',
    iter (mkTurn [] b :: rest') after'
         (mkState (input_dim s) (Some nd) (log s ++ [Resizing (firstn 2 nd)]))
    = ([], mkState (input_dim s) (Some nd)
             ((log s ++ [Resizing (firstn 2 nd)]) ++ [Resizing (firstn 2 nd)]),
       Some IndexError).
Proof.
  intros Hlast Hwf.
  assert (Hset : forall s0, new_input_dim s0 = Some nd ->
            set_input_dim s0
            = (mkState (input_dim s0) (Some nd)
                       (log s0 ++ [Resizing (firstn 2 nd)]), Some IndexError)).
  { intros s0 H0. unfold set_input_dim. rewrite H0.
    destruct nd as [|w [|h tl]]; try reflexivity. discriminate Hwf. }
  split.
  - cbn [iter]. rewrite Hset by now rewrite new_requests_last.
    now rewrite requests_input_dim, requests_log.
  - intros b rest' after'. cbn [iter before requests fold_left].
    now rewrite Hset.
Qed.

Lemma malformed_request_ends_generator_witness :
  iter [quiet_turn [[320]%Z] [0; 1]%nat; quiet_turn [] [2; 3]%nat] []
       (init [200; 200]%Z)
  = ([], mkState [200; 200]%Z (Some [320]%Z) [Resizing [320]%Z],
     Some IndexError).
Proof.
  exact (proj1 (@malformed_request_ends_generator
                  (quiet_turn [[320]%Z] [0; 1]%nat)
                  [quiet_turn [] [2; 3]%nat] []
                  (init [200; 200]%Z) [320]%Z eq_refl eq_refl)).
Defined.

(** X10. After [change_input_dim] has returned a size, a run of the
    generator during which nothing else is requested pairs every index of
    every batch with that size and logs the change once; a request that was
    pending before is overridden. *)
Theorem change_input_dim_then_iterate
        (multiple : multiple_arg) (random_range : option (Z * Z)) (draw : Z)
        (s s' : state) (sz : dim) (batches : list (list nat)) :
  change_input_dim multiple random_range draw s = (s', inl sz) ->
  iter (map (quiet_turn []) batches) [] s'
  = (map (map (fun idx => (sz, idx))) batches,
     mkState sz None (log s ++ [Resizing sz]), None).
Proof.
  intros Hch.
  assert (Hs : s' = request s sz /\ exists w h, sz = [w; h]).
  { unfold change_input_dim in Hch.
    destruct multiple as [m|[|m0 [|m1 tl]]]; inversion Hch; subst; eauto. }
  destruct Hs as [-> (w & h & ->)].
  assert (Hset : set_input_dim (request s [w; h])
                 = (mkState [w; h] None (log s ++ [Resizing [w; h]]), None))
    by reflexivity.
  destruct batches as [|b tl].
  - cbn [map iter requests fold_left]. now rewrite Hset.
  - cbn [map iter quiet_turn before batch requests fold_left].
    rewrite Hset, quiet_comprehension.
    change (map (quiet_turn []) tl) with (map (quiet_turn []) tl).
    rewrite (quiet_iter tl (mkState [w; h] None (log s ++ [Resizing [w; h]])))
      by reflexivity.
    reflexivity.
Qed.

Lemma change_input_dim_then_iterate_witness :
  iter (map (quiet_turn []) [[0; 1]; [2; 3]]%nat) []
       (request (init [200; 200]%Z) [480; 320]%Z)
  = ([[([480; 320]%Z, 0%nat); ([480; 320]%Z, 1%nat)];
      [([480; 320]%Z, 2%nat); ([480; 320]%Z, 3%nat)]],
     mkState [480; 320]%Z None [Resizing [480; 320]%Z], None).
Proof.
  exact (@change_input_dim_then_iterate (MTuple [480; 320]%Z) None 0
           (init [200; 200]%Z) (request (init [200; 200]%Z) [480; 320]%Z)
           [480; 320]%Z [[0; 1]; [2; 3]]%nat eq_refl).
Defined.

(** X11. With an int [multiple] that is not negative and a draw of
    [random.randint] inside [random_range], [change_input_dim] returns a
    square size whose side is a multiple of [multiple] between the two ends
    of the range times [multiple], and leaves that size as the request of
    the sampler; [input_dim] and the log are not touched. *)
Theorem change_input_dim_size (m lo hi draw : Z) (s : state) :
  (lo <= draw <= hi)%Z -> (0 <= m)%Z ->
  exists side,
    change_input_dim (MInt m) (Some (lo, hi)) draw s
    = (mkState (input_dim s) (Some [side; side]) (log s), inl [side; side]) /\
    (lo * m <= side <= hi * m)%Z /\ (m | side)%Z.
Proof.
  intros Hd Hm. exists (draw * m)%Z. split; [reflexivity|]. split; [nia|].
  apply Z.divide_factor_r.
Qed.

Lemma change_input_dim_size_witness :
  exists side,
    change_input_dim (MInt 32) (Some (10, 19)%Z) 13 (init [200; 200]%Z)
    = (mkState [200; 200]%Z (Some [side; side]) [], inl [side; side]) /\
    (10 * 32 <= side <= 19 * 32)%Z /\ (32 | side)%Z.
Proof.
  apply (@change_input_dim_size 32 10 19 13 (init [200; 200]%Z)); lia.
Defined.

End SamplerMoreFacts.

(* --------------------------------------------------------------------- *)
(** ** The data loader: construction and the fetching of a mini-batch *)
(* --------------------------------------------------------------------- *)

Module LoaderFacts.
Import Dataset DatasetFacts Loader.

Section FetchFacts.

Variables U R : Type.
Variable getitem_fn : dataset U -> Z -> dataset U * (R + exn).

(** X12. The wrapper has no cleanup on the exceptional path: when the
    wrapped [__getitem__] raises on an index [(d, i)], the exception goes
    through and the override stays on the dataset, so that [input_dim] is
    [d] from then on, and an access with a plain int afterwards runs the
    wrapped function on the dataset in that state. *)
Theorem getitem_exception_keeps_override (self self2 : dataset U)
        (d : dim) (i : Z) (e : exn) :
  getitem_fn (set_override d self) i = (self2, inr e) ->
  override self2 = Some d ->
  wrapper getitem_fn self (IPair d i) = (self2, inr e) /\
  input_dim self2 = d /\
  forall j, wrapper getitem_fn self2 (IInt j) = getitem_fn self2 j.
Proof.
  intros Hcall Hov. split; [|split].
  - now rewrite wrapper_pair, Hcall.
  - unfold input_dim. now rewrite Hov.
  - intros j. apply wrapper_int.
Qed.

(** From here on the wrapped [__getitem__] leaves the two dimension
    attributes of the dataset alone. *)
Hypothesis getitem_keeps :
  forall self i,
    override (fst (getitem_fn self i)) = override self /\
    default_dim (fst (getitem_fn self i)) = default_dim self.

Lemma wrapper_step (self : dataset U) (idx : index) :
  override self = None ->
  default_dim (fst (wrapper getitem_fn self idx)) = default_dim self /\
  match snd (wrapper getitem_fn self idx) with
  | inl r =>
      override (fst (wrapper getitem_fn self idx)) = None /\
      exists s s',
        input_dim s = asked_dim (default_dim self) idx /\
        getitem_fn s (position idx) = (s', inl r)
  | inr _ =>
      input_dim (fst (wrapper getitem_fn self idx))
      = asked_dim (default_dim self) idx
  end.
Proof.
  intros Hov. destruct idx as [i|d i].
  - rewrite wrapper_int. destruct (getitem_keeps self i) as [Ho Hd].
    split; [exact Hd|].
    destruct (getitem_fn self i) as [self2 [r|e]] eqn:Hcall; cbn [fst snd] in *.
    + split; [congruence|]. exists self, self2. split; [|exact Hcall].
      now apply input_dim_no_override.
    + unfold input_dim. rewrite Ho, Hov. exact Hd.
  - rewrite wrapper_pair.
    destruct (getitem_keeps (set_override d self) i) as [Ho Hd].
    destruct (getitem_fn (set_override d self) i) as [self2 [r|e]] eqn:Hcall;
      cbn [fst snd] in *.
    + rewrite Ho. cbn [override set_override fst snd del_override default_dim].
      split; [exact Hd|]. split; [reflexivity|].
      exists (set_override d self), self2. split; [reflexivity | exact Hcall].
    + split; [exact Hd|]. unfold input_dim. now rewrite Ho.
Qed.

(** X13. Fetching a mini-batch from a dataset without override, the wrapped
    [__getitem__] leaving the dimension attributes alone: when every access
    returns, there is one sample per index, each computed by the wrapped
    function on a dataset whose [input_dim] is the resolution of its index
    (the default for an int), and the dataset ends without override; when an
    access raises, the accesses before it have returned their samples, the
    fetch ends with the exception of that access and with the dataset as
    that access left it (no later index is accessed), [input_dim] being the
    resolution of the index that failed.  The default is never changed. *)
Theorem fetch_batch (batch : list index) : forall self : dataset U,
  override self = None ->
  default_dim (fst (fetch getitem_fn self batch)) = default_dim self /\
  match snd (fetch getitem_fn self batch) with
  | inl rs =>
      override (fst (fetch getitem_fn self batch)) = None /\
      Forall2 (fun idx r =>
                 exists s s',
                   input_dim s = asked_dim (default_dim self) idx /\
                   getitem_fn s (position idx) = (s', inl r))
              batch rs
  | inr e =>
      exists pre idx post rs self1,
        batch = pre ++ idx :: post /\
        fetch getitem_fn self pre = (self1, inl rs) /\
        length rs = length pre /\
        wrapper getitem_fn self1 idx
        = (fst (fetch getitem_fn self batch), inr e) /\
        input_dim (fst (fetch getitem_fn self batch))
        = asked_dim (default_dim self) idx
  end.
Proof.
  induction batch as [|idx tl IH]; intros self Hov.
  - cbn [fetch fst snd]. repeat split; auto.
  - cbn [fetch]. destruct (wrapper_step self idx Hov) as [Hd Hstep].
    destruct (wrapper getitem_fn self idx) as [self1 [r|e]] eqn:Hw;
      cbn [fst snd] in *.
    + destruct Hstep as [Hov1 Hr].
      destruct (IH self1 Hov1) as [Hd2 Hrest].
      destruct (fetch getitem_fn self1 tl) as [self2 [rs|e]] eqn:Hf;
        cbn [fst snd] in *.
      * split; [congruence|]. destruct Hrest as [Hov2 Hall].
        split; [exact Hov2|]. constructor; [exact Hr|].
        now rewrite <- Hd.
      * split; [congruence|].
        destruct Hrest as (pre & idx' & post & rs & self3 & -> & Hpre & Hlen
                           & Hfail & Hdim).
        exists (idx :: pre), idx', post, (r :: rs), self3.
        split; [reflexivity|]. split; [cbn [fetch]; now rewrite Hw, Hpre|].
        split; [cbn [length]; now rewrite Hlen|].
        split; [exact Hfail|]. now rewrite <- Hd.
    + split; [exact Hd|]. exists [], idx, tl, [], self.
      repeat split; auto.
Qed.

(** The samples of a fetch that returns. *)
Lemma fetch_samples (batch : list index) : forall (self : dataset U) rs,
  override self = None ->
  snd (fetch getitem_fn self batch) = inl rs ->
  Forall2 (fun idx r =>
             exists s s',
               input_dim s = asked_dim (default_dim self) idx /\
               getitem_fn s (position idx) = (s', inl r))
          batch rs.
Proof.
  induction batch as [|idx tl IH]; intros self rs Hov Hf.
  - cbn [fetch snd] in Hf. inversion Hf. constructor.
  - cbn [fetch] in Hf. destruct (wrapper_step self idx Hov) as [Hd Hstep].
    destruct (wrapper getitem_fn self idx) as [self1 [r|e]];
      cbn [fst snd] in *; [|discriminate Hf].
    destruct Hstep as [Hov1 Hr]. specialize (IH self1).
    destruct (fetch getitem_fn self1 tl) as [self2 [rs'|e]];
      cbn [fst snd] in *; [|discriminate Hf].
    inversion Hf; subst. constructor; [exact Hr|].
    rewrite <- Hd. now apply IH.
Qed.

(** X14. Batch sampler and dataset together, for a dataset without
    override whose wrapped [__getitem__] leaves the dimension attributes
    alone: when the pairs of a mini-batch yielded by the sampler are fetched
    and every access returns, the pairs all carry one resolution, and the
    sample of each pair is computed by the wrapped function, called with the
    index of the pair, on a dataset whose [input_dim] is that resolution. *)
Theorem batch_fetched_at_one_resolution
        (turns : list Sampler.turn) (after : list Sampler.dim)
        (s : Sampler.state) (b : list (Sampler.dim * nat))
        (self : dataset U) (rs : list R) :
  In b (fst (fst (Sampler.iter turns after s))) ->
  override self = None ->
  snd (fetch getitem_fn self (map to_index b)) = inl rs ->
  exists d,
    Forall (fun p => fst p = d) b /\
    Forall2 (fun p r =>
               exists s0 s1,
                 input_dim s0 = d /\
                 getitem_fn s0 (Z.of_nat (snd p)) = (s1, inl r))
            b rs.
Proof.
  intros Hin Hov Hfetch.
  destruct (SamplerFacts.iter_uniform_logged turns after s) as [Hu _].
  rewrite Forall_forall in Hu. destruct (Hu b Hin) as [d Hd].
  pose proof (fetch_samples (map to_index b) self Hov Hfetch) as Hall.
  exists d. split; [exact Hd|]. clear Hfetch Hin Hu. revert rs Hall.
  induction b as [|p tl IH]; intros rs Hall; cbn [map] in Hall;
    inversion Hall as [|? r ? rs' Hr Hrest]; subst; constructor.
  - destruct Hr as (s0 & s1 & Hs0 & Hcall).
    exists s0, s1. split; [|exact Hcall].
    inversion Hd as [|? ? Hp Htl]; subst. exact Hs0.
  - apply IH; [|exact Hrest]. now inversion Hd.
Qed.

End FetchFacts.

Lemma getitem_exception_keeps_override_witness :
  wrapper checked_getitem (Dataset.init [200; 200]%Z tt) (IPair [480; 320]%Z (-1))
  = (set_override [480; 320]%Z (Dataset.init [200; 200]%Z tt), inr IndexError) /\
  wrapper checked_getitem
          (set_override [480; 320]%Z (Dataset.init [200; 200]%Z tt)) (IInt 0)
  = (set_override [480; 320]%Z (Dataset.init [200; 200]%Z tt), inl [480; 320]%Z).
Proof.
  destruct (@getitem_exception_keeps_override unit dim checked_getitem
              (Dataset.init [200; 200]%Z tt)
              (set_override [480; 320]%Z (Dataset.init [200; 200]%Z tt))
              [480; 320]%Z (-1)%Z IndexError eq_refl eq_refl)
    as (Hw & _ & Hnext).
  split; [exact Hw | exact (Hnext 0%Z)].
Defined.

Lemma custom_getitem_keeps (self : dataset unit) (i : Z) :
  override (fst (custom_getitem self i)) = override self /\
  default_dim (fst (custom_getitem self i)) = default_dim self.
Proof. split; reflexivity. Qed.

Lemma checked_getitem_keeps (self : dataset unit) (i : Z) :
  override (fst (checked_getitem self i)) = override self /\
  default_dim (fst (checked_getitem self i)) = default_dim self.
Proof. unfold checked_getitem. destruct (i <? 0)%Z; split; reflexivity. Qed.

Lemma fetch_batch_witness :
  fetch checked_getitem (Dataset.init [200; 200]%Z tt)
        [IPair [480; 320]%Z 0; IPair [320; 320]%Z (-1); IInt 2]
  = (set_override [320; 320]%Z (Dataset.init [200; 200]%Z tt),
     inr IndexError) /\
  exists pre idx post rs self1,
    [IPair [480; 320]%Z 0; IPair [320; 320]%Z (-1); IInt 2]
    = pre ++ idx :: post /\
    fetch checked_getitem (Dataset.init [200; 200]%Z tt) pre
    = (self1, inl rs) /\
    length rs = length pre /\
    wrapper checked_getitem self1 idx
    = (set_override [320; 320]%Z (Dataset.init [200; 200]%Z tt),
       inr IndexError) /\
    input_dim (set_override [320; 320]%Z (Dataset.init [200; 200]%Z tt))
    = asked_dim [200; 200]%Z idx.
Proof.
  split; [reflexivity|].
  exact (proj2 (@fetch_batch unit dim checked_getitem checked_getitem_keeps
                  [IPair [480; 320]%Z 0; IPair [320; 320]%Z (-1); IInt 2]
                  (Dataset.init [200; 200]%Z tt) eq_refl)).
Defined.

Lemma batch_fetched_at_one_resolution_witness :
  exists d,
    Forall (fun p => fst p = d)
           [([480; 320]%Z, 0%nat); ([480; 320]%Z, 1%nat)] /\
    Forall2 (fun p r =>
               exists s0 s1,
                 input_dim s0 = d /\
                 custom_getitem s0 (Z.of_nat (snd p)) = (s1, inl r))
            [([480; 320]%Z, 0%nat); ([480; 320]%Z, 1%nat)]
            [[480; 320]%Z; [480; 320]%Z].
Proof.
  apply (@batch_fetched_at_one_resolution unit dim custom_getitem
           custom_getitem_keeps
           [Sampler.quiet_turn [[480; 320]%Z] [0; 1]%nat] []
           (Sampler.init [200; 200]%Z)
           [([480; 320]%Z, 0%nat); ([480; 320]%Z, 1%nat)]
           (Dataset.init [200; 200]%Z tt)).
  - left. reflexivity.
  - reflexivity.
  - reflexivity.
Defined.

Section InitFacts.

Variable object : Type.
Variable object_truth : object -> bool.
Variable torch_init
  : list (pv object) -> OD.odict (pv object)
    -> (pv object * pv object * pv object) + exn.
Variable dataset_input_dim : pv object -> Sampler.dim + exn.
Variable torch_sampler_init : bool -> option exn.
Variable torch_batch_sampler_init
  : sampler_value object -> pv object -> pv object -> option exn.

Lemma recognised_last (pre : list (pv object)) (x y : pv object)
      (kwargs : OD.odict (pv object)) :
  length pre = 2%nat \/ length pre = 3%nat ->
  recognised (pre ++ [x]) kwargs = recognised (pre ++ [y]) kwargs.
Proof.
  intros Hlen.
  destruct pre as [|a0 [|a1 [|a2 [|a3 tl]]]]; cbn [length] in Hlen;
    try lia; reflexivity.
Qed.

(** X15. The constructor reads the positional [shuffle] under
    [len(args) > 3] and the positional [sampler] under [len(args) > 4], one
    position too late: when one of them is the last positional argument the
    code after [super().__init__] does not see it.  Two calls that differ in
    that argument only, and of which torch's constructor makes the same
    [dataset], [batch_size] and [drop_last] or the same exception, end
    alike: the same exception, or the same sampler and batch sampler
    installed. *)
Theorem last_positional_ignored
        (pre : list (pv object)) (x y : pv object)
        (kwargs : OD.odict (pv object)) :
  length pre = 2%nat \/ length pre = 3%nat ->
  torch_init (pre ++ [x]) kwargs = torch_init (pre ++ [y]) kwargs ->
  Loader.init object_truth torch_init dataset_input_dim torch_sampler_init
              torch_batch_sampler_init (pre ++ [x]) kwargs
  = Loader.init object_truth torch_init dataset_input_dim torch_sampler_init
                torch_batch_sampler_init (pre ++ [y]) kwargs.
Proof.
  intros Hlen Htorch. unfold Loader.init.
  now rewrite Htorch, (recognised_last pre x y kwargs Hlen).
Qed.

(** X16. A loader whose constructor has returned, built without
    [batch_sampler] on a new dataset: the batch sampler installed is a
    [BatchSampler] over the installed sampler, with the [batch_size] and
    [drop_last] torch's constructor left, and it pairs every index of every
    batch with the first two entries of the dataset's [input_dimension] and
    logs nothing, as long as no other size is requested. *)
Theorem default_loader_batches (input_dimension : Sampler.dim) (U : Type)
        (u : U) (args : list (pv object)) (kwargs : OD.odict (pv object))
        (dataset batch_size drop_last : pv object)
        (sampler : sampler_value object)
        (batch_sampler : batch_sampler_value object)
        (batches : list (list nat)) :
  torch_init args kwargs = inl (dataset, batch_size, drop_last) ->
  dataset_input_dim dataset
  = inl (input_dim (Dataset.init input_dimension u)) ->
  Loader.init object_truth torch_init dataset_input_dim torch_sampler_init
              torch_batch_sampler_init args kwargs
  = inl (sampler, batch_sampler) ->
  is_none (snd (recognised args kwargs)) = true ->
  exists st,
    torch_batch_sampler_init sampler batch_size drop_last = None /\
    batch_sampler = LightnetBatchSampler sampler batch_size drop_last st /\
    Sampler.iter (map (Sampler.quiet_turn []) batches) [] st
    = (map (map (fun idx => (firstn 2 input_dimension, idx))) batches,
       st, None) /\
    Sampler.log st = [].
Proof.
  unfold Loader.init. intros Htorch Hdim Hinit Hnone.
  rewrite Htorch in Hinit.
  destruct (recognised args kwargs) as [[shuffle smp] bsmp].
  cbn [snd] in Hnone. rewrite Hnone in Hinit.
  destruct (if is_none smp
            then match torch_sampler_init (truthy object_truth shuffle) with
                 | Some e => inr e
                 | None => inl (if truthy object_truth shuffle
                                then RandomSampler object
                                else SequentialSampler object)
                 end
            else inl (GivenSampler smp)) as [smp'|e]; [|discriminate Hinit].
  rewrite Hdim in Hinit.
  destruct (torch_batch_sampler_init smp' batch_size drop_last) eqn:Hb;
    [discriminate Hinit|].
  inversion Hinit; subst.
  exists (Sampler.init (firstn 2 input_dimension)).
  split; [exact Hb|]. split; [reflexivity|]. split; [|reflexivity].
  now rewrite SamplerMoreFacts.quiet_iter.
Qed.

End InitFacts.

(** [DataLoader(dataset, 2, True)]: the positional [shuffle] is not seen
    and the sampler is sequential. *)
Lemma last_positional_ignored_witness :
  Loader.init (fun _ : nat => true) accepting_torch_init built_with_200
              accepting_sampler_init accepting_batch_sampler_init
              [PObj 0%nat; PObj 2%nat; PBool nat true] []
  = inl (SequentialSampler nat,
         LightnetBatchSampler (SequentialSampler nat) (PObj 2%nat)
                              (PBool nat false) (Sampler.init [200; 200]%Z)).
Proof.
  refine (eq_trans
            (@last_positional_ignored nat (fun _ => true) accepting_torch_init
               built_with_200 accepting_sampler_init
               accepting_batch_sampler_init
               [PObj 0%nat; PObj 2%nat]
               (PBool nat true) (PBool nat false) [] _ _) eq_refl).
  - left. reflexivity.
  - reflexivity.
Defined.

Lemma default_loader_batches_witness :
  exists st,
    accepting_batch_sampler_init (SequentialSampler nat) (PObj 2%nat)
                                 (PBool nat false)
    = None /\
    LightnetBatchSampler (SequentialSampler nat) (PObj 2%nat)
                         (PBool nat false) (Sampler.init [200; 200]%Z)
    = LightnetBatchSampler (SequentialSampler nat) (PObj 2%nat)
                           (PBool nat false) st /\
    Sampler.iter (map (Sampler.quiet_turn []) [[0; 1]; [2; 3]]%nat) [] st
    = (map (map (fun idx => ([200; 200]%Z, idx))) [[0; 1]; [2; 3]]%nat,
       st, None) /\
    Sampler.log st = [].
Proof.
  apply (@default_loader_batches nat (fun _ => true) accepting_torch_init
           built_with_200 accepting_sampler_init accepting_batch_sampler_init
           [200; 200; 3]%Z unit tt [PObj 0%nat; PObj 2%nat] []
           (PObj 0%nat) (PObj 2%nat) (PBool nat false)
           (SequentialSampler nat)
           (LightnetBatchSampler (SequentialSampler nat) (PObj 2%nat)
                                 (PBool nat false) (Sampler.init [200; 200]%Z))
           [[0; 1]; [2; 3]]%nat); reflexivity.
Defined.

End LoaderFacts.

(* --------------------------------------------------------------------- *)
(** ** More on the hyper-parameter container *)
(* --------------------------------------------------------------------- *)

Module ParamsMoreFacts.
Import OD ODFacts Params ParamsFacts ParamsMore.

Section ContainerFacts.

Variable obj : Type.
Variable has_state_dict : obj -> bool.
Variable state_dict : obj -> value.
Variable has_load_state_dict : obj -> bool.
Variable load_state_dict : obj -> value -> option bool -> obj * option exn.
Variable file : Type.
Variable torch_save : list obj -> odict value -> file + exn.

Lemma finished_init_done (d : odict value) :
  truthy (init_done d) = true -> mem INIT_DONE d = true.
Proof.
  unfold init_done, getattr_self, mem.
  destruct (get INIT_DONE d); [reflexivity|]. cbn. discriminate.
Qed.

Lemma init_done_set_other (d : odict value) k v :
  k <> INIT_DONE -> init_done (set k v d) = init_done d.
Proof.
  intros H. unfold init_done, getattr_self. now rewrite get_set_other.
Qed.

Lemma mem_get {V} k (d : odict V) : mem k d = true -> exists v, get k d = Some v.
Proof. unfold mem. destruct (get k d) as [v|]; [eauto | discriminate]. Qed.

Lemma get_mem {V} k (d : odict V) v : get k d = Some v -> mem k d = true.
Proof. unfold mem. now intros ->. Qed.

(** What [__init__] leaves on the no-serialize list: only names that were
    free when their keyword was handled. *)
Lemma init_loop_listed kwargs : forall (w w' : world obj),
  building (attrs w) ->
  for_each kwargs (@init_kwarg obj) w = (w', inl tt) ->
  forall k, listed k (attrs w') = true ->
            listed k (attrs w) = true \/ hasattr_self k (attrs w) = false.
Proof.
  induction kwargs as [|[key0 val] tl IH]; intros w w' Hb Hrun k Hl.
  - cbn [for_each] in Hrun. inversion Hrun; subst. now left.
  - destruct (init_kwarg_building w key0 val Hb)
      as (w1 & Hrun1 & Hb1 & _ & Hg1 & _ & _ & _).
    cbn [for_each] in Hrun. unfold bind in Hrun. rewrite Hrun1 in Hrun.
    destruct (IH w1 w' Hb1 Hrun k Hl) as [H|H].
    + destruct Hb as (Hdone & [ns Hns] & Hnd).
      rewrite (init_kwarg_spec w key0 val Hdone Hns) in Hrun1.
      destruct (hasattr_self (effective_name key0) (attrs w)) eqn:Hh;
        inversion Hrun1; subst w1; cbn [attrs] in H; [now left|].
      assert (Hne : effective_name key0 <> NO_SERIALIZE).
      { apply not_eq_sym. eapply hasattr_false_neq; [exact Hh|].
        unfold mem. now rewrite Hns. }
      destruct (startswith_underscore key0).
      * rewrite listed_append in H
          by (rewrite get_set_other by exact Hne; exact Hns).
        rewrite listed_set_other in H by exact Hne.
        apply orb_true_iff in H as [H|H]; [now left|].
        apply String.eqb_eq in H. subst k. now right.
      * rewrite listed_set_other in H by exact Hne. now left.
    + right. unfold hasattr_self in *.
      apply orb_false_iff in H as [Hm Hc]. rewrite Hc, orb_false_r.
      destruct (mem k (attrs w)) eqn:Hmk; [|reflexivity].
      destruct (mem_get _ _ Hmk) as [v Hv].
      destruct (String.eqb k NO_SERIALIZE) eqn:E.
      * apply String.eqb_eq in E. subst k.
        destruct Hb1 as (_ & [ns1 Hns1] & _).
        apply get_mem in Hns1. congruence.
      * apply String.eqb_neq in E. apply (Hg1 k v Hv) in E.
        apply get_mem in E. congruence.
Qed.

(** The container [__init__] leaves behind. *)
Lemma new_finished (h : list obj) kwargs :
  exists w,
    new h kwargs = (w, inl tt) /\
    finished (attrs w) /\
    heap w = h /\
    get "batch" (attrs w) = Some (VInt 0) /\
    get "epoch" (attrs w) = Some (VInt 0) /\
    get INIT_DONE (attrs w) = Some (VBool true) /\
    forall k, listed k (attrs w) = true -> hasattr_self k fresh_attrs = false.
Proof.
  destruct (init_loop kwargs (mkWorld fresh_attrs h []) fresh_building)
    as (w3 & Hrun & Hb & Hheap & Hget & _ & _).
  pose proof (@init_loop_listed kwargs (mkWorld fresh_attrs h []) w3
                fresh_building Hrun) as Hlisted.
  exists (mkWorld (set INIT_DONE (VBool true) (attrs w3)) (heap w3) (trace w3)).
  destruct (finished_attrs Hb) as (Hdone & Hnd & Hkeep & Hlist).
  split.
  { rewrite init_unfold. unfold bind. rewrite Hrun.
    apply setattr_during_init; [reflexivity|]. apply not_done_yet. apply Hb. }
  cbn [attrs heap].
  split; [|split; [exact Hheap|split; [|split; [|split]]]].
  - split; [exact Hdone|]. split; [exact Hnd|].
    destruct Hb as (_ & [ns Hns] & _). exists ns.
    rewrite Hkeep by discriminate. exact Hns.
  - rewrite Hkeep by discriminate. apply Hget; [reflexivity | discriminate].
  - rewrite Hkeep by discriminate. apply Hget; [reflexivity | discriminate].
  - apply get_set_same.
  - intros k Hl. rewrite Hlist in Hl.
    destruct (Hlisted k Hl) as [H|H]; [discriminate H | exact H].
Qed.

(** X17. [__init__] never raises, whatever the keyword arguments: it leaves
    a finished container, does not touch the objects passed in, and [batch]
    and [epoch] are 0, also when the keywords name them. *)
Theorem construction_never_fails (h : list obj) (kwargs : odict value) :
  exists w,
    new h kwargs = (w, inl tt) /\
    finished (attrs w) /\
    heap w = h /\
    get "batch" (attrs w) = Some (VInt 0) /\
    get "epoch" (attrs w) = Some (VInt 0).
Proof.
  destruct (new_finished h kwargs) as (w & Hnew & Hfin & Hheap & Hb & He & _).
  exists w. auto.
Qed.

(** [object.__setattr__] raises on descriptors only, and then changes
    nothing. *)
Lemma object_setattr_raises item v (w : world obj) e :
  snd (object_setattr item v w) = inr e ->
  fst (object_setattr item v w) = w /\ storable item = false.
Proof.
  unfold object_setattr, storable, descriptors, in_keys. cbn [existsb].
  destruct (String.eqb item "__class__"); [now cbn|].
  destruct (String.eqb item "__dict__"); [destruct v; now cbn|].
  destruct (String.eqb item "__weakref__"); [now cbn|].
  cbn. discriminate.
Qed.

Lemma object_setattr_refused item v (w : world obj) :
  storable item = false -> item <> "__dict__" ->
  fst (object_setattr item v w) = w.
Proof.
  unfold object_setattr, storable, descriptors, in_keys. cbn [existsb].
  intros Hs Hd.
  destruct (String.eqb item "__class__"); [reflexivity|].
  destruct (String.eqb item "__dict__") eqn:E;
    [apply String.eqb_eq in E; contradiction|].
  destruct (String.eqb item "__weakref__"); [reflexivity|].
  discriminate Hs.
Qed.

(** A new name with the leading underscore, step by step: the bare name
    goes on the no-serialize list, then [object.__setattr__] is called. *)
Lemma setattr_underscore_step x v (w : world obj) ns :
  truthy (init_done (attrs w)) = true ->
  mem (String "_" x) (attrs w) = false ->
  mem x (attrs w) = false ->
  get NO_SERIALIZE (attrs w) = Some (VList ns) ->
  setattr (String "_" x) v w
  = object_setattr x v
      (mkWorld (set NO_SERIALIZE (VList (ns ++ [VStr x])) (attrs w))
               (heap w) (trace w)).
Proof.
  intros Hdone Hnew Hx Hns.
  unfold setattr, no_serialize_append. run.
  rewrite Hnew, Hdone. cbn. run. now rewrite Hx, Hns.
Qed.

(** X18. When [__setattr__] raises, the container is as it was before the
    assignment, with one exception: an assignment to [_k] where [k] is one
    of the descriptors [__class__], [__dict__], [__weakref__] and neither
    name is in the instance dictionary has put [k] on the no-serialize list
    before [object.__setattr__] refused the name, and the list keeps it.
    For every other name the assignment is all or nothing. *)
Theorem setattr_failure_effect (item : string) (v : value)
        (w : world obj) (e : exn) :
  snd (setattr item v w) = inr e ->
  (fst (setattr item v w) = w \/
   exists k ns,
     item = String "_" k /\ storable k = false /\
     mem item (attrs w) = false /\ mem k (attrs w) = false /\
     get NO_SERIALIZE (attrs w) = Some (VList ns) /\
     fst (setattr item v w)
     = mkWorld (set NO_SERIALIZE (VList (ns ++ [VStr k])) (attrs w))
               (heap w) (trace w)) /\
  (storable (tail item) = true -> fst (setattr item v w) = w).
Proof.
  intros Hraise.
  assert (Hmain :
    fst (setattr item v w) = w \/
    exists k ns,
      item = String "_" k /\ storable k = false /\
      mem item (attrs w) = false /\ mem k (attrs w) = false /\
      get NO_SERIALIZE (attrs w) = Some (VList ns) /\
      fst (setattr item v w)
      = mkWorld (set NO_SERIALIZE (VList (ns ++ [VStr k])) (attrs w))
                (heap w) (trace w)).
  { revert Hraise. unfold setattr at 1 2. run.
    destruct (mem item (attrs w) || negb (truthy (init_done (attrs w))))
      eqn:Efirst.
    { intros H. left. now apply (object_setattr_raises _ _ _ H). }
    apply orb_false_iff in Efirst as [Hmem Hdone].
    apply negb_false_iff in Hdone.
    destruct item as [|c rest]; [intros _; left; reflexivity|].
    destruct (Ascii.eqb c "_") eqn:Ec.
    - apply Ascii.eqb_eq in Ec. subst c.
      destruct (mem rest (attrs w)) eqn:Hrest; [intros _; left; reflexivity|].
      destruct (get NO_SERIALIZE (attrs w)) as [nsv|] eqn:Hns;
        [|intros _; left; unfold no_serialize_append; run; now rewrite Hns].
      destruct nsv as [| | | | ns | | |];
        try (intros _; left; unfold no_serialize_append; run;
             now rewrite Hns).
      intros H. right. exists rest, ns.
      assert (Hstep : no_serialize_append rest w
                      = (mkWorld (set NO_SERIALIZE (VList (ns ++ [VStr rest]))
                                      (attrs w)) (heap w) (trace w), inl tt))
        by (unfold no_serialize_append; run; now rewrite Hns).
      rewrite Hstep in *.
      destruct (object_setattr_raises _ _ _ H) as [Hw Hs].
      repeat split; auto.
      now rewrite (setattr_underscore_step rest v w Hdone Hmem Hrest Hns).
    - intros H. left. now apply (object_setattr_raises _ _ _ H). }
  split; [exact Hmain|].
  intros Hs. destruct Hmain as [H|(k & ns & -> & Hk & _)]; [exact H|].
  cbn [tail] in Hs. congruence.
Qed.

Lemma set_keeps (d : odict value) k v :
  finished d -> k <> NO_SERIALIZE -> k <> INIT_DONE ->
  finished (set k v d) /\
  (forall k', mem k' d = true -> mem k' (set k v d) = true) /\
  (forall k', listed k' (set k v d) = listed k' d).
Proof.
  intros (Hdone & Hnd & [ns Hns]) H1 H2. split; [|split].
  - split; [now rewrite init_done_set_other|].
    split; [now apply set_nodup|].
    exists ns. now rewrite get_set_other.
  - intros k' Hm. rewrite mem_set, Hm. apply orb_true_r.
  - intros k'. now apply listed_set_other.
Qed.

(** X19. On a finished container an assignment to any name but the two
    private ones, [__dict__] and [___dict__] (through which the instance
    dictionary itself can be replaced) keeps the container finished, whether
    it returns or raises; no attribute disappears and no name leaves the
    no-serialize list: what was hidden from [save] stays hidden. *)
Theorem setattr_keeps_finished (item : string) (v : value) (w : world obj) :
  finished (attrs w) ->
  item <> NO_SERIALIZE -> item <> INIT_DONE ->
  item <> "__dict__" -> item <> "___dict__" ->
  finished (attrs (fst (setattr item v w))) /\
  (forall k, mem k (attrs w) = true ->
             mem k (attrs (fst (setattr item v w))) = true) /\
  (forall k, listed k (attrs w) = true ->
             listed k (attrs (fst (setattr item v w))) = true).
Proof.
  intros Hfin H1 H2 H3 H4.
  assert (Hsame : finished (attrs w) /\
                  (forall k, mem k (attrs w) = true -> mem k (attrs w) = true) /\
                  (forall k, listed k (attrs w) = true ->
                             listed k (attrs w) = true)) by auto.
  assert (Hset : finished (set item v (attrs w)) /\
                 (forall k, mem k (attrs w) = true ->
                            mem k (set item v (attrs w)) = true) /\
                 (forall k, listed k (attrs w) = true ->
                            listed k (set item v (attrs w)) = true)).
  { destruct (set_keeps v Hfin H1 H2) as (Hf & Hm & Hl).
    split; [exact Hf|]. split; [exact Hm|]. intros k. now rewrite Hl. }
  destruct (mem item (attrs w)) eqn:Hmem.
  { destruct (storable item) eqn:Hs.
    - rewrite setattr_existing by assumption. exact Hset.
    - assert (E : setattr item v w = object_setattr item v w)
        by (unfold setattr; run; now rewrite Hmem).
      rewrite E, object_setattr_refused by assumption. exact Hsame. }
  pose proof Hfin as (Hdone & Hnd & [ns Hns]).
  destruct item as [|c rest].
  { unfold setattr. run. rewrite Hmem, Hdone. cbn. auto. }
  destruct (Ascii.eqb c "_") eqn:Ec.
  - apply Ascii.eqb_eq in Ec. subst c.
    destruct (mem rest (attrs w)) eqn:Hrest.
    { unfold setattr. run. rewrite Hmem, Hdone. cbn. rewrite Hrest. cbn. auto. }
    assert (Hr1 : rest <> NO_SERIALIZE).
    { intros ->. apply get_mem in Hns. congruence. }
    assert (Hr2 : rest <> INIT_DONE).
    { intros ->. apply finished_init_done in Hdone. congruence. }
    assert (Hfin1 : finished (set NO_SERIALIZE (VList (ns ++ [VStr rest])) (attrs w))).
    { split; [rewrite init_done_set_other by discriminate; exact Hdone|].
      split; [now apply set_nodup|].
      eexists. apply get_set_same. }
    destruct (storable rest) eqn:Hs.
    + rewrite (setattr_underscore_new rest v w Hs Hdone Hmem Hrest Hns).
      cbn [fst attrs].
      destruct (set_keeps v Hfin1 Hr1 Hr2) as (Hf & Hm & Hl).
      split; [exact Hf|]. split.
      * intros k Hk. apply Hm. rewrite mem_set, Hk. apply orb_true_r.
      * intros k Hk. rewrite Hl, (listed_append k rest (attrs w) Hns), Hk.
        reflexivity.
    + rewrite (setattr_underscore_step rest v w Hdone Hmem Hrest Hns).
      rewrite object_setattr_refused;
        [|exact Hs | intros ->; now apply H4].
      cbn [attrs]. split; [exact Hfin1|]. split.
      * intros k Hk. rewrite mem_set, Hk. apply orb_true_r.
      * intros k Hk. rewrite (listed_append k rest (attrs w) Hns), Hk.
        reflexivity.
  - rewrite setattr_plain; [exact Hset|].
    unfold plain_name. now rewrite Ec.
Qed.

(** X20. For a newly built container, whatever the keyword arguments, the
    loop of [save] runs to its end and leaves the container as it is, and
    the outcome of [save] is that of [torch.save] on a state that has
    [batch], [epoch] and the two private attributes of the class, the
    no-serialize list itself among them. *)
Theorem save_writes_private_attributes (h : list obj) (kwargs : odict value) :
  exists w state ns,
    new h kwargs = (w, inl tt) /\
    save_to has_state_dict state_dict torch_save w
    = (w, torch_save (heap w) state) /\
    get NO_SERIALIZE (attrs w) = Some (VList ns) /\
    get NO_SERIALIZE state = Some (VList ns) /\
    get INIT_DONE state = Some (VBool true) /\
    get "batch" state = Some (VInt 0) /\
    get "epoch" state = Some (VInt 0).
Proof.
  destruct (new_finished h kwargs)
    as (w & Hnew & (Hdone & Hnd & [ns Hns]) & _ & Hb & He & Hi & Hl).
  destruct (save_spec has_state_dict state_dict w Hnd Hns)
    as (state & Hsave & _ & Hget).
  assert (Hfree : forall k, hasattr_self k fresh_attrs = true ->
                            listed k (attrs w) = false).
  { intros k Hk. destruct (listed k (attrs w)) eqn:E; [|reflexivity].
    apply Hl in E. congruence. }
  exists w, state, ns. split; [exact Hnew|].
  split; [now apply save_to_unfold|].
  split; [exact Hns|].
  repeat split; rewrite Hget, Hfree by reflexivity.
  - now rewrite Hns.
  - now rewrite Hi.
  - now rewrite Hb.
  - now rewrite He.
Qed.


(** X22. [load] has no rollback: when the keys [pre] of the state have been
    loaded and the next key is [_x] while the container has [x] and not
    [_x], [load] ends there with [AttributeError]; the container is as the
    keys [pre] left it and the rest of the state is never looked at. *)
Theorem load_stops_at_clash (filename : string) (pre post : odict value)
        (x : string) (v : value) (strict : bool) (w w1 : world obj) :
  load has_load_state_dict load_state_dict filename pre strict w = (w1, inl tt) ->
  truthy (init_done (attrs w1)) = true ->
  mem (String "_" x) (attrs w1) = false ->
  mem x (attrs w1) = true ->
  load has_load_state_dict load_state_dict filename
       (pre ++ (String "_" x, v) :: post) strict w
  = (w1, inr AttributeError).
Proof.
  intros Hpre Hdone Hnew Hx.
  rewrite load_unfold in *. rewrite for_each_app, Hpre.
  cbn [for_each]. unfold bind.
  rewrite load_item_assign.
  - unfold setattr. run. rewrite Hnew, Hdone. cbn. now rewrite Hx.
  - unfold receiver. unfold mem in Hnew.
    destruct (get (String "_" x) (attrs w1)); [discriminate | reflexivity].
Qed.

End ContainerFacts.

(** A dictionary assigned to [___dict__] on a finished container becomes
    the instance dictionary: every attribute it had is gone. *)
Example replace_instance_dict :
  py_setattr "___dict__" (VDict [("a", VInt 1)]) at_load
  = (mkWorld [("a", VInt 1)] (heap at_load) (trace at_load), inl tt).
Proof. reflexivity. Qed.

Lemma setattr_failure_effect_witness :
  snd (py_setattr "___class__" (VInt 5) at_load) = inr TypeError /\
  no_serialize (attrs (fst (py_setattr "___class__" (VInt 5) at_load)))
  = [VStr "device"; VStr "__class__"] /\
  fst (py_setattr "_lr" (VInt 5) at_load) = at_load.
Proof.
  split; [reflexivity|]. split; [reflexivity|].
  exact (proj2 (@setattr_failure_effect pyobject "_lr" (VInt 5) at_load
                  AttributeError eq_refl) eq_refl).
Defined.

Lemma at_load_finished : finished (attrs at_load).
Proof.
  split; [reflexivity|]. split; [distinct|]. eexists. reflexivity.
Qed.

Lemma setattr_keeps_finished_witness :
  finished (attrs (fst (py_setattr "_seed" (VInt 7) at_load))) /\
  listed "device" (attrs (fst (py_setattr "_seed" (VInt 7) at_load))) = true.
Proof.
  destruct (@setattr_keeps_finished pyobject "_seed" (VInt 7) at_load
              at_load_finished)
    as (Hf & _ & Hl); [discriminate | discriminate | discriminate
                       | discriminate |].
  split; [exact Hf | apply Hl; reflexivity].
Defined.


Lemma load_stops_at_clash_witness :
  exists w1,
    py_load "checkpoint.pt" clashing_checkpoint true at_load
    = (w1, inr AttributeError) /\
    get "epoch" (attrs w1) = Some (VInt 4) /\
    get "lr" (attrs w1) = Some (VInt 1) /\
    get "batch" (attrs w1) = Some (VInt 0).
Proof.
  eexists. split.
  - apply (@load_stops_at_clash pyobject with_load_state_dict
             py_load_state_dict "checkpoint.pt" [("epoch", VInt 4)]
             [("batch", VInt 99)] "lr" (VInt 1) true at_load);
      reflexivity.
  - repeat split.
Defined.

(** *** [__repr__] *)

Lemma insert_sorted_in (x k : string) (l : list string) :
  In k (insert_sorted x l) <-> k = x \/ In k l.
Proof.
  induction l as [|y tl IH]; cbn [insert_sorted].
  - cbn. intuition.
  - destruct (String.leb x y); cbn [In]; [intuition|].
    rewrite IH. intuition.
Qed.

Lemma sorted_in (k : string) (l : list string) : In k (sorted l) <-> In k l.
Proof.
  unfold sorted. induction l as [|x tl IH]; cbn [fold_right]; [tauto|].
  rewrite insert_sorted_in, IH. cbn [In]. intuition.
Qed.

Section ReprFacts.

Variable obj : Type.
Variable has_state_dict : obj -> bool.
Variable state_dict : obj -> value.
Variable str_of : value -> string.
Variable class_name : value -> string.

(** The loop of [__repr__] over names that are all attributes. *)
Lemma repr_entries_spec (d : odict value) (ns : list value) :
  get NO_SERIALIZE d = Some (VList ns) ->
  forall ks,
    (forall k, In k ks -> mem k d = true) ->
    exists entries,
      repr_entries str_of class_name d ks = inl entries /\
      map (fun e => fst (fst e)) entries
      = filter (fun k => negb (String.prefix PRIVATE k)) ks /\
      forall k starred text,
        In (k, starred, text) entries ->
        starred = listed k d /\
        exists val, get k d = Some val /\ text = valrepr str_of class_name val.
Proof.
  intros Hns. induction ks as [|k tl IH]; intros Hall.
  - exists []. cbn. split; [reflexivity|]. split; [reflexivity|].
    intros k0 starred text [].
  - destruct IH as (rest & Hrest & Hnames & Hin).
    { intros k' Hk'. apply Hall. now right. }
    cbn [repr_entries filter].
    destruct (String.prefix PRIVATE k) eqn:Ep; cbn [negb].
    + exists rest. auto.
    + destruct (mem_get k d (Hall k (or_introl eq_refl))) as [val Hval].
      rewrite Hval, Hns, (listed_contains k d Hns), Hrest.
      eexists. split; [reflexivity|]. cbn [map fst snd].
      split; [now rewrite Hnames|].
      intros k' starred text [H|H].
      * inversion H; subst. split; [reflexivity|]. eauto.
      * now apply Hin.
Qed.

(** X23. [__repr__] of a finished container returns; it lists every
    attribute but those whose name starts with [_HyperParameters__], and an
    attribute carries the asterisk exactly when [save] leaves it out of the
    state it writes. *)
Theorem repr_stars_what_save_omits (cls : string) (w : world obj) :
  finished (attrs w) ->
  exists entries state,
    repr str_of class_name cls (attrs w) = inl (render cls entries) /\
    save has_state_dict state_dict w = (w, inl state) /\
    (forall k, In k (map (fun e => fst (fst e)) entries) <->
               mem k (attrs w) = true /\ String.prefix PRIVATE k = false) /\
    (forall k starred text,
        In (k, starred, text) entries ->
        (starred = true <-> get k state = None)).
Proof.
  intros (Hdone & Hnd & [ns Hns]).
  destruct (@repr_entries_spec (attrs w) ns Hns (sorted (keys (attrs w))))
    as (entries & Hrun & Hnames & Hin).
  { intros k Hk. apply mem_in_keys. now apply sorted_in. }
  destruct (save_spec has_state_dict state_dict w Hnd Hns)
    as (state & Hsave & _ & Hget).
  exists entries, state.
  split; [unfold repr; now rewrite Hrun|]. split; [exact Hsave|]. split.
  - intros k. rewrite Hnames, filter_In, sorted_in, <- mem_in_keys.
    rewrite negb_true_iff. reflexivity.
  - intros k starred text He.
    destruct (Hin k starred text He) as (-> & val & Hval & _).
    rewrite Hget, Hval. destruct (listed k (attrs w)); split; congruence.
Qed.

End ReprFacts.

(** [device] was passed as [_device]: it is not saved and is starred. *)
Example repr_at_save :
  repr show show_class "HyperParameters" (attrs at_save)
  = inl ("HyperParameters(" ++ newline
         ++ "  batch = 0" ++ newline
         ++ "  device* = cuda" ++ newline
         ++ "  epoch = 0" ++ newline
         ++ "  lr = 3" ++ newline
         ++ "  network = Module" ++ newline
         ++ "  optimizer = Module" ++ newline ++ ")")%string.
Proof. reflexivity. Qed.

Lemma repr_stars_what_save_omits_witness :
  exists entries state,
    repr show show_class "HyperParameters" (attrs at_load)
    = inl (render "HyperParameters" entries) /\
    py_save at_load = (at_load, inl state) /\
    (forall k, In k (map (fun e => fst (fst e)) entries) <->
               mem k (attrs at_load) = true /\ String.prefix PRIVATE k = false) /\
    (forall k starred text,
        In (k, starred, text) entries ->
        (starred = true <-> get k state = None)).
Proof.
  exact (@repr_stars_what_save_omits pyobject with_state_dict content show
           show_class "HyperParameters" at_load at_load_finished).
Defined.

End ParamsMoreFacts.
